(** * Bulk downloader and billing-code scanner: a shallow embedding

    The development follows the Go sources of the repository:
    - [jsonformatter/json.go]: the URL downloader (retry policy, URL list
      loading, [downloadFile], [buildExistingFileMap]);
    - [pipeline/billingCode.go]: the plain-JSON scanner and its worker pool;
    - the gzip streaming scanner ([StreamingGzipProcessor]) with its
      worker pool and ledger, and the gzip repair tool ([robustDecompress]).

    Part I holds the model, Part II the facts proved about it. *)

From Stdlib Require Import ZArith QArith Qround Qminmax Qpower Lqa String Ascii List Lia Bool
  SpecFloat.
From stdpp Require Import gmap strings list.

Local Open Scope string_scope.
Local Open Scope list_scope.
Local Open Scope Z_scope.

(* ===================================================================== *)
(** * Part I. The model                                                   *)
(* ===================================================================== *)

(** ** Go's [strings] package, on byte strings *)

(** [strings.HasPrefix(s, prefix)]. *)
Definition HasPrefix (s p : string) : bool := String.prefix p s.

(** [strings.Contains(s, substr)]: some suffix of [s] starts with [substr]. *)
Fixpoint Contains (s substr : string) : bool :=
  match s with
  | EmptyString => HasPrefix s substr
  | String _ s' => HasPrefix s substr || Contains s' substr
  end.

(** [strings.ToLower] on one byte.  Only the ASCII letters are mapped; this
    is Go's behaviour on ASCII text (non-ASCII runes are left as they are
    here). *)
Definition lowerByte (c : ascii) : ascii :=
  let n := nat_of_ascii c in
  if ((65 <=? n) && (n <=? 90))%nat then ascii_of_nat (n + 32) else c.

Fixpoint ToLower (s : string) : string :=
  match s with
  | EmptyString => EmptyString
  | String c s' => String (lowerByte c) (ToLower s')
  end.

(** [strings.ReplaceAll(s, old, new)] for a non-empty [old]: the
    non-overlapping occurrences of [old] are replaced from left to right.
    [skip] counts the bytes of a matched occurrence still to be dropped. *)
Fixpoint replaceFrom (skip : nat) (s old new : string) : string :=
  match s with
  | EmptyString => EmptyString
  | String c s' =>
      match skip with
      | S k => replaceFrom k s' old new
      | O =>
          if HasPrefix s old
          then new +:+ replaceFrom (Nat.pred (String.length old)) s' old new
          else String c (replaceFrom O s' old new)
      end
  end.

Definition ReplaceAll (s old new : string) : string := replaceFrom O s old new.

(** The last element of [strings.Split(s, "/")]: the bytes after the last
    slash ([s] itself when it has none).  [acc] is the segment read so
    far. *)
Fixpoint lastSegmentFrom (acc s : string) : string :=
  match s with
  | EmptyString => acc
  | String c s' =>
      if Ascii.eqb c "/"%char then lastSegmentFrom EmptyString s'
      else lastSegmentFrom (acc +:+ String c EmptyString) s'
  end.

Definition lastPathPart (path : string) : string := lastSegmentFrom EmptyString path.

(** ** Retry policy ([jsonformatter/json.go]) *)

(** [time.Duration] is a count of nanoseconds. *)
Definition Duration := Z.

Definition Second : Duration := 1000000000.
Definition Millisecond : Duration := 1000000.

(** *** [float64]

    A [float64] is a NaN, an infinity or a finite number, held here as
    the rational it stands for.  (The sign of a zero is not kept: the
    program has no operation that tells the two zeros apart.)  The
    operations are those of IEEE 754 binary64, which Go prescribes: the
    exact result, rounded to the nearest number with a mantissa of 53
    bits, ties to even, with gradual underflow and overflow to an
    infinity. *)
Inductive float64 :=
| NaN
| Inf (negative : bool)
| Fin (q : Q).

(** The integer part of the binary logarithm of [q > 0]. *)
Definition ilog2 (q : Q) : Z :=
  let k := Z.log2 (Qnum q) - Z.log2 (Zpos (Qden q)) in
  if Qle_bool (2 ^ k) q then k else k - 1.

(** The exponent of the last mantissa bit of the [float64] numbers
    around [a > 0]; [-1074] in the subnormal range. *)
Definition ulpExp (a : Q) : Z := Z.max (ilog2 a - 52) (-1074).

(** The nearest integer, the even one of two that are equally near. *)
Definition roundHalfEven (x : Q) : Z :=
  let f := Qfloor x in
  match Qcompare (x - inject_Z f) (1 # 2) with
  | Lt => f
  | Gt => f + 1
  | Eq => if Z.even f then f else f + 1
  end.

(** The magnitude [a > 0] rounded to 53 bits. *)
Definition roundAbs (a : Q) : Q :=
  (inject_Z (roundHalfEven (a / 2 ^ ulpExp a)) * 2 ^ ulpExp a)%Q.

(** Rounding to nearest, ties to even: the [float64] of the exact result
    [q] of an operation. *)
Definition RN (q : Q) : float64 :=
  match Qcompare q 0 with
  | Eq => Fin 0
  | Gt => let r := roundAbs q in if Qle_bool (2 ^ 1024) r then Inf false else Fin r
  | Lt => let r := roundAbs (- q) in if Qle_bool (2 ^ 1024) r then Inf true else Fin (- r)
  end.

(** The order of the values; a NaN is not comparable. *)
Definition fle (x y : float64) : Prop :=
  match x, y with
  | NaN, _ | _, NaN => False
  | Inf true, _ => True
  | _, Inf false => True
  | Inf false, _ => False
  | Fin _, Inf true => False
  | Fin p, Fin q => (p <= q)%Q
  end.

(** [x == y]: the values are equal; a NaN equals nothing. *)
Definition feq (x y : float64) : bool :=
  match x, y with
  | Inf s, Inf t => Bool.eqb s t
  | Fin p, Fin q => Qeq_bool p q
  | _, _ => false
  end.

(** [x > y]. *)
Definition fgt (x y : float64) : bool :=
  match x, y with
  | NaN, _ | _, NaN => false
  | Inf true, _ => false
  | _, Inf false => false
  | Inf false, _ => true
  | Fin _, Inf true => true
  | Fin p, Fin q => negb (Qle_bool p q)
  end.

Definition fneg (x : float64) : float64 :=
  match x with
  | NaN => NaN
  | Inf s => Inf (negb s)
  | Fin q => Fin (- q)
  end.

Definition isNegative (q : Q) : bool := negb (Qle_bool 0 q).

(** [x * y]. *)
Definition fmul (x y : float64) : float64 :=
  match x, y with
  | NaN, _ | _, NaN => NaN
  | Inf s, Inf t => Inf (xorb s t)
  | Inf s, Fin q | Fin q, Inf s => if Qeq_bool q 0 then NaN else Inf (xorb s (isNegative q))
  | Fin p, Fin q => RN (p * q)
  end.

(** [x + y]. *)
Definition fadd (x y : float64) : float64 :=
  match x, y with
  | NaN, _ | _, NaN => NaN
  | Inf s, Inf t => if Bool.eqb s t then Inf s else NaN
  | Inf s, Fin _ | Fin _, Inf s => Inf s
  | Fin p, Fin q => RN (p + q)
  end.

(** [x - y]. *)
Definition fsub (x y : float64) : float64 := fadd x (fneg y).

(** [x * y + z] rounded once, the fused operation. *)
Definition fma (x y z : float64) : float64 :=
  match x, y, z with
  | Fin p, Fin q, Fin r => RN (p * q + r)
  | Fin _, Fin _, _ => z
  | _, _, _ => fadd (fmul x y) z
  end.

(** Truncation toward zero. *)
Definition truncQ (x : Q) : Z :=
  if Qle_bool 0 x then Qfloor x else Qceiling x.

(** The conversion [float64(z)] of an integer. *)
Definition float64_of_int (z : Z) : float64 := RN (inject_Z z).

(** The conversion [time.Duration(x)] to [int64]: truncation toward
    zero.  Where the truncated value is no [int64], or [x] is no number,
    Go leaves the result to the implementation: [None]. *)
Definition int64_of_float64 (x : float64) : option Z :=
  match x with
  | Fin q =>
      let t := truncQ q in
      if (- 2 ^ 63 <=? t) && (t <? 2 ^ 63) then Some t else None
  | _ => None
  end.

(** The value of a [spec_float], the binary64 of the Standard Library. *)
Definition float64_of_spec (x : spec_float) : float64 :=
  match x with
  | S754_zero _ => Fin 0
  | S754_infinity s => Inf s
  | S754_nan => NaN
  | S754_finite s m e => Fin ((if s then -1 else 1) * inject_Z (Zpos m) * 2 ^ e)
  end.

(** What the source leaves to the platform: the library function
    [math.Pow], and whether the compiler turns [x*y + z] into one fused
    operation, which Go allows and its compiler does on some
    architectures (not on amd64), for a product that has no other use:
    here the product [jitter], added to [delay]. *)
Record Platform := {
  math_Pow : float64 -> float64 -> float64;
  fusedMultiplyAdd : bool
}.

(** [RetryConfig]. *)
Record RetryConfig := {
  MaxRetries : Z;
  InitialDelay : Duration;
  MaxDelay : Duration;
  BackoffFactor : float64;
  JitterFactor : float64
}.

(** The constants [2.0] and [0.1] are the [float64] numbers nearest to
    them. *)
Definition defaultRetryConfig : RetryConfig := {|
  MaxRetries := 3;
  InitialDelay := 1 * Second;
  MaxDelay := 30 * Second;
  BackoffFactor := RN 2;
  JitterFactor := RN (1 # 10)
|}.

(** [float64(config.InitialDelay) * math.Pow(config.BackoffFactor,
    float64(attempt))]. *)
Definition exponentialDelay (p : Platform) (attempt : Z) (config : RetryConfig) : float64 :=
  fmul (float64_of_int (InitialDelay config))
       (math_Pow p (BackoffFactor config) (float64_of_int attempt)).

(** [rand.Float64()*2 - 1], for the value [sample] of [rand.Float64()].
    The double of a [float64] below [2^1023] is a [float64], so that
    fusing the two operations would change nothing. *)
Definition jitterDraw (sample : float64) : float64 :=
  fsub (fmul sample (Fin 2)) (Fin 1).

(** [delay] after [delay += jitter], where
    [jitter := delay * config.JitterFactor * (rand.Float64()*2 - 1)]. *)
Definition perturbedDelay (p : Platform) (attempt : Z) (config : RetryConfig)
    (sample : float64) : float64 :=
  let delay := exponentialDelay p attempt config in
  let spread := fmul delay (JitterFactor config) in
  if fusedMultiplyAdd p then fma spread (jitterDraw sample) delay
  else fadd delay (fmul spread (jitterDraw sample)).

(** The cap: [if delay > float64(config.MaxDelay) { delay = ... }]. *)
Definition capDelay (maxDelay : Duration) (delay : float64) : float64 :=
  if fgt delay (float64_of_int maxDelay) then float64_of_int maxDelay else delay.

(** [calculateBackoffDelay(attempt, config)].  [sample] is the value
    returned by the call [rand.Float64()], a number of [[0, 1)]. *)
Definition calculateBackoffDelay (p : Platform) (attempt : Z) (config : RetryConfig)
    (sample : float64) : option Duration :=
  if attempt <=? 0 then Some (InitialDelay config)
  else int64_of_float64 (capDelay (MaxDelay config) (perturbedDelay p attempt config sample)).



(** A platform for the examples: every operation rounded by itself, as on
    amd64, and for [math.Pow] the power to a whole exponent, rounded
    once.  At the powers of two, which the default configuration asks
    for, that is the exact power. *)
Definition roundedPow (x y : float64) : float64 :=
  match x, y with
  | Fin b, Fin n => RN (b ^ Qfloor n)
  | _, _ => NaN
  end.

Definition amd64 : Platform := {| math_Pow := roundedPow; fusedMultiplyAdd := false |}.

(** A Go [error] value whose message is all the program looks at is
    represented by that message, [None] being [nil]. *)
Definition error := option string.

(** The condition a transport error reports: Go carries it in the dynamic
    type and fields of the error value ([net.Error.Timeout()],
    [syscall.ECONNRESET] and so on). *)
Inductive ErrorKind :=
| Timeout
| ConnectionReset
| ConnectionRefused
| TemporaryFailure
| NoRouteToHost
| NetworkUnreachable
| OtherKind.

(** An error returned by [httpClient.Get]: the condition it reports and
    the text of [err.Error()]. *)
Record GoError := {
  kind : ErrorKind;
  message : string
}.

Definition retryableErrors : list string :=
  [ "timeout"; "connection reset"; "connection refused";
    "temporary failure"; "no route to host"; "network is unreachable" ].

(** [isRetryableError(err)]. *)
Definition isRetryableError (err : option GoError) : bool :=
  match err with
  | None => false
  | Some e =>
      let errStr := message e in
      existsb (fun retryable => Contains (ToLower errStr) retryable) retryableErrors
  end.

(** The classifier as the specification words it: an error is retryable
    when the condition it reports is one of the closed set of transient
    ones, whatever its text. *)
Definition isRetryableTransportError_spec (err : option GoError) : bool :=
  match err with
  | None => false
  | Some e => match kind e with OtherKind => false | _ => true end
  end.

Definition retryableStatusCodes : list Z := [429; 500; 502; 503; 504].

(** [isRetryableHTTPStatus(statusCode)]. *)
Definition isRetryableHTTPStatus (statusCode : Z) : bool :=
  existsb (fun code => statusCode =? code) retryableStatusCodes.

(** ** Loading the URL list ([jsonformatter/json.go]) *)

(** [fixUnicodeEscapes].  The Go literal ["\\u0026"] is the six bytes
    backslash, u, 0, 0, 2, 6. *)
Definition fixUnicodeEscapes (str : string) : string :=
  let str := ReplaceAll str "\u0026" "&" in
  let str := ReplaceAll str "\u003d" "=" in
  let str := ReplaceAll str "\u003f" "?" in
  let str := ReplaceAll str "\u007e" "~" in
  str.

(** [isURL]. *)
Definition isURL (str : string) : bool :=
  HasPrefix str "http://" || HasPrefix str "https://".

(** What [bufio.Scanner] delivers for an opened file: the lines returned
    by the successive [scanner.Text()] calls and the final
    [scanner.Err()]. *)
Record ScannedFile := {
  scannedLines : list string;
  scannerErr : error
}.

(** The body of the [for scanner.Scan()] loop, with [urls] as the slice
    being appended to. *)
Fixpoint scanLines (lines : list string) (urls : list string) : list string :=
  match lines with
  | [] => urls
  | line :: rest =>
      if negb (String.eqb line "") && negb (HasPrefix line "#") then
        let cleanedURL := fixUnicodeEscapes line in
        if isURL cleanedURL then scanLines rest (urls ++ [cleanedURL])
        else scanLines rest urls
      else scanLines rest urls
  end.

(** [loadURLsFromFile]: [opened] is the result of [os.Open], either its
    error or the file as the scanner reads it.  The result is [inl err]
    for [(nil, err)] and [inr urls] for [(urls, nil)]. *)
Definition loadURLsFromFile (opened : string + ScannedFile) : string + list string :=
  match opened with
  | inl err => inl err
  | inr file =>
      let urls := scanLines (scannedLines file) [] in
      match scannerErr file with
      | Some err => inl err
      | None => inr urls
      end
  end.

(** The lines the loop keeps: not empty, not a comment, and a URL once the
    escapes are replaced. *)
Definition acceptedLine (line : string) : bool :=
  negb (String.eqb line "") && negb (HasPrefix line "#") && isURL (fixUnicodeEscapes line).

(** ** Downloading one file ([downloadFile], [jsonformatter/json.go]) *)

(** The errors [downloadFile] stores in its result, one constructor for
    each [fmt.Errorf] format of the function. *)
Inductive DownloadError :=
| InvalidURL (cause : string)          (* "invalid URL: %v" *)
| RequestFailed (cause : string)       (* "HTTP request failed: %v" *)
| HTTPStatus (code : Z)                (* "HTTP status %d" *)
| CreateFailed (cause : string)        (* "failed to create file: %v" *)
| WriteFailed (cause : string)         (* "failed to write file: %v" *)
| MaxRetriesExceeded.                  (* "max retries exceeded" *)

Record DownloadResult := {
  URL : string;
  Success : bool;
  Error : option DownloadError;
  FilePath : string;
  Retries : Z
}.

Definition withError (e : DownloadError) (attempt : Z) (r : DownloadResult) : DownloadResult :=
  {| URL := URL r; Success := Success r; Error := Some e;
     FilePath := FilePath r; Retries := attempt |}.

Definition withSuccess (path : string) (attempt : Z) (r : DownloadResult) : DownloadResult :=
  {| URL := URL r; Success := true; Error := Error r;
     FilePath := path; Retries := attempt |}.

(** What the outside world answers to one pass of the retry loop:
    [httpClient.Get] fails, or it responds with a status code, after which
    [os.Create] and [io.CopyBuffer] succeed ([None]) or fail. *)
Inductive AttemptOutcome :=
| GetFails (err : GoError)
| Responds (status : Z) (createErr : error) (copyErr : error).

(** The environment of one [downloadFile] call: the outcome of each pass
    and the random number drawn for each backoff delay. *)
Record World := {
  outcome : Z -> AttemptOutcome;
  sample : Z -> float64
}.

(** The effects a call performs, in program order. *)
Inductive Effect :=
| Sleep (d : option Duration)
| HTTPGet (url : string)
| CreateFile (path : string) (ok : bool)
| CopyBody (path : string) (ok : bool)
| RemoveFile (path : string).

Definition isHTTPGet (e : Effect) : bool :=
  match e with HTTPGet _ => true | _ => false end.

Definition isFileWrite (e : Effect) : bool :=
  match e with CreateFile _ _ | CopyBody _ _ | RemoveFile _ => true | _ => false end.

(** The number of HTTP requests in a trace. *)
Definition httpRequests (trace : list Effect) : nat := length (List.filter isHTTPGet trace).

(** The destination directory after an effect: the set of paths that
    exist.  [os.Create] makes the path exist when it succeeds and
    [os.Remove] makes it disappear (the program discards the result of
    [os.Remove]). *)
Definition applyEffect (fs : gset string) (e : Effect) : gset string :=
  match e with
  | CreateFile path true => {[ path ]} ∪ fs
  | RemoveFile path => fs ∖ {[ path ]}
  | _ => fs
  end.

Definition applyEffects (fs : gset string) (trace : list Effect) : gset string :=
  fold_left applyEffect trace fs.

(** A Go [map[string]bool] read at a key: absent keys read as [false]. *)
Definition mapGet (m : gmap string bool) (k : string) : bool := default false (m !! k).

(** A directory entry as [os.ReadDir] returns it. *)
Record DirEntry := {
  Name : string;
  IsDir : bool
}.

(** [buildExistingFileMap]: [listing] is the result of [os.ReadDir], [None]
    when it failed. *)
Definition buildExistingFileMap (listing : option (list DirEntry)) : gmap string bool :=
  match listing with
  | None => ∅
  | Some files =>
      fold_left (fun fileMap file =>
                   if negb (IsDir file) then <[ Name file := true ]> fileMap else fileMap)
                files ∅
  end.

(** A pass that fails in a way the loop retries: a transport error that
    [isRetryableError] accepts, or a status other than 200 that
    [isRetryableHTTPStatus] accepts. *)
Definition retryableFailure (o : AttemptOutcome) : bool :=
  match o with
  | GetFails err => isRetryableError (Some err)
  | Responds status _ _ => negb (status =? 200) && isRetryableHTTPStatus status
  end.

Section Download.

(** [math.Pow] and the rounding of the backoff delay. *)
Variable platform : Platform.

(** [url.Parse]: the [Path] of the parsed URL, or the error. *)
Variable url_Parse : string -> string + string.

(** [filepath.Join] of a directory and a file name. *)
Variable filepath_Join : string -> string -> string.

(** The retry loop of [downloadFile], entered with [remaining] passes left,
    the loop variable [attempt] and the [result] built so far. *)
Fixpoint attemptLoop (remaining : nat) (attempt : Z) (urlString filePath : string)
    (w : World) (result : DownloadResult) : DownloadResult * list Effect :=
  match remaining with
  | O => (withError MaxRetriesExceeded (MaxRetries defaultRetryConfig) result, [])
  | S rest =>
      let backoff :=
        if 0 <? attempt
        then [Sleep (calculateBackoffDelay platform (attempt - 1) defaultRetryConfig
                                            (sample w attempt))]
        else [] in
      match outcome w attempt with
      | GetFails err =>
          let result := withError (RequestFailed (message err)) attempt result in
          if isRetryableError (Some err) && (attempt <? MaxRetries defaultRetryConfig)
          then
            let '(final, later) := attemptLoop rest (attempt + 1) urlString filePath w result in
            (final, backoff ++ HTTPGet urlString :: later)
          else (result, backoff ++ [HTTPGet urlString])
      | Responds status createErr copyErr =>
          if negb (status =? 200) then
            let result := withError (HTTPStatus status) attempt result in
            if isRetryableHTTPStatus status && (attempt <? MaxRetries defaultRetryConfig)
            then
              let '(final, later) := attemptLoop rest (attempt + 1) urlString filePath w result in
              (final, backoff ++ HTTPGet urlString :: later)
            else (result, backoff ++ [HTTPGet urlString])
          else
            match createErr with
            | Some err =>
                (withError (CreateFailed err) attempt result,
                 backoff ++ [HTTPGet urlString; CreateFile filePath false])
            | None =>
                match copyErr with
                | Some err =>
                    (withError (WriteFailed err) attempt result,
                     backoff ++ [HTTPGet urlString; CreateFile filePath true;
                                 CopyBody filePath false; RemoveFile filePath])
                | None =>
                    (withSuccess filePath attempt result,
                     backoff ++ [HTTPGet urlString; CreateFile filePath true;
                                 CopyBody filePath true])
                end
            end
      end
  end.

(** The file name [downloadFile] derives from the URL path. *)
Definition destinationName (path : string) : string :=
  let filename := lastPathPart path in
  if String.eqb filename "" then "unknown_file" else filename.

(** [downloadFile(urlString, downloadDir, existingFileMap)]: the result and
    the effects performed. *)
Definition downloadFile (urlString downloadDir : string)
    (existingFileMap : gmap string bool) (w : World) : DownloadResult * list Effect :=
  let result := {| URL := urlString; Success := false; Error := None;
                   FilePath := ""; Retries := 0 |} in
  match url_Parse urlString with
  | inl err =>
      ({| URL := urlString; Success := false; Error := Some (InvalidURL err);
          FilePath := ""; Retries := 0 |}, [])
  | inr path =>
      let filename := destinationName path in
      let filePath := filepath_Join downloadDir filename in
      if mapGet existingFileMap filename
      then (withSuccess filePath 0 result, [])
      else attemptLoop (Z.to_nat (MaxRetries defaultRetryConfig + 1)) 0
                       urlString filePath w result
  end.

(** One task of [downloadFiles]: the goroutine sleeps 100ms, then calls
    [downloadFile]. *)
Definition downloadTask (downloadDir : string) (existingFileMap : gmap string bool)
    (w : World) (urlString : string) : DownloadResult * list Effect :=
  let '(result, trace) := downloadFile urlString downloadDir existingFileMap w in
  (result, Sleep (Some (100 * Millisecond)) :: trace).

(** [downloadFiles]: the slot [results[index]] of every task, paired with
    the effects of that task.  [worlds index] is the environment task
    [index] runs in; [concurrency] bounds how many tasks run at once and
    has no part in what a task computes. *)
Definition downloadFiles (urls : list string) (downloadDir : string) (concurrency : Z)
    (existingFileMap : gmap string bool) (worlds : nat -> World)
    : list (DownloadResult * list Effect) :=
  imap (fun index urlString =>
          downloadTask downloadDir existingFileMap (worlds index) urlString) urls.

End Download.

(** ** Salvaging a damaged archive ([robustDecompress]) *)

Inductive ReadStatus :=
| ReadOk                      (* err == nil *)
| ReadEOF                     (* err == io.EOF *)
| ReadFails (cause : string). (* any other error *)

(** One pass of the copy loop as the environment determines it: the bytes
    [gzipReader.Read] delivers, the error it returns with them, and the
    result of writing these bytes to the output file. *)
Record ReadStep := {
  chunk : list Byte.byte;
  readStatus : ReadStatus;
  writeErr : error
}.

(** The environment of one [robustDecompress] call.  A reader with no
    step left reports [io.EOF]. *)
Record GzipInput := {
  openErr : error;
  headerErr : error;
  mkdirErr : error;
  createOutErr : error;
  reads : list ReadStep
}.

Inductive DecompressError :=
| OpenFailed (cause : string)          (* "failed to open file: %v" *)
| GzipReaderFailed (cause : string)    (* "failed to create gzip reader: %v" *)
| MkdirFailed (cause : string)         (* "failed to create output directory: %v" *)
| CreateOutputFailed (cause : string)  (* "failed to create output file: %v" *)
| WriteOutputFailed (cause : string)   (* "failed to write to output: %v" *)
| ReadGzipFailed (cause : string).     (* "error reading gzip: %v" *)

(** What a call leaves behind: the returned error ([None] is [nil]) and
    the content of the output file ([None] when it was never created).
    The function never removes the output file. *)
Record Decompressed := {
  returned : option DecompressError;
  outputFile : option (list Byte.byte)
}.

(** The [for] loop of [robustDecompress]; [written] is the content of the
    output file and [totalBytes] the counter of the same name. *)
Fixpoint readLoop (steps : list ReadStep) (written : list Byte.byte) (totalBytes : Z)
    : Decompressed :=
  match steps with
  | [] => {| returned := None; outputFile := Some written |}
  | step :: rest =>
      let n := Z.of_nat (length (chunk step)) in
      let failedWrite := if 0 <? n then writeErr step else None in
      match failedWrite with
      | Some cause =>
          {| returned := Some (WriteOutputFailed cause); outputFile := Some written |}
      | None =>
          let written := if 0 <? n then written ++ chunk step else written in
          let totalBytes := if 0 <? n then totalBytes + n else totalBytes in
          match readStatus step with
          | ReadEOF => {| returned := None; outputFile := Some written |}
          | ReadFails cause =>
              if 0 <? totalBytes
              then {| returned := None; outputFile := Some written |}
              else {| returned := Some (ReadGzipFailed cause); outputFile := Some written |}
          | ReadOk => readLoop rest written totalBytes
          end
      end
  end.

(** [robustDecompress(gzipFile)]. *)
Definition robustDecompress (input : GzipInput) : Decompressed :=
  match openErr input with
  | Some cause => {| returned := Some (OpenFailed cause); outputFile := None |}
  | None =>
  match headerErr input with
  | Some cause => {| returned := Some (GzipReaderFailed cause); outputFile := None |}
  | None =>
  match mkdirErr input with
  | Some cause => {| returned := Some (MkdirFailed cause); outputFile := None |}
  | None =>
  match createOutErr input with
  | Some cause => {| returned := Some (CreateOutputFailed cause); outputFile := None |}
  | None => readLoop (reads input) [] 0
  end end end end.

(** A pass that reads without error and whose bytes, if any, are written. *)
Definition cleanStep (step : ReadStep) : Prop :=
  readStatus step = ReadOk /\ (chunk step = [] \/ writeErr step = None).

(** ** Scanning one file for billing codes *)

#[local] Set Warnings "-register-all".

(** A decoded JSON value ([interface{}] as [encoding/json] fills it).  An
    object lists its members in the order in which [range] visits them,
    one entry per key. *)
Inductive JSON :=
| JNull
| JBool (b : bool)
| JNumber (literal : string)
| JString (s : string)
| JArray (items : list JSON)
| JObject (members : list (string * JSON)).

(** A [map[string]interface{}]. *)
Definition record := list (string * JSON).

Fixpoint member (v : record) (key : string) : option JSON :=
  match v with
  | [] => None
  | (k, x) :: rest => if String.eqb k key then Some x else member rest key
  end.

Definition targetCodes : gmap string bool :=
  <[ "99283" := true ]> (<[ "99284" := true ]> (<[ "99285" := true ]>
    (<[ "99291" := true ]> ∅))).

(** The test [code, ok := v["billing_code"].(string); ok && targetCodes[code]]. *)
Definition isMatch (v : record) : bool :=
  match member v "billing_code" with
  | Some (JString code) => mapGet targetCodes code
  | _ => false
  end.

(** The closure [search] of [findMatchingObjectsRecursive], returning the
    matches it appends, in order. *)
Fixpoint search (d : JSON) : list record :=
  match d with
  | JObject v =>
      (if isMatch v then [v] else []) ++ flat_map (fun kv => search (snd kv)) v
  | JArray v => flat_map search v
  | _ => []
  end.

Definition findMatchingObjectsRecursive (data : JSON) : list record := search data.

(** The output sink behind a [json.Encoder]: the records encoded so far,
    and how many more writes succeed ([None]: all of them). *)
Record Sink := {
  emitted : list record;
  room : option nat
}.

(** [encoder.Encode(record)]: the new sink, or the write error. *)
Definition Encode (out : Sink) (v : record) : string + Sink :=
  match room out with
  | Some O => inl "write failed"
  | Some (S k) => inr {| emitted := emitted out ++ [v]; room := Some k |}
  | None => inr {| emitted := emitted out ++ [v]; room := None |}
  end.

(** The decoded side of an input file: [leading] is what the search for
    the first non-blank byte finds (a read error, the end of the file, or
    the byte); [openToken] is the error of [decoder.Token()], if any.

    [decodes] lists the results of the [decoder.Decode(&record)] calls
    that read a whole value: the record, or the error of a value that is
    not an object.  Such a value is consumed and the decoder stays usable.

    [defect] is how the input ends after these values.  [None]: it ends as
    JSON should, so that [decoder.More()] turns false in an array and
    [Decode] reports [io.EOF] at the top level.  [Some (cause, more)]: the
    next value cannot be read, because of a syntax error or because the
    input breaks off.  [Decode] then returns [cause] without consuming
    anything and keeps the error: every later call returns it again.
    [decoder.More()] does not look at that error but at the next byte
    only; [more] is its answer from then on. *)
Record JSONStream := {
  leading : string + option ascii;
  openToken : error;
  decodes : list (string + record);
  defect : option (string * bool)
}.

Inductive ScanError :=
| ReadError (cause : string)            (* an error returned as it is *)
| OpeningBracket (cause : string)       (* "failed to read opening ..." *)
| DecodeRecord (cause : string)         (* "failed to decode record: %v" *)
| DecodeRoot (cause : string)           (* "failed to decode root object: %w" *)
| WriteMatch (cause : string)           (* "failed to write ..." *)
| NotJSON (first : ascii)               (* "... (starts with %c)" *)
| PeekFailed (cause : string)           (* "failed to peek first byte: %v" *)
| GzipProcessor (cause : string)        (* "failed to create gzip processor: %v" *)
| JSONDisabled                          (* "JSON file processing is disabled ..." *)
| FlushFailed (cause : string).         (* "failed to flush writer: %v" *)

(** The outcome of scanning one file: the returned count and error, the
    sink afterwards, and the warnings printed. *)
Record Scanned := {
  count : Z;
  scanErr : option ScanError;
  sink : Sink;
  warnings : list string
}.

(** Writing a list of matches, as the loops over [matches] and
    [nestedMatches] do. *)
Fixpoint encodeAll (matches : list record) (n : Z) (out : Sink) : Z * error * Sink :=
  match matches with
  | [] => (n, None, out)
  | m :: rest =>
      match Encode out m with
      | inl cause => (n, Some cause, out)
      | inr out' => encodeAll rest (n + 1) out'
      end
  end.

(** *** The plain-JSON scanner ([pipeline/billingCode.go]) *)

(** The [for decoder.More()] loop of [processFileAndWriteMatches].  A
    failed [Decode] is answered by a warning and [continue], whatever the
    error; [fuel] bounds the number of passes, and [None] says that the
    loop has not returned within them. *)
Fixpoint arrayLoop (fuel : nat) (ds : list (string + record))
    (defect : option (string * bool)) (n : Z) (out : Sink) (warned : list string)
    : option Scanned :=
  match fuel with
  | O => None
  | S fuel =>
      match ds with
      | [] =>
          match defect with
          | None => Some {| count := n; scanErr := None; sink := out; warnings := warned |}
          | Some (cause, more) =>
              if more then arrayLoop fuel [] defect n out (warned ++ [cause])
              else Some {| count := n; scanErr := None; sink := out;
                           warnings := warned ++ [cause] |}
          end
      | inl cause :: rest => arrayLoop fuel rest defect n out (warned ++ [cause])
      | inr v :: rest =>
          if isMatch v then
            match Encode out v with
            | inl cause =>
                Some {| count := n; scanErr := Some (WriteMatch cause); sink := out;
                        warnings := warned |}
            | inr out' => arrayLoop fuel rest defect (n + 1) out' warned
            end
          else arrayLoop fuel rest defect n out warned
      end
  end.

(** What the loop returns on an input without defect, by recursion on the
    elements; [arrayLoop_returns] shows that it does. *)
Fixpoint arrayScan (ds : list (string + record)) (n : Z) (out : Sink)
    (warned : list string) : Scanned :=
  match ds with
  | [] => {| count := n; scanErr := None; sink := out; warnings := warned |}
  | inl cause :: rest => arrayScan rest n out (warned ++ [cause])
  | inr v :: rest =>
      if isMatch v then
        match Encode out v with
        | inl cause =>
            {| count := n; scanErr := Some (WriteMatch cause); sink := out;
               warnings := warned |}
        | inr out' => arrayScan rest (n + 1) out' warned
        end
      else arrayScan rest n out warned
  end.

(** [processFileAndWriteMatches(filePath, writer)]; [opened] is the result
    of [os.Open] and [fuel] the bound on the passes of the array loop. *)
Definition processFileAndWriteMatches (fuel : nat) (opened : string + JSONStream)
    (writer : Sink) : option Scanned :=
  let stop n e := Some {| count := n; scanErr := e; sink := writer; warnings := [] |} in
  match opened with
  | inl cause => stop 0 (Some (ReadError cause))
  | inr file =>
      match leading file with
      | inl cause => stop 0 (Some (ReadError cause))
      | inr None => stop 0 None
      | inr (Some firstChar) =>
          if Ascii.eqb firstChar "["%char then
            match openToken file with
            | Some cause => stop 0 (Some (OpeningBracket cause))
            | None => arrayLoop fuel (decodes file) (defect file) 0 writer []
            end
          else if Ascii.eqb firstChar "{"%char then
            match decodes file with
            | [] =>
                match defect file with
                | Some (cause, _) => stop 0 (Some (DecodeRoot cause))
                | None => stop 0 (Some (DecodeRoot "EOF"))
                end
            | inl cause :: _ => stop 0 (Some (DecodeRoot cause))
            | inr data :: _ =>
                let '(n, e, out) :=
                  encodeAll (findMatchingObjectsRecursive (JObject data)) 0 writer in
                Some {| count := n; scanErr := option_map WriteMatch e; sink := out;
                        warnings := [] |}
            end
          else stop 0 (Some (NotJSON firstChar))
      end
  end.

(** *** The gzip streaming scanner ([StreamingGzipProcessor]) *)

(** The loop of [processArray]: a failed [Decode] returns at once. *)
Fixpoint sgpArrayLoop (ds : list (string + record)) (defect : option (string * bool))
    (matchCount : Z) (out : Sink) : Scanned :=
  match ds with
  | [] =>
      match defect with
      | None => {| count := matchCount; scanErr := None; sink := out; warnings := [] |}
      | Some (cause, _) =>
          {| count := matchCount; scanErr := Some (DecodeRecord cause); sink := out;
             warnings := [] |}
      end
  | inl cause :: _ =>
      {| count := matchCount; scanErr := Some (DecodeRecord cause); sink := out;
         warnings := [] |}
  | inr v :: rest =>
      if isMatch v then
        match Encode out v with
        | inl cause =>
            {| count := matchCount; scanErr := Some (WriteMatch cause); sink := out;
               warnings := [] |}
        | inr out' => sgpArrayLoop rest defect (matchCount + 1) out'
        end
      else sgpArrayLoop rest defect matchCount out
  end.

(** [processArray(writer)]. *)
Definition processArray (file : JSONStream) (writer : Sink) : Scanned :=
  match openToken file with
  | Some cause =>
      {| count := 0; scanErr := Some (OpeningBracket cause); sink := writer;
         warnings := [] |}
  | None => sgpArrayLoop (decodes file) (defect file) 0 writer
  end.

(** [processObjects(writer)]: the loop ends where [Decode] reports
    [io.EOF], and returns at any other error. *)
Fixpoint processObjectsLoop (ds : list (string + record)) (defect : option (string * bool))
    (matchCount : Z) (out : Sink) : Scanned :=
  match ds with
  | [] =>
      match defect with
      | None => {| count := matchCount; scanErr := None; sink := out; warnings := [] |}
      | Some (cause, _) =>
          {| count := matchCount; scanErr := Some (DecodeRecord cause); sink := out;
             warnings := [] |}
      end
  | inl cause :: _ =>
      {| count := matchCount; scanErr := Some (DecodeRecord cause); sink := out;
         warnings := [] |}
  | inr v :: rest =>
      if isMatch v then
        match Encode out v with
        | inl cause =>
            {| count := matchCount; scanErr := Some (WriteMatch cause); sink := out;
               warnings := [] |}
        | inr out' => processObjectsLoop rest defect (matchCount + 1) out'
        end
      else
        match encodeAll (findMatchingObjectsRecursive (JObject v)) matchCount out with
        | (n, Some cause, out') =>
            {| count := n; scanErr := Some (WriteMatch cause); sink := out';
               warnings := [] |}
        | (n, None, out') => processObjectsLoop rest defect n out'
        end
  end.

Definition processObjects (file : JSONStream) (writer : Sink) : Scanned :=
  processObjectsLoop (decodes file) (defect file) 0 writer.

(** [ProcessMatches(writer)]. *)
Definition ProcessMatches (file : JSONStream) (writer : Sink) : Scanned :=
  let stop e := {| count := 0; scanErr := Some e; sink := writer; warnings := [] |} in
  match leading file with
  | inl cause => stop (PeekFailed cause)
  | inr None => stop (PeekFailed "EOF")
  | inr (Some firstByte) =>
      if Ascii.eqb firstByte "["%char then processArray file writer
      else if Ascii.eqb firstByte "{"%char then processObjects file writer
      else stop (NotJSON firstByte)
  end.

(** A [Decode] call that delivered a record. *)
Definition decoded (d : string + record) : bool :=
  match d with inr _ => true | inl _ => false end.

(** The causes of the failed [Decode] calls, in order. *)
Definition failures (ds : list (string + record)) : list string :=
  flat_map (fun d => match d with inl cause => [cause] | inr _ => [] end) ds.

(** The records of the [Decode] calls that delivered one, in order. *)
Definition delivered (ds : list (string + record)) : list record :=
  flat_map (fun d => match d with inl _ => [] | inr v => [v] end) ds.

(** An input whose first non-blank byte is [[], read without trouble up
    to its elements, and without defect. *)
Definition arrayStream (ds : list (string + record)) : JSONStream :=
  {| leading := inr (Some "["%char); openToken := None; decodes := ds; defect := None |}.

(** An input whose first non-blank byte is [{], without defect. *)
Definition objectStream (ds : list (string + record)) : JSONStream :=
  {| leading := inr (Some "{"%char); openToken := None; decodes := ds; defect := None |}.

(** The same input, broken after its values. *)
Definition withDefect (file : JSONStream) (cause : string) (more : bool) : JSONStream :=
  {| leading := leading file; openToken := openToken file; decodes := decodes file;
     defect := Some (cause, more) |}.

(** How a scan of the gzip scanner ends, given the end of the input. *)
Definition endOf (defect : option (string * bool)) : option ScanError :=
  match defect with
  | None => None
  | Some (cause, _) => Some (DecodeRecord cause)
  end.

(** ** The scan run: candidates, collected results and the ledger *)

(** [strings.HasSuffix(s, suffix)]. *)
Definition HasSuffix (s suffix : string) : bool :=
  let n := String.length s in
  let m := String.length suffix in
  (m <=? n)%nat && String.eqb (substring (n - m) m s) suffix.

(** A Go string holds bytes.  [json.Encoder] copies a string where it is
    valid UTF-8 and writes the replacement character U+FFFD for every
    byte that belongs to no valid encoding; [json.Decoder] gives back
    what was written.  [byteBetween], [runeWidth] and [jsonString] follow
    [utf8.DecodeRuneInString] and the loop of the encoder over a
    string. *)
Definition byteBetween (lo hi : N) (c : ascii) : bool :=
  ((lo <=? N_of_ascii c) && (N_of_ascii c <=? hi))%N.

(** The width of the encoding at the head of [s], and 0 when [s] is
    empty or its first byte starts no valid encoding. *)
Definition runeWidth (s : string) : nat :=
  match s with
  | EmptyString => 0%nat
  | String b0 rest =>
      let second (lo hi : N) :=
        match rest with String b1 _ => byteBetween lo hi b1 | _ => false end in
      let third :=
        match rest with String _ (String b2 _) => byteBetween 128 191 b2 | _ => false end in
      let fourth :=
        match rest with
        | String _ (String _ (String b3 _)) => byteBetween 128 191 b3
        | _ => false
        end in
      (if byteBetween 0 127 b0 then 1
       else if byteBetween 194 223 b0 then (if second 128%N 191%N then 2 else 0)
       else if byteBetween 224 224 b0 then (if second 160%N 191%N && third then 3 else 0)
       else if byteBetween 225 236 b0 || byteBetween 238 239 b0
            then (if second 128%N 191%N && third then 3 else 0)
       else if byteBetween 237 237 b0 then (if second 128%N 159%N && third then 3 else 0)
       else if byteBetween 240 240 b0
            then (if second 144%N 191%N && third && fourth then 4 else 0)
       else if byteBetween 241 243 b0
            then (if second 128%N 191%N && third && fourth then 4 else 0)
       else if byteBetween 244 244 b0
            then (if second 128%N 143%N && third && fourth then 4 else 0)
       else 0)%nat
  end.

(** U+FFFD in UTF-8: the bytes EF BF BD. *)
Definition replacementChar : string :=
  String (ascii_of_N 239) (String (ascii_of_N 191) (String (ascii_of_N 189) EmptyString)).

(** [inside] is the number of bytes still to copy of the encoding that
    is being copied. *)
Fixpoint jsonStringFrom (inside : nat) (s : string) : string :=
  match s with
  | EmptyString => EmptyString
  | String b rest =>
      match inside with
      | S k => String b (jsonStringFrom k rest)
      | O =>
          match runeWidth s with
          | O => replacementChar +:+ jsonStringFrom 0 rest
          | S k => String b (jsonStringFrom k rest)
          end
      end
  end.

(** What a string has become when it is read back from a file written by
    [json.Encoder]. *)
Definition jsonString (s : string) : string := jsonStringFrom 0 s.

(** The ledger file [processed_files.json] as a run finds it. *)
Inductive LedgerFile :=
| Missing                          (* no file, or one that holds no value *)
| Unreadable (cause : string)      (* it cannot be opened or decoded *)
| Listed (fileList : list string). (* a JSON array of names, as [Decode] returns them *)

(** [loadProcessedFiles]. *)
Definition loadProcessedFiles (stored : LedgerFile) : string + gmap string bool :=
  match stored with
  | Missing => inr ∅
  | Unreadable cause => inl cause
  | Listed fileList => inr (fold_left (fun files f => <[ f := true ]> files) fileList ∅)
  end.

(** [saveProcessedFiles]: the returned error and the ledger file
    afterwards.  [createErr] is the error of [os.Create], which leaves the
    file as it was when it fails and empties it otherwise.  [encodeErr] is
    the failure of [encoder.Encode], if any: its error, and what remains
    of the emptied file after the failed write (nothing, or a beginning
    of the list).  The keys are written in the order of [map_to_list]; Go
    leaves the order of [range] over a map open. *)
Definition saveProcessedFiles (files : gmap string bool) (createErr : error)
    (encodeErr : option (string * LedgerFile)) (stored : LedgerFile) : error * LedgerFile :=
  match createErr with
  | Some cause => (Some cause, stored)
  | None =>
      match encodeErr with
      | Some (cause, remains) => (Some cause, remains)
      | None => (None, Listed (jsonString <$> (map_to_list files).*1))
      end
  end.

(** The names a ledger file holds. *)
Definition ledgerNames (stored : LedgerFile) : list string :=
  match stored with Listed fileList => fileList | _ => [] end.

(** The [result] a worker sends back. *)
Record result := {
  fileName : string;
  recordsFound : Z;
  err : option ScanError
}.

(** The result a worker builds from what the scan of the file returned. *)
Definition workerResult (scanOf : string -> Z * option ScanError) (f : string) : result :=
  {| fileName := f; recordsFound := fst (scanOf f); err := snd (scanOf f) |}.

(** The directory scan that fills [filesToProcess].  A job is named by
    the entry name: it is what [filepath.Base] gives back for the path
    [filepath.Join(dir, fileName)] that the program sends. *)
Definition candidates (suffix : string) (entries : list DirEntry)
    (processedFiles : gmap string bool) : list string :=
  Name <$> List.filter (fun file =>
                         negb (IsDir file) && HasSuffix (ToLower (Name file)) suffix
                         && negb (mapGet processedFiles (Name file))) entries.

(** The loop of [main] that collects one result per job. *)
Fixpoint collectResults (received : list result) (processedFiles : gmap string bool)
    (totalNewRecords filesProcessed : Z) : gmap string bool * Z * Z :=
  match received with
  | [] => (processedFiles, totalNewRecords, filesProcessed)
  | res :: rest =>
      let filesProcessed := filesProcessed + 1 in
      match err res with
      | Some _ => collectResults rest processedFiles totalNewRecords filesProcessed
      | None =>
          let totalNewRecords :=
            if 0 <? recordsFound res then totalNewRecords + recordsFound res
            else totalNewRecords in
          collectResults rest (<[ fileName res := true ]> processedFiles)
                         totalNewRecords filesProcessed
      end
  end.

(** Whether some received result reports a scan of [f] without error. *)
Definition succeeded (received : list result) (f : string) : bool :=
  existsb (fun res => String.eqb (fileName res) f &&
                      match err res with None => true | Some _ => false end) received.

(** How a run of [main] ends. *)
Record RunEnd := {
  processedFiles : gmap string bool;
  ledger : LedgerFile;
  totalNewRecords : Z;
  filesProcessed : Z
}.

(** The part of [main] after the ledger is loaded and the directory read.
    [pool] stands for the worker pool: the results [main] receives, in the
    order of arrival, for the jobs it sent. *)
Definition runScan (suffix : string) (stored : LedgerFile) (loaded : gmap string bool)
    (entries : list DirEntry) (pool : list string -> list result) (createErr : error)
    (encodeErr : option (string * LedgerFile)) : RunEnd :=
  let filesToProcess := candidates suffix entries loaded in
  match filesToProcess with
  | [] => {| processedFiles := loaded; ledger := stored;
             totalNewRecords := 0; filesProcessed := 0 |}
  | _ =>
      let '(files, total, done) := collectResults (pool filesToProcess) loaded 0 0 in
      {| processedFiles := files;
         ledger := snd (saveProcessedFiles files createErr encodeErr stored);
         totalNewRecords := total; filesProcessed := done |}
  end.

(** The rest of [main] once the ledger is loaded and the directory read.
    [openOut] is the error of [os.OpenFile] on the output file, which is
    opened only when there is a file to process; [main] panics on it
    ([inl]). *)
Definition scanOrPanic (suffix : string) (stored : LedgerFile) (loaded : gmap string bool)
    (entries : list DirEntry) (openOut : error) (pool : list string -> list result)
    (createErr : error) (encodeErr : option (string * LedgerFile)) : string + RunEnd :=
  match candidates suffix entries loaded, openOut with
  | _ :: _, Some cause => inl cause
  | _, _ => inr (runScan suffix stored loaded entries pool createErr encodeErr)
  end.

(** [main] of [pipeline/billingCode.go]: it panics when the directory or
    the ledger cannot be read ([inl]). *)
Definition mainJSON (listing : string + list DirEntry) (stored : LedgerFile)
    (openOut : error) (pool : list string -> list result) (createErr : error)
    (encodeErr : option (string * LedgerFile)) : string + RunEnd :=
  match listing with
  | inl cause => inl cause
  | inr entries =>
      match loadProcessedFiles stored with
      | inl cause => inl cause
      | inr loaded => scanOrPanic ".json" stored loaded entries openOut pool createErr encodeErr
      end
  end.

(** [main] of the gzip scanner: an unreadable directory is reported and
    leaves no file to process. *)
Definition mainGzip (listing : string + list DirEntry) (stored : LedgerFile)
    (openOut : error) (pool : list string -> list result) (createErr : error)
    (encodeErr : option (string * LedgerFile)) : string + RunEnd :=
  match loadProcessedFiles stored with
  | inl cause => inl cause
  | inr loaded =>
      let entries := match listing with inl _ => [] | inr entries => entries end in
      scanOrPanic ".gz" stored loaded entries openOut pool createErr encodeErr
  end.

(** ** The worker pool and the shared writer *)

(** Where a worker stands in the body of its [for filePath := range jobs]
    loop. *)
Inductive WorkerState :=
| Idle                                        (* waiting on the jobs channel *)
| Claimed (f : string)                        (* before [writerMutex.Lock()] *)
| Scanning (f : string) (todo : list record)  (* lock held, scan in progress *)
| Flushed (f : string)                        (* after [writer.Flush()], lock held *)
| Reporting (f : string).                     (* after [writerMutex.Unlock()] *)

(** The shared state of a scan run: the files [main] has still to send,
    the jobs channel, the holder of the mutex, the workers, the buffer of
    the [bufio.Writer], the output file (each record tagged with the file
    it was found in) and the results channel. *)
Record PoolState := {
  unsent : list string;
  jobs : list string;
  writerMutex : option nat;
  workers : list WorkerState;
  buffered : list (string * record);
  output : list (string * record);
  results : list string
}.

(** The states in which a worker holds [writerMutex]. *)
Definition holdsLock (s : WorkerState) : bool :=
  match s with Scanning _ _ | Flushed _ => true | _ => false end.

(** The file a worker has taken from the channel and not yet finished
    writing. *)
Definition owned (s : WorkerState) : list string :=
  match s with Claimed f | Scanning f _ => [f] | _ => [] end.

Definition inflight (ws : list WorkerState) : list string := flat_map owned ws.

Definition initPool (filesToProcess : list string) (numWorkers : nat) : PoolState :=
  {| unsent := filesToProcess; jobs := []; writerMutex := None;
     workers := replicate numWorkers Idle; buffered := []; output := [];
     results := [] |}.

Section Pool.

(** The records a scan of the file encodes, in order. *)
Variable writes : string -> list record.

(** One step of one goroutine.  The plain-JSON pool writes straight to
    the file: there every [step_write] is followed by [step_spill]. *)
Inductive poolStep : PoolState -> PoolState -> Prop :=
| step_send f us js m ws b o rs :
    poolStep
      {| unsent := f :: us; jobs := js; writerMutex := m; workers := ws;
         buffered := b; output := o; results := rs |}
      {| unsent := us; jobs := js ++ [f]; writerMutex := m; workers := ws;
         buffered := b; output := o; results := rs |}
| step_claim i f us js m ws b o rs :
    ws !! i = Some Idle ->
    poolStep
      {| unsent := us; jobs := f :: js; writerMutex := m; workers := ws;
         buffered := b; output := o; results := rs |}
      {| unsent := us; jobs := js; writerMutex := m; workers := <[ i := Claimed f ]> ws;
         buffered := b; output := o; results := rs |}
| step_lock i f us js ws b o rs :
    ws !! i = Some (Claimed f) ->
    poolStep
      {| unsent := us; jobs := js; writerMutex := None; workers := ws;
         buffered := b; output := o; results := rs |}
      {| unsent := us; jobs := js; writerMutex := Some i;
         workers := <[ i := Scanning f (writes f) ]> ws;
         buffered := b; output := o; results := rs |}
| step_write i f r todo us js m ws b o rs :
    ws !! i = Some (Scanning f (r :: todo)) ->
    poolStep
      {| unsent := us; jobs := js; writerMutex := m; workers := ws;
         buffered := b; output := o; results := rs |}
      {| unsent := us; jobs := js; writerMutex := m;
         workers := <[ i := Scanning f todo ]> ws;
         buffered := b ++ [(f, r)]; output := o; results := rs |}
| step_spill i f todo us js m ws b o rs :
    ws !! i = Some (Scanning f todo) ->
    poolStep
      {| unsent := us; jobs := js; writerMutex := m; workers := ws;
         buffered := b; output := o; results := rs |}
      {| unsent := us; jobs := js; writerMutex := m; workers := ws;
         buffered := []; output := o ++ b; results := rs |}
| step_flush i f us js m ws b o rs :
    ws !! i = Some (Scanning f []) ->
    poolStep
      {| unsent := us; jobs := js; writerMutex := m; workers := ws;
         buffered := b; output := o; results := rs |}
      {| unsent := us; jobs := js; writerMutex := m; workers := <[ i := Flushed f ]> ws;
         buffered := []; output := o ++ b; results := rs |}
| step_unlock i f us js m ws b o rs :
    ws !! i = Some (Flushed f) ->
    poolStep
      {| unsent := us; jobs := js; writerMutex := m; workers := ws;
         buffered := b; output := o; results := rs |}
      {| unsent := us; jobs := js; writerMutex := None;
         workers := <[ i := Reporting f ]> ws;
         buffered := b; output := o; results := rs |}
| step_report i f us js m ws b o rs :
    ws !! i = Some (Reporting f) ->
    poolStep
      {| unsent := us; jobs := js; writerMutex := m; workers := ws;
         buffered := b; output := o; results := rs |}
      {| unsent := us; jobs := js; writerMutex := m; workers := <[ i := Idle ]> ws;
         buffered := b; output := o; results := rs ++ [f] |}.

(** The states a run can be in. *)
Definition reachable (filesToProcess : list string) (numWorkers : nat) (st : PoolState) : Prop :=
  rtc poolStep (initPool filesToProcess numWorkers) st.

End Pool.

(** The records of the listed files, one block per file. *)
Definition blocks (bs : list (string * list record)) : list (string * record) :=
  flat_map (fun b => pair (fst b) <$> snd b) bs.

(** The complete blocks of the files in [done]. *)
Definition fullBlocks (writes : string -> list record) (done : list string)
    : list (string * list record) :=
  (fun f => (f, writes f)) <$> done.

(** The invariant of the pool: [done] lists the files whose scan has been
    flushed.  Every file is in exactly one place; a worker that holds the
    lock is the one the mutex names; the output holds the complete blocks
    of [done], followed by the part of the current file already written
    through, the rest of it being in the buffer. *)
Definition poolInv (writes : string -> list record) (files : list string)
    (st : PoolState) (done : list string) : Prop :=
  files ≡ₚ done ++ inflight (workers st) ++ jobs st ++ unsent st /\
  (forall i s, workers st !! i = Some s -> holdsLock s = true -> writerMutex st = Some i) /\
  ((forall i f todo, workers st !! i <> Some (Scanning f todo)) ->
     output st = blocks (fullBlocks writes done) /\ buffered st = []) /\
  (forall i f todo, workers st !! i = Some (Scanning f todo) ->
     exists p1 p2, writes f = p1 ++ p2 ++ todo /\
                   output st = blocks (fullBlocks writes done) ++ (pair f <$> p1) /\
                   buffered st = pair f <$> p2).

(** An output in which each file's records form one block. *)
Definition contiguous (out : list (string * record)) : Prop :=
  exists bs, NoDup (bs.*1) /\ out = blocks bs.

(** No record of another file stands between two records of one file. *)
Definition noInterleaving (out : list (string * record)) : Prop :=
  forall (i j k : nat) f g ri rj rk,
    (i < j < k)%nat ->
    out !! i = Some (f, ri) -> out !! j = Some (g, rj) -> out !! k = Some (f, rk) ->
    g = f.

(** ** Further definitions for the downloader *)

(** The error a failed pass stores in the result. *)
Definition failureError (o : AttemptOutcome) : DownloadError :=
  match o with
  | GetFails err => RequestFailed (message err)
  | Responds status _ _ => HTTPStatus status
  end.

(** A pass that fails in a way the loop does not retry. *)
Definition permanentFailure (o : AttemptOutcome) : bool :=
  match o with
  | GetFails err => negb (isRetryableError (Some err))
  | Responds status _ _ => negb (status =? 200) && negb (isRetryableHTTPStatus status)
  end.

Definition isSleep (e : Effect) : bool :=
  match e with Sleep _ => true | _ => false end.

(** [countExistingFiles]: [listing] is the result of [os.ReadDir]. *)
Definition countExistingFiles (listing : option (list DirEntry)) : Z :=
  match listing with
  | None => 0
  | Some files =>
      fold_left (fun count file => if negb (IsDir file) then count + 1 else count) files 0
  end.

(** ** Further definitions for the scanners *)

(** [occursIn d x]: the value [d] is [x] or lies somewhere inside it. *)
Inductive occursIn (d : JSON) : JSON -> Prop :=
| occurs_here : occursIn d d
| occurs_member v k x : In (k, x) v -> occursIn d x -> occursIn d (JObject v)
| occurs_item items x : In x items -> occursIn d x -> occursIn d (JArray items).

(** The loop of [findMatchingObjectsStructured] over the top-level
    records, with [matches] as the slice being appended to. *)
Fixpoint structuredLoop (records : list JSON) (matches : list record) : list record :=
  match records with
  | [] => matches
  | JObject recordMap :: rest =>
      if isMatch recordMap then structuredLoop rest (matches ++ [recordMap])
      else structuredLoop rest matches
  | _ :: rest => structuredLoop rest matches
  end.

(** [findMatchingObjectsStructured] ([pipeline/billingCode.go]). *)
Definition findMatchingObjectsStructured (data : JSON) : list record :=
  match data with
  | JArray records => structuredLoop records []
  | _ => findMatchingObjectsRecursive data
  end.

(** What the gzip scanner writes for one decoded object: the object when
    it matches, the matches nested in it otherwise. *)
Definition objectMatches (v : record) : list record :=
  if isMatch v then [v] else findMatchingObjectsRecursive (JObject v).

(** [appended before after added]: the sink [after] is the sink [before]
    with the records [added] written at its end, and its room is smaller
    by their number. *)
Definition appended (before after : Sink) (added : list record) : Prop :=
  emitted after = emitted before ++ added /\
  match room before with
  | Some k => (length added <= k)%nat /\ room after = Some (k - length added)%nat
  | None => room after = None
  end.

(** ** Further definitions for the scan run *)

(** What one result adds to [totalNewRecords]. *)
Definition newRecords (res : result) : Z :=
  match err res with
  | Some _ => 0
  | None => if 0 <? recordsFound res then recordsFound res else 0
  end.

(** Whether the scan of [f] returned an error. *)
Definition scanFailed (scanOf : string -> Z * option ScanError) (f : string) : bool :=
  match snd (scanOf f) with Some _ => true | None => false end.

(** ** The loop of the repair tool's [main] *)

(** What happens to one archive: whether [simpleDecompress] succeeds,
    whether [robustDecompress] does (it is tried only after a failure of
    the former), and whether [isValidJSON] accepts the output. *)
Record FileOutcome := {
  simpleOk : bool;
  robustOk : bool;
  validJSON : bool
}.

(** The body of the loop over the archives, on the three counters
    [successCount], [errorCount] and [partialCount]. *)
Definition repairStep (counters : Z * Z * Z) (file : FileOutcome) : Z * Z * Z :=
  let '(successCount, errorCount, partialCount) := counters in
  if simpleOk file then
    let successCount := successCount + 1 in
    if validJSON file then (successCount, errorCount, partialCount)
    else ((if 0 <? successCount then successCount - 1 else successCount),
          errorCount, partialCount + 1)
  else if robustOk file then
    let partialCount := partialCount + 1 in
    if validJSON file then (successCount, errorCount, partialCount)
    else ((if 0 <? successCount then successCount - 1 else successCount),
          errorCount, partialCount + 1)
  else (successCount, errorCount + 1, partialCount).

Definition repairLoop (files : list FileOutcome) : Z * Z * Z :=
  fold_left repairStep files (0, 0, 0).

Definition bothFailed (file : FileOutcome) : bool :=
  negb (simpleOk file) && negb (robustOk file).

Definition completeAndValid (file : FileOutcome) : bool :=
  simpleOk file && validJSON file.

(** An archive salvaged by [robustDecompress] whose output is not valid
    JSON. *)
Definition salvagedInvalid (file : FileOutcome) : bool :=
  negb (simpleOk file) && robustOk file && negb (validJSON file).

(** ** Further definitions for the worker pool *)

(** The file a worker is busy with, from the moment it takes it from the
    jobs channel to the moment it has sent the result. *)
Definition holding (s : WorkerState) : list string :=
  match s with
  | Idle => []
  | Claimed f | Scanning f _ | Flushed f | Reporting f => [f]
  end.

(** A run that has nothing left to do. *)
Definition finished (st : PoolState) : Prop :=
  unsent st = [] /\ jobs st = [] /\ Forall (fun s => s = Idle) (workers st).

(** Every file is in exactly one place: reported, with a worker, in the
    jobs channel or not yet sent. *)
Definition accounted (files : list string) (st : PoolState) : Prop :=
  files ≡ₚ results st ++ flat_map holding (workers st) ++ jobs st ++ unsent st.

(** The pool has its [numWorkers] workers, and the mutex is held by a
    worker that is between [Lock] and [Unlock]. *)
Definition lockOwned (numWorkers : nat) (st : PoolState) : Prop :=
  length (workers st) = numWorkers /\
  forall i, writerMutex st = Some i ->
            exists s, workers st !! i = Some s /\ holdsLock s = true.

(** ** The JSON URL scraper (second program of [jsonformatter/json.go]) *)

Module JSONScraper.

(** [URLInfo]. *)
Record URLInfo := {
  URL : string;
  Description : string;
  PlanID : string;
  PlanName : string
}.

(** The test [s, ok := v[key].(string)]. *)
Definition stringMember (v : record) (key : string) : option string :=
  match member v key with
  | Some (JString s) => Some s
  | _ => None
  end.

(** [extractURLsRecursive], returning the entries it appends to [*urls],
    in order. *)
Fixpoint extractURLsRecursive (data : JSON) (planID planName : string) : list URLInfo :=
  match data with
  | JObject v =>
      let found :=
        match stringMember v "location" with
        | Some location =>
            if isURL location then
              [ {| URL := location;
                   Description := default "" (stringMember v "description");
                   PlanID := planID; PlanName := planName |} ]
            else []
        | None => []
        end in
      let planID :=
        if String.eqb planID "" then default planID (stringMember v "plan_id")
        else planID in
      let planName :=
        if String.eqb planName "" then default planName (stringMember v "plan_name")
        else planName in
      found ++ flat_map (fun kv => extractURLsRecursive (snd kv) planID planName) v
  | JArray v => flat_map (fun item => extractURLsRecursive item planID planName) v
  | _ => []
  end.

(** [extractURLs]. *)
Definition extractURLs (data : JSON) : list URLInfo :=
  extractURLsRecursive data "" "".

(** The name under which [downloadFile] of this program stores a file:
    [filename] is the name derived from the URL path. *)
Definition descriptiveName (urlInfo : URLInfo) (filename : string) : string :=
  let descriptiveName := filename in
  let descriptiveName :=
    if negb (String.eqb (PlanID urlInfo) "") then PlanID urlInfo +:+ "_" +:+ filename
    else descriptiveName in
  if negb (String.eqb (PlanName urlInfo) "") then
    let cleanPlanName := ReplaceAll (PlanName urlInfo) " " "_" in
    let cleanPlanName := ReplaceAll cleanPlanName "/" "_" in
    let cleanPlanName := ReplaceAll cleanPlanName "\" "_" in
    cleanPlanName +:+ "_" +:+ filename
  else descriptiveName.

End JSONScraper.

(* ===================================================================== *)
(** * Part II. Facts about the model                                       *)
(* ===================================================================== *)

(** ** Strings *)

Lemma HasPrefix_app (s p : string) :
  HasPrefix s p = true <-> exists rest, s = p +:+ rest.
Proof.
  unfold HasPrefix. revert s.
  induction p as [|c p IH]; intros s; simpl.
  - split; [intros _; exists s; reflexivity | intros _; destruct s; reflexivity].
  - destruct s as [|d s]; simpl.
    + split; [discriminate | intros [rest H]; discriminate].
    + destruct (ascii_dec c d) as [->|Hne].
      * rewrite IH. split; intros [rest H]; exists rest.
        -- now rewrite H.
        -- now injection H.
      * split; [discriminate | intros [rest H]; injection H; congruence].
Qed.

Lemma Contains_app (s substr : string) :
  Contains s substr = true <-> exists before after, s = before +:+ substr +:+ after.
Proof.
  induction s as [|c s IH]; cbn [Contains].
  - rewrite HasPrefix_app. split.
    + intros [rest H]. exists EmptyString, rest. exact H.
    + intros [before [after H]]. destruct before; [|discriminate].
      exists after. exact H.
  - rewrite orb_true_iff, HasPrefix_app, IH. split.
    + intros [[rest H] | [before [after H]]].
      * exists EmptyString, rest. exact H.
      * exists (String c before), after. simpl. now rewrite H.
    + intros [before [after H]]. destruct before as [|d before]; simpl in H.
      * left. exists after. exact H.
      * right. injection H as _ H. exists before, after. exact H.
Qed.

(** ** Retry classification *)

(** C9: [isRetryableHTTPStatus] answers [true] for 429, 500, 502, 503 and
    504 and for no other status code. *)
Theorem isRetryableHTTPStatus_exact (statusCode : Z) :
  isRetryableHTTPStatus statusCode = true <->
  statusCode = 429 \/ statusCode = 500 \/ statusCode = 502 \/
  statusCode = 503 \/ statusCode = 504.
Proof.
  unfold isRetryableHTTPStatus, retryableStatusCodes. simpl.
  rewrite !orb_true_iff, !Z.eqb_eq. intuition discriminate.
Qed.

(** C3, as the code has it: [isRetryableError] answers [true] exactly for
    the non-nil errors whose lower-cased message contains one of the six
    phrases somewhere; the condition the error reports plays no part. *)
Theorem isRetryableError_substring (err : option GoError) :
  isRetryableError err = true <->
  exists e phrase before after,
    err = Some e /\ In phrase retryableErrors /\
    ToLower (message e) = before +:+ phrase +:+ after.
Proof.
  destruct err as [e|]; unfold isRetryableError.
  - rewrite existsb_exists. split.
    + intros [phrase [Hin Hc]]. apply Contains_app in Hc as [before [after H]].
      exists e, phrase, before, after. auto.
    + intros (e' & phrase & before & after & He & Hin & H).
      injection He as <-. exists phrase. split; [exact Hin|].
      apply Contains_app. eauto.
  - split; [discriminate|]. intros (e & ? & ? & ? & He & _). discriminate.
Qed.

(** C3 as stated fails: a certificate error, which reports none of the
    transient conditions, is retried because the URL in its message
    holds the word timeout. *)
Lemma isRetryableError_not_by_category :
  let e := {| kind := OtherKind;
              message := "Get https://example.com/timeout.json: x509: certificate has expired" |} in
  isRetryableError (Some e) = true /\ isRetryableTransportError_spec (Some e) = false.
Proof. split; reflexivity. Qed.

(** ** The URL list *)

Lemma scanLines_acc (lines urls : list string) :
  scanLines lines urls = urls ++ (fixUnicodeEscapes <$> List.filter acceptedLine lines).
Proof.
  revert urls. induction lines as [|line rest IH]; intros urls; simpl.
  - now rewrite app_nil_r.
  - unfold acceptedLine.
    destruct (negb (String.eqb line "") && negb (HasPrefix line "#")); simpl.
    + destruct (isURL (fixUnicodeEscapes line)); simpl.
      * rewrite IH, <- app_assoc. reflexivity.
      * apply IH.
    + apply IH.
Qed.

(** C10, as the code has it: when the file opens and is read to its end,
    [loadURLsFromFile] returns, in input order, the cleaned form (escapes
    replaced) of exactly the accepted lines; the other lines are dropped
    and no error is reported for them. *)
Theorem loadURLsFromFile_cleaned (file : ScannedFile) :
  scannerErr file = None ->
  loadURLsFromFile (inr file) =
  inr (fixUnicodeEscapes <$> List.filter acceptedLine (scannedLines file)).
Proof.
  intros Herr. unfold loadURLsFromFile. rewrite Herr, scanLines_acc. reflexivity.
Qed.

Lemma loadURLsFromFile_cleaned_witness :
  loadURLsFromFile
    (inr {| scannedLines := ["# mirrors"; ""; "https://example.com/a?x=1"; "notes"];
            scannerErr := None |}) =
  inr ["https://example.com/a?x=1"].
Proof.
  exact (loadURLsFromFile_cleaned
           {| scannedLines := ["# mirrors"; ""; "https://example.com/a?x=1"; "notes"];
              scannerErr := None |} eq_refl).
Defined.

(** C10 as stated fails: the list returned is not the list of accepted
    lines, since a line with an escape comes back rewritten. *)
Lemma loadURLsFromFile_not_the_lines :
  let file := {| scannedLines := ["http://example.com/a\u0026b"]; scannerErr := None |} in
  loadURLsFromFile (inr file) = inr ["http://example.com/a&b"] /\
  loadURLsFromFile (inr file) <> inr (List.filter acceptedLine (scannedLines file)).
Proof. split; [reflexivity | discriminate]. Qed.

(** ** Backoff delays *)

Lemma pow2_pos (z : Z) : (0 < 2 ^ z)%Q.
Proof. apply Qpower_0_lt. reflexivity. Qed.

Lemma pow2_add (a b : Z) : (2 ^ (a + b) == 2 ^ a * 2 ^ b)%Q.
Proof. apply Qpower_plus. discriminate. Qed.

Lemma pow2_le (a b : Z) : a <= b -> (2 ^ a <= 2 ^ b)%Q.
Proof. intros H. apply Qpower_le_compat_l; [exact H | discriminate]. Qed.

Lemma pow2_lt (a b : Z) : a < b -> (2 ^ a < 2 ^ b)%Q.
Proof. intros H. apply Qpower_lt_compat_l; [exact H | reflexivity]. Qed.

Lemma pow2_lt_inv (a b : Z) : (2 ^ a < 2 ^ b)%Q -> a < b.
Proof. intros H. apply (Qpower_lt_compat_l_inv 2); [exact H | reflexivity]. Qed.

Lemma pow2_succ (a : Z) : (2 ^ (a + 1) == 2 * 2 ^ a)%Q.
Proof. rewrite pow2_add. change (2 ^ 1)%Q with 2%Q. ring. Qed.

Lemma pow2_Z (a : Z) : 0 <= a -> (inject_Z (2 ^ a) == 2 ^ a)%Q.
Proof. intros H. apply (Zpower_Qpower 2 a H). Qed.

Lemma ilog2_spec (q : Q) :
  (0 < q)%Q -> (2 ^ ilog2 q <= q)%Q /\ (q < 2 ^ (ilog2 q + 1))%Q.
Proof.
  intros Hq. destruct q as [n d]. unfold ilog2. cbn [Qnum Qden].
  assert (Hn : 0 < n) by (unfold Qlt in Hq; cbn in Hq; lia).
  set (a := Z.log2 n). set (b := Z.log2 (Z.pos d)).
  destruct (Z.log2_spec n Hn) as [Ha1 Ha2]. fold a in Ha1, Ha2.
  destruct (Z.log2_spec (Z.pos d) ltac:(lia)) as [Hb1 Hb2]. fold b in Hb1, Hb2.
  assert (Ha0 : 0 <= a) by apply Z.log2_nonneg.
  assert (Hb0 : 0 <= b) by apply Z.log2_nonneg.
  assert (HA : (2 ^ a <= inject_Z n)%Q /\ (inject_Z n < 2 * 2 ^ a)%Q).
  { rewrite <- pow2_Z by lia. split.
    - rewrite <- Zle_Qle. exact Ha1.
    - change 2%Q with (inject_Z 2) at 1. rewrite <- inject_Z_mult, <- Zlt_Qlt.
      replace (2 * 2 ^ a) with (2 ^ Z.succ a) by (rewrite Z.pow_succ_r; lia). exact Ha2. }
  assert (HB : (2 ^ b <= inject_Z (Z.pos d))%Q /\ (inject_Z (Z.pos d) < 2 * 2 ^ b)%Q).
  { rewrite <- pow2_Z by lia. split.
    - rewrite <- Zle_Qle. exact Hb1.
    - change 2%Q with (inject_Z 2) at 1. rewrite <- inject_Z_mult, <- Zlt_Qlt.
      replace (2 * 2 ^ b) with (2 ^ Z.succ b) by (rewrite Z.pow_succ_r; lia). exact Hb2. }
  assert (Hq' : ((n # d) * inject_Z (Z.pos d) == inject_Z n)%Q).
  { unfold Qeq, Qmult, inject_Z. cbn. rewrite Pos.mul_1_r. ring. }
  pose proof (pow2_pos a) as HpA. pose proof (pow2_pos b) as HpB.
  pose proof (pow2_pos (a - b)) as HpK.
  assert (HK : (2 ^ (a - b) * 2 ^ b == 2 ^ a)%Q).
  { rewrite <- pow2_add. replace (a - b + b) with a by lia. reflexivity. }
  revert HA HB Hq' HpA HpB HpK HK Hq.
  generalize (2 ^ a)%Q (2 ^ b)%Q (inject_Z n) (inject_Z (Z.pos d)) (n # d).
  intros A B N D q [HA1 HA2] [HB1 HB2] Hq' HpA HpB HpK HK Hq.
  destruct (Qle_bool (2 ^ (a - b)) q) eqn:Hc.
  - apply Qle_bool_iff in Hc. split; [exact Hc|].
    rewrite pow2_succ. revert Hc HpK HK. generalize (2 ^ (a - b))%Q. intros K Hc HpK HK.
    nra.
  - assert (Hlt : (q < 2 ^ (a - b))%Q).
    { apply Qnot_le_lt. intros H. apply Qle_bool_iff in H. congruence. }
    replace (a - b - 1 + 1) with (a - b) by lia. split; [|exact Hlt].
    assert (HK' : (2 ^ (a - b) == 2 * 2 ^ (a - b - 1))%Q).
    { rewrite <- pow2_succ. replace (a - b - 1 + 1) with (a - b) by lia. reflexivity. }
    pose proof (pow2_pos (a - b - 1)) as HpK'.
    revert Hlt HpK HK HK' HpK'. generalize (2 ^ (a - b))%Q (2 ^ (a - b - 1))%Q.
    intros K K' Hlt HpK HK HK' HpK'. nra.
Qed.

Lemma ilog2_ge (q : Q) (k : Z) : (0 < q)%Q -> (2 ^ k <= q)%Q -> k <= ilog2 q.
Proof.
  intros Hq Hk. destruct (ilog2_spec q Hq) as [_ Hhi].
  assert (H : k < ilog2 q + 1) by (apply pow2_lt_inv; eapply Qle_lt_trans; eauto).
  lia.
Qed.

Lemma ilog2_lt (q : Q) (k : Z) : (0 < q)%Q -> (q < 2 ^ k)%Q -> ilog2 q < k.
Proof.
  intros Hq Hk. destruct (ilog2_spec q Hq) as [Hlo _].
  apply pow2_lt_inv. eapply Qle_lt_trans; eauto.
Qed.

Lemma ilog2_mono (p q : Q) : (0 < p)%Q -> (p <= q)%Q -> ilog2 p <= ilog2 q.
Proof.
  intros Hp Hpq. apply ilog2_ge; [lra|].
  destruct (ilog2_spec p Hp) as [Hlo _]. lra.
Qed.

Lemma ulpExp_mono (p q : Q) : (0 < p)%Q -> (p <= q)%Q -> ulpExp p <= ulpExp q.
Proof. intros Hp Hpq. unfold ulpExp. pose proof (ilog2_mono p q Hp Hpq). lia. Qed.

(** Rounding to the nearest integer, ties to even. *)
Lemma roundHalfEven_floor (x : Q) :
  roundHalfEven x = Qfloor x \/ roundHalfEven x = Qfloor x + 1.
Proof.
  unfold roundHalfEven. destruct (Qcompare _ _); [destruct (Z.even _)| |]; auto.
Qed.

Lemma roundHalfEven_mono (x y : Q) : (x <= y)%Q -> roundHalfEven x <= roundHalfEven y.
Proof.
  intros Hxy. pose proof (Qfloor_resp_le x y Hxy) as Hf.
  destruct (Z.eq_dec (Qfloor x) (Qfloor y)) as [He|Hne].
  - unfold roundHalfEven. rewrite <- He.
    destruct (Qcompare_spec (x - inject_Z (Qfloor x)) (1 # 2)) as [Hx|Hx|Hx];
      destruct (Qcompare_spec (y - inject_Z (Qfloor x)) (1 # 2)) as [Hy|Hy|Hy];
      try lia; try lra; destruct (Z.even (Qfloor x)); lia.
  - destruct (roundHalfEven_floor x) as [-> | ->];
      destruct (roundHalfEven_floor y) as [-> | ->]; lia.
Qed.

Lemma roundHalfEven_Z (z : Z) : roundHalfEven (inject_Z z) = z.
Proof.
  unfold roundHalfEven. rewrite Qfloor_Z.
  destruct (Qcompare_spec (inject_Z z - inject_Z z) (1 # 2)) as [H|H|H]; [lra | reflexivity | lra].
Qed.

Lemma roundHalfEven_comp (x y : Q) : (x == y)%Q -> roundHalfEven x = roundHalfEven y.
Proof.
  intros H. apply Z.le_antisymm; apply roundHalfEven_mono; lra.
Qed.

Lemma roundHalfEven_le (x : Q) (z : Z) : (x <= inject_Z z)%Q -> roundHalfEven x <= z.
Proof. intros H. rewrite <- (roundHalfEven_Z z). now apply roundHalfEven_mono. Qed.

Lemma roundHalfEven_ge (x : Q) (z : Z) : (inject_Z z <= x)%Q -> z <= roundHalfEven x.
Proof. intros H. rewrite <- (roundHalfEven_Z z). now apply roundHalfEven_mono. Qed.

(** The rounded magnitude stays in the closed binade of its argument. *)
Lemma roundAbs_bounds (a : Q) :
  (0 < a)%Q ->
  (0 <= roundAbs a)%Q /\
  (roundAbs a <= 2 ^ (ulpExp a + 53))%Q /\
  (-1074 < ulpExp a -> (2 ^ (ulpExp a + 52) <= roundAbs a)%Q).
Proof.
  intros Ha. unfold roundAbs. set (e := ulpExp a).
  pose proof (pow2_pos e) as Hu.
  destruct (ilog2_spec a Ha) as [Hlo Hhi].
  assert (He : ilog2 a - 52 <= e) by (unfold e, ulpExp; lia).
  assert (Hdiv : (0 <= a / 2 ^ e)%Q).
  { apply Qle_shift_div_l; [exact Hu | lra]. }
  assert (Hn0 : 0 <= roundHalfEven (a / 2 ^ e)).
  { apply roundHalfEven_ge. exact Hdiv. }
  assert (Hn1 : roundHalfEven (a / 2 ^ e) <= 2 ^ 53).
  { apply roundHalfEven_le. rewrite (pow2_Z 53) by lia.
    apply Qle_shift_div_r; [exact Hu|]. rewrite <- pow2_add.
    apply Qlt_le_weak. eapply Qlt_le_trans; [exact Hhi|]. apply pow2_le. lia. }
  split; [|split].
  - apply Qmult_le_0_compat; [|lra]. change 0%Q with (inject_Z 0). now rewrite <- Zle_Qle.
  - rewrite Z.add_comm, pow2_add. apply Qmult_le_compat_r; [|lra].
    rewrite <- (pow2_Z 53) by lia. now rewrite <- Zle_Qle.
  - intros Hnorm. assert (He' : e = ilog2 a - 52) by (unfold e, ulpExp in *; lia).
    rewrite Z.add_comm, pow2_add. apply Qmult_le_compat_r; [|lra].
    rewrite <- (pow2_Z 52) by lia. rewrite <- Zle_Qle. apply roundHalfEven_ge.
    rewrite (pow2_Z 52) by lia. apply Qle_shift_div_l; [exact Hu|]. rewrite <- pow2_add.
    eapply Qle_trans; [|exact Hlo]. apply pow2_le. lia.
Qed.

Lemma roundAbs_mono (a b : Q) : (0 < a)%Q -> (a <= b)%Q -> (roundAbs a <= roundAbs b)%Q.
Proof.
  intros Ha Hab. assert (Hb : (0 < b)%Q) by lra.
  pose proof (ulpExp_mono a b Ha Hab) as He.
  destruct (Z.eq_dec (ulpExp a) (ulpExp b)) as [Heq|Hne].
  - unfold roundAbs. rewrite Heq. pose proof (pow2_pos (ulpExp b)) as Hu.
    apply Qmult_le_compat_r; [|lra]. rewrite <- Zle_Qle. apply roundHalfEven_mono.
    apply Qmult_le_compat_r; [exact Hab|]. apply Qlt_le_weak, Qinv_lt_0_compat, Hu.
  - destruct (roundAbs_bounds a Ha) as (_ & Hhi & _).
    destruct (roundAbs_bounds b Hb) as (_ & _ & Hlo).
    assert (Hnorm : -1074 < ulpExp b) by (unfold ulpExp in *; lia).
    eapply Qle_trans; [exact Hhi|]. eapply Qle_trans; [|exact (Hlo Hnorm)].
    apply pow2_le. lia.
Qed.

Lemma roundAbs_mantissa (a : Q) :
  (0 < a)%Q -> 0 <= roundHalfEven (a / 2 ^ ulpExp a) <= 2 ^ 53.
Proof.
  intros Ha. set (e := ulpExp a).
  pose proof (pow2_pos e) as Hu.
  destruct (ilog2_spec a Ha) as [Hlo Hhi].
  assert (He : ilog2 a - 52 <= e) by (unfold e, ulpExp; lia).
  split.
  - apply roundHalfEven_ge. change (inject_Z 0) with 0%Q.
    apply Qle_shift_div_l; [exact Hu | lra].
  - apply roundHalfEven_le. rewrite (pow2_Z 53) by lia.
    apply Qle_shift_div_r; [exact Hu|]. rewrite <- pow2_add.
    apply Qlt_le_weak. eapply Qlt_le_trans; [exact Hhi|]. apply pow2_le. lia.
Qed.

(** A number [n * 2^e] with at most 53 bits in [n] and [e] within the
    exponent range is not changed by rounding. *)
Lemma roundAbs_exact (a : Q) (n e : Z) :
  0 < n <= 2 ^ 53 -> -1074 <= e -> (a == inject_Z n * 2 ^ e)%Q -> (roundAbs a == a)%Q.
Proof.
  intros [Hn0 Hn1] He Ha.
  pose proof (pow2_pos e) as Hue.
  assert (HnQ : (0 < inject_Z n)%Q) by (change 0%Q with (inject_Z 0); now rewrite <- Zlt_Qlt).
  assert (Hpos : (0 < a)%Q) by (rewrite Ha; apply Qmult_lt_0_compat; assumption).
  assert (Hint : exists z, (a / 2 ^ ulpExp a == inject_Z z)%Q).
  { destruct (Z_le_gt_dec (ulpExp a) e) as [Hle|Hgt].
    - remember (ulpExp a) as e' eqn:He'. clear He'. exists (n * 2 ^ (e - e')).
      rewrite inject_Z_mult, (pow2_Z (e - e')) by lia.
      replace e with ((e - e') + e') in Ha at 1 by lia.
      rewrite pow2_add in Ha. rewrite Ha. field.
      apply Qnot_eq_sym, Qlt_not_eq, pow2_pos.
    - assert (Hexp : ulpExp a = ilog2 a - 52) by (unfold ulpExp in *; lia).
      destruct (ilog2_spec a Hpos) as [Hlo Hhi].
      assert (Hbig : (2 ^ (e + 53) <= a)%Q).
      { eapply Qle_trans; [|exact Hlo]. apply pow2_le. lia. }
      assert (Hn : n = 2 ^ 53).
      { apply Z.le_antisymm; [exact Hn1|]. rewrite Zle_Qle, (pow2_Z 53) by lia.
        rewrite Ha, Z.add_comm, pow2_add in Hbig.
        apply (Qmult_le_r _ _ (2 ^ e)); [exact Hue | exact Hbig]. }
      assert (Ha' : (a == 2 ^ (e + 53))%Q).
      { rewrite Ha, Hn, (pow2_Z 53), Z.add_comm, pow2_add by lia. ring. }
      assert (Hlog : ilog2 a = e + 53).
      { apply Z.le_antisymm.
        - assert (ilog2 a < e + 54); [|lia]. apply ilog2_lt; [exact Hpos|].
          rewrite Ha'. apply pow2_lt. lia.
        - apply ilog2_ge; [exact Hpos | exact Hbig]. }
      exists (2 ^ 52). rewrite (pow2_Z 52) by lia. rewrite Hexp, Hlog, Ha'.
      replace (e + 53) with (52 + (e + 53 - 52)) at 1 by lia. rewrite pow2_add. field.
      apply Qnot_eq_sym, Qlt_not_eq, pow2_pos. }
  destruct Hint as [z Hz]. unfold roundAbs.
  rewrite (roundHalfEven_comp _ _ Hz), roundHalfEven_Z, <- Hz. field.
  apply Qnot_eq_sym, Qlt_not_eq, pow2_pos.
Qed.

Lemma roundAbs_idem (a : Q) :
  (0 < a)%Q -> (0 < roundAbs a)%Q -> (roundAbs (roundAbs a) == roundAbs a)%Q.
Proof.
  intros Ha Hr. pose proof (roundAbs_mantissa a Ha) as [Hn0 Hn1].
  apply (roundAbs_exact _ (roundHalfEven (a / 2 ^ ulpExp a)) (ulpExp a)).
  - split; [|exact Hn1]. unfold roundAbs in Hr.
    destruct (Z.eq_dec (roundHalfEven (a / 2 ^ ulpExp a)) 0) as [H0|H0]; [|lia].
    rewrite H0 in Hr. change (inject_Z 0) with 0%Q in Hr. lra.
  - unfold ulpExp. lia.
  - reflexivity.
Qed.

Lemma RN_cases (q : Q) :
  ((q == 0)%Q /\ RN q = Fin 0) \/
  ((0 < q)%Q /\ ((2 ^ 1024 <= roundAbs q)%Q /\ RN q = Inf false \/
                 (roundAbs q < 2 ^ 1024)%Q /\ RN q = Fin (roundAbs q))) \/
  ((q < 0)%Q /\ ((2 ^ 1024 <= roundAbs (- q))%Q /\ RN q = Inf true \/
                 (roundAbs (- q) < 2 ^ 1024)%Q /\ RN q = Fin (- roundAbs (- q)))).
Proof.
  unfold RN. destruct (Qcompare_spec q 0) as [H|H|H].
  - left. split; [exact H | reflexivity].
  - right. right. split; [exact H|]. cbn zeta.
    destruct (Qle_bool (2 ^ 1024) (roundAbs (- q))) eqn:Hc.
    + apply Qle_bool_iff in Hc. auto.
    + right. split; [|reflexivity]. apply Qnot_le_lt. intros Hle.
      apply Qle_bool_iff in Hle. congruence.
  - right. left. split; [exact H|]. cbn zeta.
    destruct (Qle_bool (2 ^ 1024) (roundAbs q)) eqn:Hc.
    + apply Qle_bool_iff in Hc. auto.
    + right. split; [|reflexivity]. apply Qnot_le_lt. intros Hle.
      apply Qle_bool_iff in Hle. congruence.
Qed.

(** Rounding is monotone. *)
Lemma RN_mono (p q : Q) : (p <= q)%Q -> fle (RN p) (RN q).
Proof.
  intros Hpq.
  destruct (RN_cases p) as [[Hp ->] | [[Hp [[Hop ->] | [Hfp ->]]] | [Hp [[Hop ->] | [Hfp ->]]]]];
    destruct (RN_cases q) as [[Hq ->] | [[Hq [[Hoq ->] | [Hfq ->]]] | [Hq [[Hoq ->] | [Hfq ->]]]]];
    cbn [fle]; try exact I; try lra;
    try (pose proof (roundAbs_bounds p ltac:(lra)) as [Hbp _]);
    try (pose proof (roundAbs_bounds (- p) ltac:(lra)) as [Hbp _]);
    try (pose proof (roundAbs_bounds q ltac:(lra)) as [Hbq _]);
    try (pose proof (roundAbs_bounds (- q) ltac:(lra)) as [Hbq _]);
    try (pose proof (roundAbs_mono p q ltac:(lra) ltac:(lra)));
    try (pose proof (roundAbs_mono (- q) (- p) ltac:(lra) ltac:(lra)));
    try lra.
Qed.

(** What rounding returns is a [float64]: rounding does not change it. *)
Lemma RN_idem (q r : Q) : RN q = Fin r -> exists r', RN r = Fin r' /\ (r' == r)%Q.
Proof.
  intros Hq.
  destruct (RN_cases q) as [[Hz H] | [[Hpos [[_ H] | [Hlt H]]] | [Hneg [[_ H] | [Hlt H]]]]];
    rewrite H in Hq; try discriminate; injection Hq as <-.
  - exists 0%Q. split; reflexivity.
  - pose proof (roundAbs_bounds q Hpos) as [H0 _].
    destruct (RN_cases (roundAbs q))
      as [[Hz' H'] | [[Hp' [[Ho' H'] | [Hf' H']]] | [Hn' _]]]; [| | |lra].
    + exists 0%Q. split; [exact H' | lra].
    + rewrite (roundAbs_idem q Hpos Hp') in Ho'. lra.
    + exists (roundAbs (roundAbs q)). split; [exact H' | now apply roundAbs_idem].
  - pose proof (roundAbs_bounds (- q) ltac:(lra)) as [H0 _].
    assert (Hpos : (0 < - q)%Q) by lra.
    destruct (RN_cases (- roundAbs (- q)))
      as [[Hz' H'] | [[Hp' _] | [Hn' [[Ho' H'] | [Hf' H']]]]]; [|lra| |].
    + exists 0%Q. split; [exact H' | lra].
    + assert (Hr : (0 < roundAbs (- q))%Q) by lra.
      pose proof (roundAbs_mantissa (- q) Hpos) as [Hn0 Hn1].
      assert (He : (roundAbs (- - roundAbs (- q)) == roundAbs (- q))%Q).
      { rewrite (roundAbs_exact (- - roundAbs (- q))
                   (roundHalfEven (- q / 2 ^ ulpExp (- q))) (ulpExp (- q))).
        - ring.
        - split; [|exact Hn1]. unfold roundAbs in Hr.
          destruct (Z.eq_dec (roundHalfEven (- q / 2 ^ ulpExp (- q))) 0) as [E|E]; [|lia].
          rewrite E in Hr. change (inject_Z 0) with 0%Q in Hr. lra.
        - unfold ulpExp. lia.
        - unfold roundAbs. ring. }
      rewrite He in Ho'. lra.
    + assert (Hr : (0 < roundAbs (- q))%Q) by lra.
      pose proof (roundAbs_mantissa (- q) Hpos) as [Hn0 Hn1].
      assert (He : (roundAbs (- - roundAbs (- q)) == roundAbs (- q))%Q).
      { rewrite (roundAbs_exact (- - roundAbs (- q))
                   (roundHalfEven (- q / 2 ^ ulpExp (- q))) (ulpExp (- q))).
        - ring.
        - split; [|exact Hn1]. unfold roundAbs in Hr.
          destruct (Z.eq_dec (roundHalfEven (- q / 2 ^ ulpExp (- q))) 0) as [E|E]; [|lia].
          rewrite E in Hr. change (inject_Z 0) with 0%Q in Hr. lra.
        - unfold ulpExp. lia.
        - unfold roundAbs. ring. }
      exists (- roundAbs (- - roundAbs (- q)))%Q. split; [exact H' | now rewrite He].
Qed.

Lemma roundAbs_comp (a b : Q) : (0 < a)%Q -> (a == b)%Q -> (roundAbs a == roundAbs b)%Q.
Proof.
  intros Ha Hab. apply Qle_antisym; apply roundAbs_mono; lra.
Qed.


Lemma RN_between (lo q hi l h : Q) :
  (lo <= q)%Q -> (q <= hi)%Q -> RN lo = Fin l -> RN hi = Fin h ->
  exists x, RN q = Fin x /\ (l <= x)%Q /\ (x <= h)%Q.
Proof.
  intros Hlo Hhi Hl Hh.
  pose proof (RN_mono lo q Hlo) as H1. pose proof (RN_mono q hi Hhi) as H2.
  rewrite Hl in H1. rewrite Hh in H2.
  destruct (RN q) as [|[|]|x]; cbn [fle] in H1, H2; try contradiction.
  exists x. auto.
Qed.

Lemma RN_comp (p q a : Q) :
  (p == q)%Q -> RN p = Fin a -> exists b, RN q = Fin b /\ (b == a)%Q.
Proof.
  intros Hpq Ha.
  destruct (RN_between p q p a a ltac:(lra) ltac:(lra) Ha Ha) as (b & Hb & H1 & H2).
  exists b. split; [exact Hb | lra].
Qed.

Lemma RN_lower (lo q l : Q) :
  (lo <= q)%Q -> RN lo = Fin l ->
  RN q = Inf false \/ exists x, RN q = Fin x /\ (l <= x)%Q.
Proof.
  intros Hlo Hl. pose proof (RN_mono lo q Hlo) as H1. rewrite Hl in H1.
  destruct (RN q) as [|[|]|x]; cbn [fle] in H1; try contradiction; eauto.
Qed.

Lemma RN_0 : RN 0 = Fin 0.
Proof. reflexivity. Qed.

Lemma RN_opp_fin (q r : Q) :
  RN q = Fin r -> exists r', RN (- q) = Fin r' /\ (r' == - r)%Q.
Proof.
  intros Hq.
  destruct (RN_cases q) as [[Hz H] | [[Hpos [[_ H] | [Hlt H]]] | [Hneg [[_ H] | [Hlt H]]]]];
    rewrite H in Hq; try discriminate; injection Hq as <-.
  - destruct (RN_comp 0 (- q) 0 ltac:(lra) RN_0) as (b & Hb & Hb0).
    exists b. split; [exact Hb | lra].
  - destruct (RN_cases (- q)) as [[Hz' _] | [[Hp' _] | [_ [[Ho' H'] | [Hf' H']]]]];
      [lra | lra | |].
    + rewrite (roundAbs_comp (- - q) q) in Ho' by lra. lra.
    + eexists. split; [exact H'|]. rewrite (roundAbs_comp (- - q) q) by lra. reflexivity.
  - destruct (RN_cases (- q)) as [[Hz' _] | [[_ [[Ho' H'] | [Hf' H']]] | [Hn' _]]];
      [lra | | | lra].
    + lra.
    + eexists. split; [exact H' | ring].
Qed.

(** A [float64] value and its opposite are not changed by rounding. *)
Lemma RN_fixed (q r : Q) :
  RN q = Fin r ->
  (exists r1, RN r = Fin r1 /\ (r1 == r)%Q) /\
  (exists r2, RN (- r) = Fin r2 /\ (r2 == - r)%Q).
Proof.
  intros Hq. split; [exact (RN_idem q r Hq)|].
  destruct (RN_opp_fin q r Hq) as (a & Ha & Har).
  destruct (RN_idem (- q) a Ha) as (b & Hb & Hba).
  destruct (RN_comp a (- r) b Har Hb) as (c & Hc & Hcb).
  exists c. split; [exact Hc | lra].
Qed.

(** Integers: the conversion gives an integer, and the integer itself up
    to [2^53]. *)
Lemma RN_inject_Z (z : Z) (m : Q) :
  RN (inject_Z z) = Fin m ->
  exists M, (m == inject_Z M)%Q /\ (Z.abs z <= 2 ^ 53 -> M = z).
Proof.
  assert (Hpos : forall n, 0 < n -> exists M, (roundAbs (inject_Z n) == inject_Z M)%Q /\
                                       (n <= 2 ^ 53 -> M = n)).
  { intros n Hn. assert (HnQ : (0 < inject_Z n)%Q)
      by (change 0%Q with (inject_Z 0); now rewrite <- Zlt_Qlt).
    destruct (Z_le_gt_dec n (2 ^ 53)) as [Hle|Hgt].
    - exists n. split; [|reflexivity].
      apply (roundAbs_exact _ n 0); [lia | lia |]. change (2 ^ 0)%Q with 1%Q. ring.
    - assert (He : 1 <= ulpExp (inject_Z n)).
      { unfold ulpExp. assert (53 <= ilog2 (inject_Z n)); [|lia].
        apply ilog2_ge; [exact HnQ|]. rewrite <- (pow2_Z 53), <- Zle_Qle by lia. lia. }
      exists (roundHalfEven (inject_Z n / 2 ^ ulpExp (inject_Z n)) * 2 ^ ulpExp (inject_Z n)).
      split; [|lia]. unfold roundAbs.
      rewrite inject_Z_mult, (pow2_Z (ulpExp (inject_Z n))) by lia. reflexivity. }
  intros Hm.
  destruct (RN_cases (inject_Z z))
    as [[Hz H] | [[Hp [[_ H] | [Hlt H]]] | [Hn [[_ H] | [Hlt H]]]]];
    rewrite H in Hm; try discriminate; injection Hm as <-.
  - exists 0. split; [reflexivity|]. intros _.
    unfold Qeq, inject_Z in Hz. cbn in Hz. lia.
  - change 0%Q with (inject_Z 0) in Hp. rewrite <- Zlt_Qlt in Hp.
    destruct (Hpos z Hp) as (M & HM & Hex). exists M. split; [exact HM|]. intros Habs.
    apply Hex. lia.
  - change 0%Q with (inject_Z 0) in Hn. rewrite <- Zlt_Qlt in Hn.
    destruct (Hpos (- z) ltac:(lia)) as (M & HM & Hex). exists (- M). split.
    + rewrite inject_Z_opp, <- HM.
      rewrite (roundAbs_comp (- inject_Z z) (inject_Z (- z))); [reflexivity | |].
      * rewrite <- inject_Z_opp. change 0%Q with (inject_Z 0). rewrite <- Zlt_Qlt. lia.
      * now rewrite inject_Z_opp.
    + intros Habs. rewrite Hex by lia. lia.
Qed.

Lemma truncQ_comp (x y : Q) : (x == y)%Q -> truncQ x = truncQ y.
Proof.
  intros Hxy. unfold truncQ.
  destruct (Qle_bool 0 x) eqn:Hx, (Qle_bool 0 y) eqn:Hy.
  - now rewrite Hxy.
  - apply Qle_bool_iff in Hx. rewrite Hxy in Hx. apply Qle_bool_iff in Hx. congruence.
  - apply Qle_bool_iff in Hy. rewrite <- Hxy in Hy. apply Qle_bool_iff in Hy. congruence.
  - now rewrite Hxy.
Qed.

Lemma truncQ_inject_Z (z : Z) : truncQ (inject_Z z) = z.
Proof.
  unfold truncQ. destruct (Qle_bool 0 (inject_Z z)); [apply Qfloor_Z | apply Qceiling_Z].
Qed.

Lemma truncQ_mono (x y : Q) : (x <= y)%Q -> truncQ x <= truncQ y.
Proof.
  intros Hxy. unfold truncQ.
  destruct (Qle_bool 0 x) eqn:Hx, (Qle_bool 0 y) eqn:Hy.
  - now apply Qfloor_resp_le.
  - apply Qle_bool_iff in Hx. assert (Hy' : (0 <= y)%Q) by (eapply Qle_trans; eauto).
    apply Qle_bool_iff in Hy'. congruence.
  - apply Qle_bool_iff in Hy.
    assert (Hx' : ~ (0 <= x)%Q) by (intros H; apply Qle_bool_iff in H; congruence).
    apply Qnot_le_lt in Hx'.
    transitivity 0.
    + change 0 with (Qceiling 0). apply Qceiling_resp_le. now apply Qlt_le_weak.
    + change 0 with (Qfloor 0). now apply Qfloor_resp_le.
  - now apply Qceiling_resp_le.
Qed.


Lemma Qle_bool_false (p q : Q) : Qle_bool p q = false -> (q < p)%Q.
Proof.
  intros H. apply Qnot_le_lt. intros Hle. apply Qle_bool_iff in Hle. congruence.
Qed.


Lemma fgt_true (x y : float64) : fgt x y = true -> fle y x.
Proof.
  destruct x as [|[|]|p], y as [|[|]|q]; cbn [fgt fle]; try congruence; try (intros; exact I).
  intros H. apply negb_true_iff, Qle_bool_false in H. lra.
Qed.


Lemma pow2_53_small : (inject_Z (2 ^ 53) < 2 ^ 1024)%Q.
Proof. rewrite (pow2_Z 53) by lia. apply pow2_lt. lia. Qed.

(** Integers up to [2^53] in absolute value are [float64] values. *)
Lemma float64_of_int_exact (z : Z) :
  Z.abs z <= 2 ^ 53 -> exists m, float64_of_int z = Fin m /\ (m == inject_Z z)%Q.
Proof.
  intros Hz. unfold float64_of_int. pose proof pow2_53_small as Hsmall.
  destruct (RN_cases (inject_Z z))
    as [[H0 H] | [[Hp [[Ho H] | [Hlt H]]] | [Hn [[Ho H] | [Hlt H]]]]].
  - exists 0%Q. split; [exact H | now symmetry].
  - exfalso. change 0%Q with (inject_Z 0) in Hp. rewrite <- Zlt_Qlt in Hp.
    rewrite (roundAbs_exact (inject_Z z) z 0) in Ho;
      [| lia | lia | change (2 ^ 0)%Q with 1%Q; ring].
    assert ((inject_Z z <= inject_Z (2 ^ 53))%Q) by (rewrite <- Zle_Qle; lia). lra.
  - destruct (RN_inject_Z z _ H) as (M & HM & Hex). eexists. split; [exact H|].
    rewrite HM, (Hex Hz). reflexivity.
  - exfalso. change 0%Q with (inject_Z 0) in Hn. rewrite <- Zlt_Qlt in Hn.
    rewrite (roundAbs_exact (- inject_Z z) (- z) 0) in Ho;
      [| lia | lia | rewrite inject_Z_opp; change (2 ^ 0)%Q with 1%Q; ring].
    assert ((inject_Z (- z) <= inject_Z (2 ^ 53))%Q) by (rewrite <- Zle_Qle; lia).
    rewrite inject_Z_opp in *. lra.
  - destruct (RN_inject_Z z _ H) as (M & HM & Hex). eexists. split; [exact H|].
    rewrite HM, (Hex Hz). reflexivity.
Qed.



(** For a positive attempt the function returns what the conversion makes
    of the capped, perturbed delay. *)
Lemma calculateBackoffDelay_pos (p : Platform) (attempt : Z) (config : RetryConfig)
    (sample : float64) :
  0 < attempt ->
  calculateBackoffDelay p attempt config sample =
  int64_of_float64 (capDelay (MaxDelay config) (perturbedDelay p attempt config sample)).
Proof.
  intros Hpos. unfold calculateBackoffDelay.
  destruct (attempt <=? 0) eqn:Hle; [apply Z.leb_le in Hle; lia | reflexivity].
Qed.


Lemma fmul_Fin_inv (x y : float64) (e : Q) :
  fmul x y = Fin e -> exists a b, x = Fin a /\ y = Fin b /\ RN (a * b) = Fin e.
Proof.
  destruct x as [|s|a], y as [|t|b]; cbn [fmul]; try discriminate.
  - destruct (Qeq_bool b 0); discriminate.
  - destruct (Qeq_bool a 0); discriminate.
  - eauto.
Qed.

(** The factor [2 * sample - 1] lies in [[-1, 1]] for a sample of
    [[0, 1]]. *)
Lemma jitterDraw_range (r : Q) :
  (0 <= r)%Q -> (r <= 1)%Q ->
  exists t, jitterDraw (Fin r) = Fin t /\ (-1 <= t)%Q /\ (t <= 1)%Q.
Proof.
  intros H0 H1. unfold jitterDraw, fsub. cbn [fmul fneg].
  destruct (float64_of_int_exact 2 ltac:(lia)) as (two & Htwo & Htwo').
  destruct (float64_of_int_exact 1 ltac:(lia)) as (one & Hone & Hone').
  destruct (float64_of_int_exact (-1) ltac:(lia)) as (mone & Hmone & Hmone').
  destruct (RN_between 0 (r * 2) (inject_Z 2) 0 two) as (x & Hx & Hx0 & Hx2);
    [lra | change (inject_Z 2) with 2%Q; lra | reflexivity | exact Htwo |].
  rewrite Hx. cbn [fadd].
  destruct (RN_between (inject_Z (-1)) (x + - (1)) (inject_Z 1) mone one) as (t & Ht & Hlo & Hhi);
    [change (inject_Z (-1)) with (-1)%Q; change (inject_Z 2) with 2%Q in *; lra
    | change (inject_Z 1) with 1%Q; change (inject_Z 2) with 2%Q in *; lra
    | exact Hmone | exact Hone |].
  exists t. split; [exact Ht|].
  change (inject_Z (-1)) with (-1)%Q in *. change (inject_Z 1) with 1%Q in *. split; lra.
Qed.

(** The jitter stays within the spread: the perturbed delay lies between
    the [float64] values nearest to [d - s] and [d + s], where [d] is the
    exponential delay and [s = d * jitterFactor] as the program computes
    it. *)
Lemma perturbedDelay_range (p : Platform) (attempt : Z) (config : RetryConfig)
    (d s r : Q) :
  exponentialDelay p attempt config = Fin d ->
  fmul (Fin d) (JitterFactor config) = Fin s -> (0 <= s)%Q ->
  (0 <= r)%Q -> (r <= 1)%Q ->
  fle (RN (d - s)) (perturbedDelay p attempt config (Fin r)) /\
  fle (perturbedDelay p attempt config (Fin r)) (RN (d + s)).
Proof.
  intros Hd Hs Hs0 Hr0 Hr1. unfold perturbedDelay. rewrite Hd, Hs.
  destruct (jitterDraw_range r Hr0 Hr1) as (t & -> & Ht0 & Ht1).
  apply fmul_Fin_inv in Hs as (a & b & _ & _ & Hs).
  destruct (RN_fixed _ _ Hs) as [(s1 & Hs1 & Hs1') (s2 & Hs2 & Hs2')].
  destruct (fusedMultiplyAdd p).
  - cbn [fma]. split; apply RN_mono; nra.
  - cbn [fmul].
    destruct (RN_between (- s) (s * t) s s2 s1) as (j & -> & Hj0 & Hj1);
      [nra | nra | exact Hs2 | exact Hs1 |].
    cbn [fadd]. split; apply RN_mono; lra.
Qed.

Ltac split_ifs :=
  repeat match goal with
         | |- context [if ?b then _ else _] => destruct b
         end.

(** A finite perturbed delay comes from a finite exponential delay. *)
Lemma perturbedDelay_Fin_inv (p : Platform) (attempt : Z) (config : RetryConfig)
    (sample : float64) (c : Q) :
  perturbedDelay p attempt config sample = Fin c ->
  exists e, exponentialDelay p attempt config = Fin e.
Proof.
  unfold perturbedDelay.
  destruct (exponentialDelay p attempt config) as [|s|e]; [| |eauto];
    destruct (JitterFactor config) as [|?|?], (jitterDraw sample) as [|?|?],
             (fusedMultiplyAdd p);
    cbn [fmul fadd fma]; split_ifs; cbn [fmul fadd fma]; split_ifs;
    cbn [fmul fadd fma]; split_ifs; discriminate.
Qed.

Lemma exponentialDelay_Fin_inv (p : Platform) (attempt : Z) (config : RetryConfig) (e : Q) :
  exponentialDelay p attempt config = Fin e ->
  exists i pw,
    float64_of_int (InitialDelay config) = Fin i /\
    math_Pow p (BackoffFactor config) (float64_of_int attempt) = Fin pw /\
    RN (i * pw) = Fin e.
Proof. apply fmul_Fin_inv. Qed.





(** The stand-in for [math.Pow] and the two ways of rounding agree with
    the values a run of the program shows. *)
Lemma float64_examples :
  feq (RN (1 # 10)) (Fin (3602879701896397 # 36028797018963968)) = true /\
  feq (float64_of_int (2 ^ 53 + 3)) (Fin (inject_Z (2 ^ 53 + 4))) = true /\
  feq (roundedPow (RN 2) (float64_of_int 3)) (Fin 8) = true /\
  RN (2 ^ 1024 - 2 ^ 970) = Inf false /\
  fmul (Fin 0) (Inf false) = NaN.
Proof. vm_compute. repeat split. Qed.




(** For a positive attempt whose exponential delay is a finite,
    non-negative [float64], with a maximum delay of at most [2^53]
    nanoseconds, a jitter factor within [[0, 1]] and a sample within
    [[0, 1]], the function returns a delay between 0 and the maximum. *)
Theorem calculateBackoffDelay_nonneg (p : Platform) (attempt : Z) (config : RetryConfig)
    (d jf r : Q) :
  0 < attempt -> 0 <= MaxDelay config <= 2 ^ 53 ->
  exponentialDelay p attempt config = Fin d -> (0 <= d)%Q ->
  JitterFactor config = Fin jf -> (0 <= jf)%Q -> (jf <= 1)%Q ->
  (0 <= r)%Q -> (r <= 1)%Q ->
  exists delay,
    calculateBackoffDelay p attempt config (Fin r) = Some delay /\
    0 <= delay <= MaxDelay config.
Proof.
  intros Ha [Hm0 Hm1] He Hd0 Hjf Hj0 Hj1 Hr0 Hr1.
  rewrite calculateBackoffDelay_pos by exact Ha.
  destruct (exponentialDelay_Fin_inv _ _ _ _ He) as (i & pw & _ & _ & Hrn).
  destruct (RN_fixed _ _ Hrn) as [(d1 & Hd1 & Hd1') _].
  destruct (RN_between 0 (d * jf) d 0 d1 ltac:(nra) ltac:(nra) RN_0 Hd1)
    as (s & Hs & Hs0 & Hs1).
  assert (Hspread : fmul (Fin d) (JitterFactor config) = Fin s) by (rewrite Hjf; exact Hs).
  destruct (perturbedDelay_range p attempt config d s r He Hspread Hs0 Hr0 Hr1) as [Hlo _].
  destruct (float64_of_int_exact (MaxDelay config) ltac:(lia)) as (m & Hm & Hmq).
  assert (Hcap : exists c, capDelay (MaxDelay config) (perturbedDelay p attempt config (Fin r))
                           = Fin c /\ (0 <= c)%Q /\ (c <= m)%Q).
  { assert (Hm_nonneg : (0 <= m)%Q)
      by (rewrite Hmq; change 0%Q with (inject_Z 0); now rewrite <- Zle_Qle).
    unfold capDelay. rewrite Hm.
    destruct (RN_lower 0 (d - s) 0 ltac:(lra) RN_0) as [H | (x & Hx & Hx')];
      rewrite ?H, ?Hx in Hlo;
      destruct (perturbedDelay p attempt config (Fin r)) as [|[|]|y]; cbn [fle] in Hlo;
      try contradiction; cbn [fgt].
    - exists m. split; [reflexivity | split; [exact Hm_nonneg | apply Qle_refl]].
    - exists m. split; [reflexivity | split; [exact Hm_nonneg | apply Qle_refl]].
    - destruct (Qle_bool y m) eqn:Hy; cbn [negb].
      + apply Qle_bool_iff in Hy. exists y. split; [reflexivity | split; lra].
      + exists m. split; [reflexivity | split; [exact Hm_nonneg | apply Qle_refl]]. }
  destruct Hcap as (c & -> & Hc0 & Hc1).
  assert (Hlo' : 0 <= truncQ c) by (change 0 with (truncQ 0); now apply truncQ_mono).
  assert (Hhi' : truncQ c <= MaxDelay config).
  { rewrite <- (truncQ_inject_Z (MaxDelay config)). apply truncQ_mono. lra. }
  exists (truncQ c). split; [|lia]. cbn [int64_of_float64].
  replace (- 2 ^ 63 <=? truncQ c) with true by (symmetry; apply Z.leb_le; lia).
  replace (truncQ c <? 2 ^ 63) with true by (symmetry; apply Z.ltb_lt; lia).
  reflexivity.
Qed.

Lemma calculateBackoffDelay_nonneg_witness :
  exists delay,
    calculateBackoffDelay amd64 3 defaultRetryConfig (Fin (3 # 4)) = Some delay /\
    0 <= delay <= MaxDelay defaultRetryConfig.
Proof.
  eapply (calculateBackoffDelay_nonneg amd64 3 defaultRetryConfig _ _ (3 # 4)).
  - lia.
  - vm_compute. split; discriminate.
  - vm_compute. reflexivity.
  - vm_compute. discriminate.
  - vm_compute. reflexivity.
  - vm_compute. discriminate.
  - vm_compute. discriminate.
  - vm_compute. discriminate.
  - vm_compute. discriminate.
Defined.

(** The rounding, the product and the sum of this model give the values
    of the binary64 arithmetic of the Standard Library ([SpecFloat]) on a
    sample of numbers: small and large ones, ties, subnormal numbers and
    numbers at the overflow threshold. *)
Lemma float64_agrees_with_SpecFloat :
  let b64 m e := binary_normalize 53 1024 m e false in
  let same x y := match x, y with NaN, NaN => true | _, _ => feq x y end in
  let numbers := [(1, 0); (3, -1); (2 ^ 53 + 1, 0); (2 ^ 53 + 3, 0); (- (2 ^ 53 + 3), 0);
                  (2 ^ 54 - 1, 970); (2 ^ 54 - 1, 969); (1, -1075); (3, -1075); (1, -1076);
                  (3602879701896397, -55); (1000000000, 1); (4504376430752223, -53)] in
  forallb (fun '(m, e) =>
             same (RN (inject_Z m * 2 ^ e)) (float64_of_spec (b64 m e))) numbers = true /\
  forallb (fun '(m, e) =>
             forallb (fun '(n, f) =>
                        same (fmul (float64_of_spec (b64 m e)) (float64_of_spec (b64 n f)))
                            (float64_of_spec (SFmul 53 1024 (b64 m e) (b64 n f))) &&
                        same (fadd (float64_of_spec (b64 m e)) (float64_of_spec (b64 n f)))
                            (float64_of_spec (SFadd 53 1024 (b64 m e) (b64 n f))))
                     numbers) numbers = true.
Proof. vm_compute. split; reflexivity. Qed.

(** ** The existing-file index and [downloadFile] *)

Lemma mapGet_insert (m : gmap string bool) (k k' : string) :
  mapGet (<[ k := true ]> m) k' = true <-> k = k' \/ mapGet m k' = true.
Proof.
  unfold mapGet. destruct (decide (k = k')) as [->|Hne].
  - rewrite lookup_insert_eq. simpl. tauto.
  - rewrite lookup_insert_ne by exact Hne. tauto.
Qed.

Lemma buildExistingFileMap_from (files : list DirEntry) (m : gmap string bool) (n : string) :
  mapGet (fold_left (fun fileMap file =>
                       if negb (IsDir file) then <[ Name file := true ]> fileMap else fileMap)
                    files m) n = true <->
  mapGet m n = true \/ exists file, In file files /\ Name file = n /\ IsDir file = false.
Proof.
  revert m. induction files as [|file rest IH]; intros m; simpl.
  - split; [auto | intros [H | (file & [] & _)]; exact H].
  - rewrite IH. destruct (IsDir file) eqn:Hdir; simpl.
    + split.
      * intros [H | (f & Hin & Hn & Hd)]; [auto | right; eauto].
      * intros [H | (f & [-> | Hin] & Hn & Hd)]; [auto | congruence | right; eauto].
    + rewrite mapGet_insert. split.
      * intros [[Hn | H] | (f & Hin & Hn & Hd)]; [right; eauto | auto | right; eauto].
      * intros [H | (f & [-> | Hin] & Hn & Hd)]; [auto | auto | right; eauto].
Qed.

Lemma buildExistingFileMap_true (files : list DirEntry) (n : string) :
  mapGet (buildExistingFileMap (Some files)) n = true <->
  exists file, In file files /\ Name file = n /\ IsDir file = false.
Proof.
  unfold buildExistingFileMap. rewrite buildExistingFileMap_from.
  unfold mapGet at 1. rewrite lookup_empty. simpl. split; [intros [H | H] | auto].
  - discriminate.
  - exact H.
Qed.

Section DownloadFacts.

Variable platform : Platform.
Variable url_Parse : string -> string + string.
Variable filepath_Join : string -> string -> string.

Lemma downloadFile_indexed (urlString downloadDir : string)
    (existingFileMap : gmap string bool) (w : World) (path : string) :
  url_Parse urlString = inr path ->
  mapGet existingFileMap (destinationName path) = true ->
  downloadFile platform url_Parse filepath_Join urlString downloadDir existingFileMap w =
  ({| URL := urlString; Success := true; Error := None;
      FilePath := filepath_Join downloadDir (destinationName path); Retries := 0 |}, []).
Proof.
  intros Hparse Hidx. unfold downloadFile. rewrite Hparse, Hidx. reflexivity.
Qed.

(** C5: a task whose destination name is in the index returns a
    successful result, with the destination path and zero retries, and
    performs no effect at all; hence a fetch phase over a directory that
    already holds every expected file makes no HTTP request, writes no
    file and reports every task as successful. *)
Theorem downloadFile_skips_existing :
  (forall urlString downloadDir existingFileMap w path,
     url_Parse urlString = inr path ->
     mapGet existingFileMap (destinationName path) = true ->
     downloadFile platform url_Parse filepath_Join urlString downloadDir existingFileMap w =
     ({| URL := urlString; Success := true; Error := None;
         FilePath := filepath_Join downloadDir (destinationName path); Retries := 0 |},
      [])) /\
  (forall urls downloadDir concurrency entries worlds,
     (forall urlString, In urlString urls ->
        exists path file, url_Parse urlString = inr path /\ In file entries /\
                          Name file = destinationName path /\ IsDir file = false) ->
     let run := downloadFiles platform url_Parse filepath_Join urls downloadDir concurrency
                              (buildExistingFileMap (Some entries)) worlds in
     length run = length urls /\
     Forall (fun task => Success (fst task) = true /\ httpRequests (snd task) = 0%nat /\
                         List.filter isFileWrite (snd task) = []) run).
Proof.
  split; [intros; now apply downloadFile_indexed|].
  intros urls downloadDir concurrency entries worlds Hall run. subst run.
  unfold downloadFiles. split; [apply length_imap|].
  apply Forall_lookup. intros index task Hlook.
  rewrite list_lookup_imap in Hlook.
  destruct (urls !! index) as [urlString|] eqn:Hurl; [|discriminate].
  simpl in Hlook. injection Hlook as <-.
  destruct (Hall urlString) as (path & file & Hparse & Hin & Hname & Hdir).
  { apply list_elem_of_In. eapply list_elem_of_lookup_2. exact Hurl. }
  unfold downloadTask.
  rewrite (downloadFile_indexed urlString downloadDir _ (worlds index) path Hparse).
  - repeat split.
  - apply buildExistingFileMap_true. eauto.
Qed.

Lemma httpRequests_app (t1 t2 : list Effect) :
  httpRequests (t1 ++ t2) = (httpRequests t1 + httpRequests t2)%nat.
Proof. unfold httpRequests. now rewrite List.filter_app, length_app. Qed.

Lemma fileWrites_app (t1 t2 : list Effect) :
  List.filter isFileWrite (t1 ++ t2) = List.filter isFileWrite t1 ++ List.filter isFileWrite t2.
Proof. apply List.filter_app. Qed.

(** The sleep before a pass is neither a request nor a file operation. *)
Lemma backoff_quiet (attempt : Z) (w : World) :
  let backoff :=
    if 0 <? attempt
    then [Sleep (calculateBackoffDelay platform (attempt - 1) defaultRetryConfig
                                       (sample w attempt))]
    else [] in
  httpRequests backoff = 0%nat /\ List.filter isFileWrite backoff = [].
Proof. destruct (0 <? attempt); split; reflexivity. Qed.

(** [k] passes that fail in a retryable way, with retries left, lead to
    the pass after them; they make [k] requests and touch no file. *)
Lemma attemptLoop_retries (w : World) (urlString filePath : string) (k : nat) :
  forall (rest : nat) (attempt : Z) (result : DownloadResult),
    Success result = false ->
    attempt + Z.of_nat k <= MaxRetries defaultRetryConfig ->
    (forall j, attempt <= j < attempt + Z.of_nat k ->
               retryableFailure (outcome w j) = true) ->
    exists result' before,
      Success result' = false /\
      httpRequests before = k /\ List.filter isFileWrite before = [] /\
      fst (attemptLoop platform (k + rest) attempt urlString filePath w result) =
        fst (attemptLoop platform rest (attempt + Z.of_nat k) urlString filePath w result') /\
      snd (attemptLoop platform (k + rest) attempt urlString filePath w result) =
        before ++ snd (attemptLoop platform rest (attempt + Z.of_nat k) urlString filePath w result').
Proof.
  induction k as [|k IH]; intros rest attempt result Hs Hmax Hfail.
  - exists result, []. replace (attempt + Z.of_nat 0) with attempt by lia.
    repeat split; assumption.
  - assert (Hlt : (attempt <? MaxRetries defaultRetryConfig) = true)
      by (apply Z.ltb_lt; lia).
    pose proof (Hfail attempt ltac:(lia)) as Hnow.
    destruct (backoff_quiet attempt w) as [Hb1 Hb2].
    change (S k + rest)%nat with (S (k + rest)). cbn [attemptLoop].
    set (backoff := if 0 <? attempt then _ else _) in *.
    replace (attempt + Z.of_nat (S k)) with (attempt + 1 + Z.of_nat k) in * by lia.
    destruct (outcome w attempt) as [err | status createErr copyErr];
      cbn [retryableFailure] in Hnow.
    + rewrite Hnow, Hlt. cbn [andb].
      destruct (IH rest (attempt + 1) (withError (RequestFailed (message err)) attempt result))
        as (result' & before & Hs' & Hreq & Hwr & Hfst & Hsnd);
        [exact Hs | lia | intros j Hj; apply Hfail; lia |].
      destruct (attemptLoop platform (k + rest) (attempt + 1) urlString filePath w _)
        as [final later] eqn:Hloop.
      cbn [fst snd] in *. exists result', (backoff ++ HTTPGet urlString :: before).
      repeat split; [exact Hs' | | | exact Hfst |].
      * rewrite httpRequests_app, Hb1. unfold httpRequests in *. simpl. now rewrite Hreq.
      * rewrite fileWrites_app, Hb2. simpl. exact Hwr.
      * rewrite Hsnd, <- app_assoc. reflexivity.
    + apply andb_true_iff in Hnow as [Hne Hretry]. rewrite Hne, Hretry, Hlt. cbn [andb].
      destruct (IH rest (attempt + 1) (withError (HTTPStatus status) attempt result))
        as (result' & before & Hs' & Hreq & Hwr & Hfst & Hsnd);
        [exact Hs | lia | intros j Hj; apply Hfail; lia |].
      destruct (attemptLoop platform (k + rest) (attempt + 1) urlString filePath w _)
        as [final later] eqn:Hloop.
      cbn [fst snd] in *. exists result', (backoff ++ HTTPGet urlString :: before).
      repeat split; [exact Hs' | | | exact Hfst |].
      * rewrite httpRequests_app, Hb1. unfold httpRequests in *. simpl. now rewrite Hreq.
      * rewrite fileWrites_app, Hb2. simpl. exact Hwr.
      * rewrite Hsnd, <- app_assoc. reflexivity.
Qed.

Lemma applyEffects_app (fs : gset string) (t1 t2 : list Effect) :
  applyEffects fs (t1 ++ t2) = applyEffects (applyEffects fs t1) t2.
Proof. apply fold_left_app. Qed.

(** C6: when the pass that gets a 200 response cannot create the
    destination file, or cannot copy the body into it, [downloadFile]
    returns a failed result at once: the result carries the local error
    and the number of that pass, the requests made are those of the passes
    up to it and no more, and after a failed copy the last thing done is
    the removal of the destination file, which is then absent. *)
Theorem downloadFile_local_failure
    (urlString downloadDir : string) (existingFileMap : gmap string bool) (w : World)
    (path : string) (k : nat) (createErr copyErr : error) :
  url_Parse urlString = inr path ->
  mapGet existingFileMap (destinationName path) = false ->
  Z.of_nat k <= MaxRetries defaultRetryConfig ->
  (forall j, 0 <= j < Z.of_nat k -> retryableFailure (outcome w j) = true) ->
  outcome w (Z.of_nat k) = Responds 200 createErr copyErr ->
  let filePath := filepath_Join downloadDir (destinationName path) in
  let result := fst (downloadFile platform url_Parse filepath_Join urlString downloadDir existingFileMap w) in
  let trace := snd (downloadFile platform url_Parse filepath_Join urlString downloadDir existingFileMap w) in
  (forall cause, createErr = Some cause ->
     Success result = false /\ Error result = Some (CreateFailed cause) /\
     Retries result = Z.of_nat k /\ httpRequests trace = S k /\
     exists before, trace = before ++ [HTTPGet urlString; CreateFile filePath false]) /\
  (forall cause, createErr = None -> copyErr = Some cause ->
     Success result = false /\ Error result = Some (WriteFailed cause) /\
     Retries result = Z.of_nat k /\ httpRequests trace = S k /\
     (exists before, trace = before ++ [CopyBody filePath false; RemoveFile filePath]) /\
     forall fs, filePath ∉ applyEffects fs trace).
Proof.
  intros Hparse Hidx Hmax Hfail Hout filePath result trace.
  subst result trace. unfold downloadFile. rewrite Hparse, Hidx. fold filePath.
  set (result0 := {| URL := urlString; Success := false; Error := None;
                     FilePath := ""; Retries := 0 |}).
  assert (Hfuel : Z.to_nat (MaxRetries defaultRetryConfig + 1)
                  = (k + S (Z.to_nat (MaxRetries defaultRetryConfig) - k))%nat) by lia.
  rewrite Hfuel.
  destruct (attemptLoop_retries w urlString filePath k
              (S (Z.to_nat (MaxRetries defaultRetryConfig) - k)) 0 result0)
    as (result' & before & Hs' & Hreq & Hwr & Hfst & Hsnd);
    [reflexivity | lia | intros j Hj; apply Hfail; lia |].
  rewrite Hfst, Hsnd. clear Hfst Hsnd. replace (0 + Z.of_nat k) with (Z.of_nat k) by lia.
  destruct (backoff_quiet (Z.of_nat k) w) as [Hb1 Hb2].
  cbn [attemptLoop]. rewrite Hout. cbn [Z.eqb Pos.eqb negb].
  set (backoff := if 0 <? Z.of_nat k then _ else _) in *.
  split.
  - intros cause ->. cbn [fst snd withError Success Error Retries].
    repeat split; [exact Hs' | |].
    + rewrite !httpRequests_app, Hreq, Hb1. unfold httpRequests. simpl. lia.
    + exists (before ++ backoff). now rewrite <- app_assoc.
  - intros cause -> ->. cbn [fst snd withError Success Error Retries].
    repeat split; [exact Hs' | | |].
    + rewrite !httpRequests_app, Hreq, Hb1. unfold httpRequests. simpl. lia.
    + exists (before ++ backoff ++ [HTTPGet urlString; CreateFile filePath true]).
      rewrite <- !app_assoc. reflexivity.
    + intros fs. rewrite !applyEffects_app. simpl.
      intros [_ Hin]%elem_of_difference. apply Hin, elem_of_singleton. reflexivity.
Qed.

End DownloadFacts.

Lemma downloadFile_skips_existing_witness :
  let parse := fun u : string => @inr string string u in
  let join := fun d f : string => d +:+ "/" +:+ f in
  let w := {| outcome := fun _ => Responds 500 None None; sample := fun _ => Fin 0 |} in
  downloadFile amd64 parse join "https://example.com/data/a.json.gz" "downloads"
               (buildExistingFileMap (Some [ {| Name := "a.json.gz"; IsDir := false |} ])) w =
  ({| URL := "https://example.com/data/a.json.gz"; Success := true; Error := None;
      FilePath := "downloads/a.json.gz"; Retries := 0 |}, []).
Proof.
  intros parse join w.
  refine (proj1 (downloadFile_skips_existing amd64 parse join)
            "https://example.com/data/a.json.gz" "downloads" _ w
            "https://example.com/data/a.json.gz" _ _).
  - reflexivity.
  - vm_compute. reflexivity.
Defined.

Lemma downloadFile_local_failure_witness :
  let parse := fun u : string => @inr string string u in
  let join := fun d f : string => d +:+ "/" +:+ f in
  let busy := {| kind := Timeout; message := "context deadline exceeded (Client.Timeout exceeded)" |} in
  let w := {| outcome := fun j => if j =? 0 then GetFails busy
                                  else Responds 200 None (Some "no space left on device");
              sample := fun _ => Fin (1 # 2) |} in
  let run := downloadFile amd64 parse join "https://example.com/data/a.json.gz" "downloads" ∅ w in
  Error (fst run) = Some (WriteFailed "no space left on device") /\
  Retries (fst run) = 1 /\ httpRequests (snd run) = 2%nat /\
  "downloads/a.json.gz" ∉ applyEffects {[ "downloads/a.json.gz" ]} (snd run).
Proof.
  intros parse join busy w run.
  pose proof (downloadFile_local_failure amd64 parse join
                "https://example.com/data/a.json.gz" "downloads" ∅ w
                "https://example.com/data/a.json.gz" 1 None (Some "no space left on device")
                eq_refl eq_refl ltac:(vm_compute; discriminate)) as H.
  assert (Hfail : forall j, 0 <= j < Z.of_nat 1 -> retryableFailure (outcome w j) = true).
  { intros j Hj. assert (j = 0) as -> by lia. reflexivity. }
  destruct (H Hfail eq_refl) as [_ Hcopy].
  destruct (Hcopy "no space left on device" eq_refl eq_refl)
    as (_ & Herr & Hretries & Hreq & _ & Hgone).
  split; [exact Herr | split; [exact Hretries | split; [exact Hreq | apply Hgone]]].
Defined.

(** ** Salvage in [robustDecompress] *)

(** Passes that read without error and write their bytes only add to the
    output. *)
Lemma readLoop_clean (before : list ReadStep) (last : list ReadStep) :
  Forall cleanStep before ->
  forall written totalBytes,
    readLoop (before ++ last) written totalBytes =
    readLoop last (written ++ concat (chunk <$> before))
             (totalBytes + Z.of_nat (length (concat (chunk <$> before)))).
Proof.
  induction 1 as [|step before [Hok Hw] _ IH]; intros written totalBytes.
  - cbn. rewrite app_nil_r, Z.add_0_r. reflexivity.
  - cbn [app fmap list_fmap concat readLoop]. rewrite Hok.
    destruct (chunk step) as [|b bs] eqn:Hchunk.
    + change (0 <? Z.of_nat (length [])) with false. cbn iota.
      rewrite IH. reflexivity.
    + destruct Hw as [Hw | Hw]; [discriminate|]. rewrite Hw.
      replace (0 <? Z.of_nat (length (b :: bs))) with true
        by (symmetry; apply Z.ltb_lt; cbn [length]; lia).
      rewrite IH, <- app_assoc, length_app. f_equal. lia.
Qed.

Lemma readLoop_read_error (before after : list ReadStep) (c : list Byte.byte)
    (cause : string) (we : error) :
  Forall cleanStep before -> (c = [] \/ we = None) ->
  forall written totalBytes,
    totalBytes = Z.of_nat (length written) ->
    readLoop (before ++ {| chunk := c; readStatus := ReadFails cause; writeErr := we |} :: after)
             written totalBytes =
    let data := written ++ concat (chunk <$> before) ++ c in
    if 0 <? Z.of_nat (length data)
    then {| returned := None; outputFile := Some data |}
    else {| returned := Some (ReadGzipFailed cause); outputFile := Some data |}.
Proof.
  intros Hclean Hc. induction Hclean as [|step before [Hok Hw] _ IH];
    intros written totalBytes Htotal.
  - cbn [app fmap list_fmap concat readLoop chunk readStatus writeErr].
    destruct c as [|b c].
    + change (0 <? Z.of_nat (length [])) with false. cbn iota. rewrite !app_nil_r.
      subst totalBytes. reflexivity.
    + destruct Hc as [Hc | ->]; [discriminate|].
      replace (0 <? Z.of_nat (length (b :: c))) with true
        by (symmetry; apply Z.ltb_lt; simpl; lia).
      replace (0 <? totalBytes + Z.of_nat (length (b :: c))) with true
        by (symmetry; apply Z.ltb_lt; simpl; lia).
      replace (0 <? Z.of_nat (length (written ++ b :: c))) with true
        by (symmetry; apply Z.ltb_lt; rewrite length_app; simpl; lia).
      reflexivity.
  - cbn [app fmap list_fmap concat readLoop]. rewrite Hok.
    destruct (chunk step) as [|b bs] eqn:Hchunk.
    + change (0 <? Z.of_nat (length [])) with false. cbn iota.
      rewrite (IH written totalBytes Htotal). reflexivity.
    + destruct Hw as [Hw | Hw]; [discriminate|]. rewrite Hw.
      replace (0 <? Z.of_nat (length (b :: bs))) with true
        by (symmetry; apply Z.ltb_lt; simpl; lia).
      rewrite (IH (written ++ b :: bs) (totalBytes + Z.of_nat (length (b :: bs))))
        by (rewrite length_app; lia).
      cbn zeta. rewrite <- !app_assoc. reflexivity.
Qed.

(** C7, as the code has it: when a read error other than end-of-file ends
    the stream, after passes whose bytes were all written, and the bytes
    delivered with the error (if any) are written too, [robustDecompress]
    returns [nil] and leaves the bytes decompressed so far in the output
    file as soon as there is at least one such byte; with no byte at all
    it returns the read error.  When the bytes delivered with the error
    cannot be written, it returns the write error, whatever was written
    before, and the output file keeps that. *)
Theorem robustDecompress_salvage (input : GzipInput) (before after : list ReadStep)
    (c : list Byte.byte) (cause : string) (we : error) :
  openErr input = None -> headerErr input = None ->
  mkdirErr input = None -> createOutErr input = None ->
  reads input =
    before ++ {| chunk := c; readStatus := ReadFails cause; writeErr := we |} :: after ->
  Forall cleanStep before ->
  let written := concat (chunk <$> before) in
  ((c = [] \/ we = None) ->
     let data := written ++ c in
     (data <> [] ->
        robustDecompress input = {| returned := None; outputFile := Some data |}) /\
     (data = [] ->
        robustDecompress input =
          {| returned := Some (ReadGzipFailed cause); outputFile := Some [] |})) /\
  (forall failure, c <> [] -> we = Some failure ->
     robustDecompress input =
       {| returned := Some (WriteOutputFailed failure); outputFile := Some written |}).
Proof.
  intros Ho Hh Hm Hc Hreads Hclean written.
  unfold robustDecompress. rewrite Ho, Hh, Hm, Hc, Hreads. split.
  - intros Hwrite.
    rewrite (readLoop_read_error before after c cause we Hclean Hwrite [] 0 eq_refl).
    cbn zeta. rewrite app_nil_l. fold written.
    set (data := written ++ c). split; intros Hdata.
    + destruct data; [congruence|]. reflexivity.
    + rewrite Hdata. reflexivity.
  - intros failure Hne Hwe. subst we.
    rewrite (readLoop_clean before _ Hclean). cbn [readLoop chunk readStatus writeErr app].
    destruct c as [|b c]; [congruence|].
    replace (0 <? Z.of_nat (length (b :: c))) with true
      by (symmetry; apply Z.ltb_lt; cbn [length]; lia).
    reflexivity.
Qed.

Lemma robustDecompress_salvage_witness :
  let input := {| openErr := None; headerErr := None; mkdirErr := None;
                  createOutErr := None;
                  reads := [ {| chunk := [Byte.x7b; Byte.x22]; readStatus := ReadOk;
                                writeErr := None |};
                             {| chunk := [Byte.x61]; readStatus := ReadFails "unexpected EOF";
                                writeErr := None |} ] |} in
  robustDecompress input =
  {| returned := None; outputFile := Some [Byte.x7b; Byte.x22; Byte.x61] |}.
Proof.
  intros input.
  refine (proj1 (proj1 (robustDecompress_salvage input
                   [ {| chunk := [Byte.x7b; Byte.x22]; readStatus := ReadOk;
                        writeErr := None |} ] []
                   [Byte.x61] "unexpected EOF" None
                   eq_refl eq_refl eq_refl eq_refl eq_refl _) _) _).
  - constructor; [split; [reflexivity | right; reflexivity] | constructor].
  - right. reflexivity.
  - discriminate.
Defined.

(** C7 as stated fails: two bytes were decompressed and written, then
    the reader delivers one more byte together with a read error, and
    that byte cannot be written.  The function does not return [nil]:
    the write is checked before the read error, and its error is
    returned. *)
Lemma robustDecompress_write_error_not_salvaged :
  let input := {| openErr := None; headerErr := None; mkdirErr := None;
                  createOutErr := None;
                  reads := [ {| chunk := [Byte.x7b; Byte.x22]; readStatus := ReadOk;
                                writeErr := None |};
                             {| chunk := [Byte.x61]; readStatus := ReadFails "unexpected EOF";
                                writeErr := Some "no space left on device" |} ] |} in
  robustDecompress input =
    {| returned := Some (WriteOutputFailed "no space left on device");
       outputFile := Some [Byte.x7b; Byte.x22] |} /\
  returned (robustDecompress input) <> None.
Proof. split; [reflexivity | discriminate]. Qed.

(** ** Decode errors while scanning *)

(** On an input without defect the plain-JSON array loop returns, after
    one pass per element and one more. *)
Lemma arrayLoop_returns (ds : list (string + record)) :
  forall fuel n out warned,
    (length ds < fuel)%nat ->
    arrayLoop fuel ds None n out warned = Some (arrayScan ds n out warned).
Proof.
  induction ds as [|[cause|v] rest IH]; intros fuel n out warned Hfuel;
    (destruct fuel as [|fuel]; [cbn [length] in Hfuel; lia|]);
    cbn [arrayLoop arrayScan]; cbn [length] in Hfuel.
  - reflexivity.
  - apply IH. lia.
  - destruct (isMatch v); [|apply IH; lia].
    destruct (Encode out v) as [e|out']; [reflexivity | apply IH; lia].
Qed.

(** It returns the same count, error and sink whether or not the
    elements that are not objects are in the stream. *)
Lemma arrayScan_skips (ds : list (string + record)) :
  forall n out warned warned',
    count (arrayScan ds n out warned) =
      count (arrayScan (List.filter decoded ds) n out warned') /\
    scanErr (arrayScan ds n out warned) =
      scanErr (arrayScan (List.filter decoded ds) n out warned') /\
    sink (arrayScan ds n out warned) =
      sink (arrayScan (List.filter decoded ds) n out warned').
Proof.
  induction ds as [|[cause|v] rest IH]; intros n out warned warned'.
  - repeat split.
  - cbn [List.filter decoded arrayScan]. apply IH.
  - cbn [List.filter decoded arrayScan]. destruct (isMatch v).
    + destruct (Encode out v) as [e|out']; [repeat split | apply IH].
    + apply IH.
Qed.

(** A scan that reaches the end of the array has warned once for each
    failed element. *)
Lemma arrayScan_warns (ds : list (string + record)) :
  forall n out warned,
    scanErr (arrayScan ds n out warned) = None ->
    warnings (arrayScan ds n out warned) = warned ++ failures ds.
Proof.
  induction ds as [|[cause|v] rest IH]; intros n out warned Hend; cbn [arrayScan] in *.
  - cbn. now rewrite app_nil_r.
  - rewrite IH by exact Hend. cbn. now rewrite <- app_assoc.
  - destruct (isMatch v).
    + destruct (Encode out v) as [e|out']; [discriminate | now apply IH].
    + now apply IH.
Qed.

Lemma Encode_room_None (out : Sink) (v : record) :
  room out = None ->
  Encode out v = inr {| emitted := emitted out ++ [v]; room := None |}.
Proof. intros H. unfold Encode. now rewrite H. Qed.

Lemma encodeAll_room_None (matches : list record) :
  forall n out, room out = None ->
    exists n' out', encodeAll matches n out = (n', None, out') /\ room out' = None.
Proof.
  induction matches as [|m rest IH]; intros n out Hroom; cbn [encodeAll].
  - eauto.
  - rewrite Encode_room_None by exact Hroom. apply IH. reflexivity.
Qed.

Lemma encodeAll_unbounded (matches : list record) :
  forall n written,
    encodeAll matches n {| emitted := written; room := None |} =
    (n + Z.of_nat (length matches), None,
     {| emitted := written ++ matches; room := None |}).
Proof.
  induction matches as [|m ms IH]; intros n written; cbn [encodeAll].
  - rewrite app_nil_r, Z.add_0_r. reflexivity.
  - cbn [Encode room emitted]. rewrite IH, <- app_assoc. cbn [length app].
    f_equal. f_equal. lia.
Qed.

(** The gzip array loop on records that all decode, with a sink that
    takes every write. *)
Lemma sgpArrayLoop_unbounded (records : list record) (defect : option (string * bool)) :
  forall n written,
    sgpArrayLoop (inr <$> records) defect n {| emitted := written; room := None |} =
    {| count := n + Z.of_nat (length (List.filter isMatch records));
       scanErr := endOf defect;
       sink := {| emitted := written ++ List.filter isMatch records; room := None |};
       warnings := [] |}.
Proof.
  induction records as [|v rest IH]; intros n written;
    cbn [fmap list_fmap sgpArrayLoop List.filter].
  - cbn [length]. rewrite app_nil_r, Z.add_0_r. destruct defect as [[cause more]|]; reflexivity.
  - destruct (isMatch v).
    + cbn [Encode room emitted]. rewrite IH. cbn [length].
      f_equal; [lia | now rewrite <- app_assoc].
    + apply IH.
Qed.

Lemma processObjectsLoop_unbounded (objects : list record) (defect : option (string * bool)) :
  forall n written,
    processObjectsLoop (inr <$> objects) defect n {| emitted := written; room := None |} =
    {| count := n + Z.of_nat (length (flat_map objectMatches objects));
       scanErr := endOf defect;
       sink := {| emitted := written ++ flat_map objectMatches objects; room := None |};
       warnings := [] |}.
Proof.
  induction objects as [|v rest IH]; intros n written;
    cbn [fmap list_fmap processObjectsLoop flat_map].
  - cbn [length]. rewrite app_nil_r, Z.add_0_r. destruct defect as [[cause more]|]; reflexivity.
  - unfold objectMatches at 1 3. destruct (isMatch v).
    + cbn [Encode room emitted]. rewrite IH. cbn [length app].
      f_equal; [lia | now rewrite <- app_assoc].
    + rewrite encodeAll_unbounded, IH, length_app, <- app_assoc.
      f_equal. lia.
Qed.

(** A failed element ends the loops of the gzip scanner like a defect at
    its place: what follows it is never looked at. *)
Lemma sgpArrayLoop_stops (records : list record) (after : list (string + record))
    (cause : string) (more : bool) (defect : option (string * bool)) :
  forall n out,
    sgpArrayLoop ((inr <$> records) ++ inl cause :: after) defect n out =
    sgpArrayLoop (inr <$> records) (Some (cause, more)) n out.
Proof.
  induction records as [|v rest IH]; intros n out; cbn [fmap list_fmap app sgpArrayLoop].
  - reflexivity.
  - destruct (isMatch v); [|apply IH].
    destruct (Encode out v); [reflexivity | apply IH].
Qed.

Lemma processObjectsLoop_stops (records : list record) (after : list (string + record))
    (cause : string) (more : bool) (defect : option (string * bool)) :
  forall n out,
    processObjectsLoop ((inr <$> records) ++ inl cause :: after) defect n out =
    processObjectsLoop (inr <$> records) (Some (cause, more)) n out.
Proof.
  induction records as [|v rest IH]; intros n out;
    cbn [fmap list_fmap app processObjectsLoop].
  - reflexivity.
  - destruct (isMatch v).
    + destruct (Encode out v); [reflexivity | apply IH].
    + destruct (encodeAll (findMatchingObjectsRecursive (JObject v)) n out) as [[n' [e|]] out'];
        [reflexivity | apply IH].
Qed.

(** With a failed [Decode] ahead, the loops of the gzip scanner end in
    an error. *)
Lemma sgpArrayLoop_fails (records : list record) (cause : string) (more : bool) :
  forall n out, scanErr (sgpArrayLoop (inr <$> records) (Some (cause, more)) n out) <> None.
Proof.
  induction records as [|v rest IH]; intros n out; cbn [fmap list_fmap sgpArrayLoop].
  - discriminate.
  - destruct (isMatch v); [|apply IH].
    destruct (Encode out v); [discriminate | apply IH].
Qed.

Lemma processObjectsLoop_fails (records : list record) (cause : string) (more : bool) :
  forall n out,
    scanErr (processObjectsLoop (inr <$> records) (Some (cause, more)) n out) <> None.
Proof.
  induction records as [|v rest IH]; intros n out; cbn [fmap list_fmap processObjectsLoop].
  - discriminate.
  - destruct (isMatch v).
    + destruct (Encode out v); [discriminate | apply IH].
    + destruct (encodeAll (findMatchingObjectsRecursive (JObject v)) n out) as [[n' [e|]] out'];
        [discriminate | apply IH].
Qed.

(** C2, as the code has it.  In the plain-JSON scanner
    ([processFileAndWriteMatches]) an array element that is not an object
    is skipped with a warning and the elements after it are scanned: the
    scan returns, and its count, error and output are those of the stream
    without these elements.  In the gzip scanner ([ProcessMatches]) a
    failed [Decode] in an array, be it such an element or a defect of the
    input, ends the scan of the file with an error result that carries
    the matches counted so far, and nothing after it is looked at.  For
    an input that starts with an object, a failed [Decode] ends the scan
    with an error result in both scanners. *)
Theorem decode_error_handling :
  (forall ds writer fuel,
     (length ds < fuel)%nat ->
     exists r r',
       processFileAndWriteMatches fuel (inr (arrayStream ds)) writer = Some r /\
       processFileAndWriteMatches fuel (inr (arrayStream (List.filter decoded ds))) writer
         = Some r' /\
       count r = count r' /\ scanErr r = scanErr r' /\ sink r = sink r' /\
       (scanErr r = None -> warnings r = failures ds)) /\
  (forall records cause after more writer,
     let r := ProcessMatches (arrayStream ((inr <$> records) ++ inl cause :: after)) writer in
     r = ProcessMatches (withDefect (arrayStream (inr <$> records)) cause more) writer /\
     scanErr r <> None /\
     (room writer = None ->
      r = {| count := Z.of_nat (length (List.filter isMatch records));
             scanErr := Some (DecodeRecord cause);
             sink := {| emitted := emitted writer ++ List.filter isMatch records;
                        room := None |};
             warnings := [] |})) /\
  (forall records cause after more writer,
     let r := ProcessMatches (objectStream ((inr <$> records) ++ inl cause :: after)) writer in
     r = ProcessMatches (withDefect (objectStream (inr <$> records)) cause more) writer /\
     scanErr r <> None /\
     (room writer = None ->
      r = {| count := Z.of_nat (length (flat_map objectMatches records));
             scanErr := Some (DecodeRecord cause);
             sink := {| emitted := emitted writer ++ flat_map objectMatches records;
                        room := None |};
             warnings := [] |})) /\
  (forall fuel cause after more writer,
     let failed := Some {| count := 0; scanErr := Some (DecodeRoot cause); sink := writer;
                           warnings := [] |} in
     processFileAndWriteMatches fuel (inr (objectStream (inl cause :: after))) writer = failed /\
     processFileAndWriteMatches fuel (inr (withDefect (objectStream []) cause more)) writer
       = failed).
Proof.
  split; [|split; [|split]].
  - intros ds writer fuel Hfuel.
    exists (arrayScan ds 0 writer []), (arrayScan (List.filter decoded ds) 0 writer []).
    cbn. rewrite (arrayLoop_returns ds) by exact Hfuel.
    rewrite (arrayLoop_returns (List.filter decoded ds))
      by (pose proof (filter_length decoded ds); lia).
    destruct (arrayScan_skips ds 0 writer [] []) as (H1 & H2 & H3).
    repeat split; [exact H1 | exact H2 | exact H3 |].
    intros Hend. now rewrite arrayScan_warns.
  - intros records cause after more writer. cbn.
    rewrite (sgpArrayLoop_stops records after cause more).
    split; [reflexivity | split; [apply sgpArrayLoop_fails|]].
    intros Hroom. destruct writer as [written room0]. cbn in Hroom. subst room0.
    rewrite sgpArrayLoop_unbounded. reflexivity.
  - intros records cause after more writer. cbn.
    rewrite (processObjectsLoop_stops records after cause more).
    split; [reflexivity | split; [apply processObjectsLoop_fails|]].
    intros Hroom. destruct writer as [written room0]. cbn in Hroom. subst room0.
    rewrite processObjectsLoop_unbounded. reflexivity.
  - intros fuel cause after more writer. split; reflexivity.
Qed.

Lemma decode_error_handling_witness :
  let hit : record := [("billing_code", JString "99283")] in
  let sinkAll := {| emitted := []; room := None |} in
  ProcessMatches (arrayStream ((inr <$> [hit]) ++ inl "not an object" :: [inr hit])) sinkAll
  = {| count := 1; scanErr := Some (DecodeRecord "not an object");
       sink := {| emitted := [hit]; room := None |}; warnings := [] |} /\
  exists r,
    processFileAndWriteMatches 4 (inr (arrayStream [inr hit; inl "not an object"; inr hit]))
                               sinkAll = Some r /\
    count r = 2.
Proof.
  intros hit sinkAll.
  destruct decode_error_handling as (Hplain & Harr & _).
  split.
  - exact (proj2 (proj2 (Harr [hit] "not an object" [inr hit] true sinkAll)) eq_refl).
  - destruct (Hplain [inr hit; inl "not an object"; inr hit] sinkAll 4%nat)
      as (r & r' & Hr & Hr' & Hcount & _).
    + cbn [length]. lia.
    + exists r. split; [exact Hr|]. rewrite Hcount.
      vm_compute in Hr'. injection Hr' as <-. reflexivity.
Defined.

(** C2 as stated fails for the gzip scanner: after an element that does
    not decode, the matching record that follows is neither counted nor
    written, and the scan returns an error; the plain-JSON scanner counts
    it. *)
Lemma ProcessMatches_array_stops_at_bad_element :
  let hit : record := [("billing_code", JString "99283")] in
  let sinkAll := {| emitted := []; room := None |} in
  let file := arrayStream [inl "not an object"; inr hit] in
  ProcessMatches file sinkAll =
    {| count := 0; scanErr := Some (DecodeRecord "not an object");
       sink := sinkAll; warnings := [] |} /\
  processFileAndWriteMatches 3 (inr file) sinkAll =
    Some {| count := 1; scanErr := None;
            sink := {| emitted := [hit]; room := None |};
            warnings := ["not an object"] |}.
Proof. split; vm_compute; reflexivity. Qed.

(** ** The ledger after a scan run *)

(** What the collecting loop leaves at a key: [true] when a result for
    that name came back without error, the former entry otherwise. *)
Lemma collectResults_lookup (received : list result) :
  forall (m : gmap string bool) (total done : Z) (f : string),
    (collectResults received m total done).1.1 !! f =
    if succeeded received f then Some true else m !! f.
Proof.
  induction received as [|res rest IH]; intros m total done f;
    cbn [collectResults succeeded existsb].
  - reflexivity.
  - fold (succeeded rest f). destruct (err res) as [e|].
    + rewrite IH, andb_false_r. reflexivity.
    + rewrite IH, andb_true_r.
      destruct (String.eqb_spec (fileName res) f) as [->|Hne]; cbn [orb].
      * destruct (succeeded rest f); [reflexivity | apply lookup_insert_eq].
      * destruct (succeeded rest f); [reflexivity | now apply lookup_insert_ne].
Qed.

Lemma succeeded_iff (received : list result) (f : string) :
  succeeded received f = true <->
  exists res, res ∈ received /\ fileName res = f /\ err res = None.
Proof.
  unfold succeeded. rewrite existsb_exists. split.
  - intros (res & Hin & H). apply andb_true_iff in H as [Hn He].
    exists res. rewrite list_elem_of_In. apply String.eqb_eq in Hn.
    destruct (err res); [discriminate | auto].
  - intros (res & Hin & Hn & He). exists res. rewrite <- list_elem_of_In.
    split; [exact Hin|]. rewrite He, Hn, String.eqb_refl. reflexivity.
Qed.

(** The map [loadProcessedFiles] builds holds [true] at the listed names
    and nothing else. *)
Lemma loaded_from (fileList : list string) :
  forall (m : gmap string bool) (f : string),
    fold_left (fun files g => <[ g := true ]> files) fileList m !! f =
    if bool_decide (f ∈ fileList) then Some true else m !! f.
Proof.
  induction fileList as [|g rest IH]; intros m f; cbn [fold_left].
  - reflexivity.
  - rewrite IH. destruct (decide (f = g)) as [->|Hne].
    + rewrite lookup_insert_eq, (bool_decide_eq_true_2 (g ∈ g :: rest)) by left.
      now destruct (bool_decide (g ∈ rest)).
    + rewrite lookup_insert_ne by congruence.
      destruct (bool_decide (f ∈ rest)) eqn:Hin.
      * apply bool_decide_eq_true in Hin.
        rewrite (bool_decide_eq_true_2 (f ∈ g :: rest)) by now right. reflexivity.
      * apply bool_decide_eq_false in Hin.
        rewrite (bool_decide_eq_false_2 (f ∈ g :: rest)); [reflexivity|].
        intros [?|?]%elem_of_cons; contradiction.
Qed.

Lemma loadProcessedFiles_lookup (stored : LedgerFile) (loaded : gmap string bool) (f : string) :
  loadProcessedFiles stored = inr loaded ->
  loaded !! f = if bool_decide (f ∈ ledgerNames stored) then Some true else None.
Proof.
  destruct stored as [|cause|fileList]; cbn [loadProcessedFiles ledgerNames]; intros H.
  - injection H as <-. rewrite lookup_empty.
    rewrite bool_decide_eq_false_2; [reflexivity | apply not_elem_of_nil].
  - discriminate.
  - injection H as <-. rewrite loaded_from, lookup_empty. reflexivity.
Qed.

Lemma candidates_unprocessed (suffix : string) (entries : list DirEntry)
    (loaded : gmap string bool) (f : string) :
  f ∈ candidates suffix entries loaded -> mapGet loaded f = false.
Proof.
  unfold candidates. intros (file & -> & Hin)%list_elem_of_fmap.
  apply list_elem_of_In, List.filter_In in Hin as [_ H].
  apply andb_true_iff in H as [_ H]. now apply negb_true_iff in H.
Qed.

Lemma ledgerNames_saved (files : gmap string bool) (stored : LedgerFile) (g : string) :
  g ∈ ledgerNames (saveProcessedFiles files None None stored).2 <->
  exists f, is_Some (files !! f) /\ jsonString f = g.
Proof.
  cbn [saveProcessedFiles snd ledgerNames]. rewrite list_elem_of_fmap. split.
  - intros (f & -> & Hin). apply list_elem_of_fmap in Hin as ([k v] & -> & Hin).
    apply elem_of_map_to_list in Hin. exists k. eauto.
  - intros (f & [v Hv] & <-). exists f. split; [reflexivity|].
    apply list_elem_of_fmap. exists (f, v). split; [reflexivity|].
    now apply elem_of_map_to_list.
Qed.

(** C1, as the code has it: after a scan run, every candidate file whose
    scan returned without error is in the in-memory set and, when the
    ledger file could be created and written, in the persisted ledger,
    under its name as JSON encodes it; a candidate whose scan returned an
    error is not added to the set, and unless the write of the ledger
    fails every name in the ledger is the name of a file of the set, as
    it is or as JSON encodes it; and no name that was in the set when
    the run began is lost.  Both [main] functions end in this run. *)
Theorem ledger_after_run (scanOf : string -> Z * option ScanError) (suffix : string)
    (stored : LedgerFile) (loaded : gmap string bool) (entries : list DirEntry)
    (pool : list string -> list result) (createErr : error)
    (encodeErr : option (string * LedgerFile)) :
  loadProcessedFiles stored = inr loaded ->
  let filesToProcess := candidates suffix entries loaded in
  pool filesToProcess ≡ₚ (workerResult scanOf <$> filesToProcess) ->
  let final := runScan suffix stored loaded entries pool createErr encodeErr in
  (forall f, f ∈ filesToProcess -> snd (scanOf f) = None ->
     mapGet (processedFiles final) f = true /\
     (createErr = None -> encodeErr = None ->
      jsonString f ∈ ledgerNames (ledger final) /\
      (jsonString f = f -> f ∈ ledgerNames (ledger final)))) /\
  (forall f, f ∈ filesToProcess -> snd (scanOf f) <> None ->
     mapGet (processedFiles final) f = false) /\
  (encodeErr = None ->
   forall g, g ∈ ledgerNames (ledger final) ->
     exists f, mapGet (processedFiles final) f = true /\ (g = f \/ g = jsonString f)) /\
  (forall f, mapGet loaded f = true -> mapGet (processedFiles final) f = true) /\
  mainGzip (inr entries) stored None pool createErr encodeErr =
    inr (runScan ".gz" stored loaded entries pool createErr encodeErr) /\
  mainJSON (inr entries) stored None pool createErr encodeErr =
    inr (runScan ".json" stored loaded entries pool createErr encodeErr).
Proof.
  intros Hload filesToProcess Hpool final.
  assert (Hstored : forall f, f ∈ ledgerNames stored <-> loaded !! f = Some true).
  { intros f. rewrite (loadProcessedFiles_lookup stored loaded f Hload).
    destruct (bool_decide (f ∈ ledgerNames stored)) eqn:Hd.
    - apply bool_decide_eq_true in Hd. tauto.
    - apply bool_decide_eq_false in Hd. split; [contradiction | discriminate]. }
  assert (Hall : forall f v, loaded !! f = Some v -> v = true).
  { intros f v Hf. rewrite (loadProcessedFiles_lookup stored loaded f Hload) in Hf.
    destruct (bool_decide _); congruence. }
  assert (Hfresh : forall f, f ∈ filesToProcess -> loaded !! f = None).
  { intros f Hf. apply candidates_unprocessed in Hf. unfold mapGet in Hf.
    rewrite (loadProcessedFiles_lookup stored loaded f Hload) in *.
    destruct (bool_decide (f ∈ ledgerNames stored)); [discriminate | reflexivity]. }
  assert (Hsucc : forall f, f ∈ filesToProcess ->
            succeeded (pool filesToProcess) f = true <-> snd (scanOf f) = None).
  { intros f Hf. rewrite succeeded_iff. split.
    - intros (res & Hin & Hn & He). rewrite Hpool in Hin.
      apply list_elem_of_fmap in Hin as (g & -> & _). cbn in Hn, He. now subst g.
    - intros He. exists (workerResult scanOf f). rewrite Hpool.
      split; [apply list_elem_of_fmap; eauto | split; [reflexivity | exact He]]. }
  assert (Hmains :
    mainGzip (inr entries) stored None pool createErr encodeErr =
      inr (runScan ".gz" stored loaded entries pool createErr encodeErr) /\
    mainJSON (inr entries) stored None pool createErr encodeErr =
      inr (runScan ".json" stored loaded entries pool createErr encodeErr)).
  { unfold mainGzip, mainJSON, scanOrPanic. rewrite Hload.
    split; [destruct (candidates ".gz" entries loaded)
           | destruct (candidates ".json" entries loaded)]; reflexivity. }
  subst final. unfold runScan. fold filesToProcess.
  destruct filesToProcess as [|f0 rest] eqn:Hcands.
  - cbn [processedFiles ledger].
    split; [|split; [|split; [|split; [|exact Hmains]]]].
    + intros f Hf. now apply not_elem_of_nil in Hf.
    + intros f Hf. now apply not_elem_of_nil in Hf.
    + intros _ g Hg. exists g. apply Hstored in Hg. unfold mapGet. rewrite Hg. auto.
    + auto.
  - rewrite <- Hcands in *. clear Hcands f0 rest.
    pose proof (collectResults_lookup (pool filesToProcess) loaded 0 0) as Hlook.
    destruct (collectResults (pool filesToProcess) loaded 0 0) as [[files total] done].
    cbn [fst snd] in Hlook. cbn [processedFiles ledger].
    assert (Htrue : forall f, is_Some (files !! f) -> mapGet files f = true).
    { intros f [v Hv]. unfold mapGet. rewrite Hv. cbn. rewrite Hlook in Hv.
      destruct (succeeded (pool filesToProcess) f); [congruence | exact (Hall f v Hv)]. }
    split; [|split; [|split; [|split; [|exact Hmains]]]].
    + intros f Hf He. apply (Hsucc f Hf) in He.
      assert (Hf' : files !! f = Some true) by (rewrite Hlook, He; reflexivity).
      split; [unfold mapGet; now rewrite Hf'|].
      intros -> ->.
      assert (Hin : jsonString f ∈ ledgerNames (saveProcessedFiles files None None stored).2)
        by (apply ledgerNames_saved; eauto).
      split; [exact Hin | intros Hvalid; now rewrite Hvalid in Hin].
    + intros f Hf He.
      assert (Hno : succeeded (pool filesToProcess) f = false).
      { destruct (succeeded (pool filesToProcess) f) eqn:Hs; [|reflexivity].
        apply (Hsucc f Hf) in Hs. contradiction. }
      assert (Hf' : files !! f = None) by (rewrite Hlook, Hno; now apply Hfresh).
      unfold mapGet; now rewrite Hf'.
    + intros -> g Hg. destruct createErr as [cause|].
      * cbn [saveProcessedFiles snd] in Hg. exists g. split; [|now left].
        apply Htrue. rewrite Hlook. apply Hstored in Hg.
        destruct (succeeded (pool filesToProcess) g); eauto.
      * apply ledgerNames_saved in Hg as (f & Hf & <-). exists f. auto.
    + intros f Hf. unfold mapGet in *. rewrite Hlook.
      destruct (succeeded (pool filesToProcess) f); [reflexivity | exact Hf].
Qed.

Lemma ledger_after_run_witness :
  let scanOf := fun f : string =>
    if String.eqb f "b.json.gz" then (0, Some (PeekFailed "unexpected EOF"))
    else (2, @None ScanError) in
  let entries := [ {| Name := "a.json.gz"; IsDir := false |};
                   {| Name := "b.json.gz"; IsDir := false |} ] in
  let pool := fun fs : list string => workerResult scanOf <$> fs in
  let final := runScan ".gz" Missing ∅ entries pool None None in
  mapGet (processedFiles final) "a.json.gz" = true /\
  "a.json.gz" ∈ ledgerNames (ledger final).
Proof.
  intros scanOf entries pool final.
  destruct (proj1 (ledger_after_run scanOf ".gz" Missing ∅ entries pool None None
                     eq_refl ltac:(reflexivity)) "a.json.gz") as [Hset Hledger].
  - apply list_elem_of_In. vm_compute. left. reflexivity.
  - reflexivity.
  - split; [exact Hset|]. apply (Hledger eq_refl eq_refl). reflexivity.
Defined.

(** C1 as stated fails: a candidate whose scan returns an error is
    neither in the in-memory set nor in the ledger written at the end of
    the run. *)
Lemma failed_scan_not_recorded :
  let scanOf := fun _ : string => (0, Some (PeekFailed "unexpected EOF")) in
  let entries := [ {| Name := "a.json.gz"; IsDir := false |} ] in
  let pool := fun fs : list string => workerResult scanOf <$> fs in
  let final := runScan ".gz" Missing ∅ entries pool None None in
  candidates ".gz" entries ∅ = ["a.json.gz"] /\
  mainGzip (inr entries) Missing None pool None None = inr final /\
  mapGet (processedFiles final) "a.json.gz" = false /\
  ledger final = Listed [].
Proof. repeat split; vm_compute; reflexivity. Qed.

(** ** The worker pool *)

Lemma blocks_app (bs1 bs2 : list (string * list record)) :
  blocks (bs1 ++ bs2) = blocks bs1 ++ blocks bs2.
Proof. apply flat_map_app. Qed.

Lemma fullBlocks_fst (writes : string -> list record) (done : list string) :
  (fullBlocks writes done).*1 = done.
Proof.
  unfold fullBlocks. rewrite <- list_fmap_compose. induction done as [|f done IH];
    [reflexivity | cbn; now rewrite IH].
Qed.

Lemma blocks_tag (bs : list (string * list record)) (f : string) (r : record) :
  (f, r) ∈ blocks bs -> f ∈ bs.*1.
Proof.
  induction bs as [|[g rs] bs IH]; cbn.
  - intros H. now apply not_elem_of_nil in H.
  - intros [H | H]%elem_of_app.
    + apply list_elem_of_fmap in H as (r' & Heq & _). injection Heq as -> _. left.
    + right. now apply IH.
Qed.

(** In a sequence of blocks of distinct files, no record of another file
    stands between two records of one file. *)
Lemma blocks_noInterleaving (bs : list (string * list record)) :
  NoDup (bs.*1) -> noInterleaving (blocks bs).
Proof.
  induction bs as [|[f rs] bs IH]; intros Hnd i j k a g ri rj rk Hijk Hi Hj Hk.
  - discriminate.
  - cbn in Hnd. apply NoDup_cons in Hnd as [Hf Hnd]. cbn [blocks flat_map fst snd] in *.
    fold (blocks bs) in *.
    assert (Hlen : length (pair f <$> rs) = length rs) by apply length_fmap.
    assert (Hfirst : forall n x r, (n < length rs)%nat ->
              ((pair f <$> rs) ++ blocks bs) !! n = Some (x, r) -> x = f).
    { intros n x r Hn H. rewrite lookup_app_l in H by lia.
      apply list_elem_of_lookup_2, list_elem_of_fmap in H as (r' & Heq & _).
      now injection Heq. }
    destruct (decide (k < length rs)%nat) as [Hk' | Hk'].
    + rewrite (Hfirst i a ri) by (lia || assumption).
      apply (Hfirst j g rj); [lia | assumption].
    + rewrite lookup_app_r in Hk by lia.
      assert (Ha : a <> f).
      { intros ->. apply Hf. eapply blocks_tag, list_elem_of_lookup_2, Hk. }
      assert (Hi' : (length rs <= i)%nat).
      { destruct (decide (i < length rs)%nat) as [Hlt|]; [|lia].
        exfalso. apply Ha. now apply (Hfirst i a ri). }
      rewrite lookup_app_r in Hi, Hj by lia.
      apply (IH Hnd (i - length (pair f <$> rs))%nat (j - length (pair f <$> rs))%nat
                (k - length (pair f <$> rs))%nat a g ri rj rk); [lia | assumption ..].
Qed.

Lemma contiguous_noInterleaving (out : list (string * record)) :
  contiguous out -> noInterleaving out.
Proof. intros (bs & Hnd & ->). now apply blocks_noInterleaving. Qed.

Lemma inflight_insert (ws : list WorkerState) (i : nat) (s s' : WorkerState) :
  ws !! i = Some s ->
  exists others, inflight ws ≡ₚ owned s ++ others /\
                 inflight (<[ i := s' ]> ws) ≡ₚ owned s' ++ others.
Proof.
  intros Hi. exists (inflight (take i ws) ++ inflight (drop (S i) ws)).
  rewrite insert_take_drop by (eapply lookup_lt_Some; eauto).
  rewrite <- (take_drop_middle ws i s Hi) at 1.
  unfold inflight. rewrite !flat_map_app. cbn [flat_map].
  split; solve_Permutation.
Qed.

Lemma lookup_insert_worker (ws : list WorkerState) (i j : nat) (s s' t : WorkerState) :
  ws !! i = Some s -> <[ i := s' ]> ws !! j = Some t ->
  (j = i /\ t = s') \/ (j <> i /\ ws !! j = Some t).
Proof.
  intros Hi Hj. destruct (decide (j = i)) as [->|Hne].
  - rewrite list_lookup_insert_eq in Hj by (eapply lookup_lt_Some; eauto).
    left. split; congruence.
  - rewrite list_lookup_insert_ne in Hj by congruence. auto.
Qed.

Lemma scanning_dec (ws : list WorkerState) :
  (exists i f todo, ws !! i = Some (Scanning f todo)) \/
  (forall i f todo, ws !! i <> Some (Scanning f todo)).
Proof.
  induction ws as [|s ws [(i & f & todo & H) | IH]].
  - right. intros i f todo H. discriminate.
  - left. exists (S i), f, todo. exact H.
  - destruct s as [| g | g todo | g | g];
      try (right; intros [|i] f' todo' H; [discriminate | exact (IH i f' todo' H)]).
    left. exists 0%nat, g, todo. reflexivity.
Qed.

Section PoolFacts.

Variable writes : string -> list record.
Variable files : list string.

Lemma poolInv_init (numWorkers : nat) :
  poolInv writes files (initPool files numWorkers) [].
Proof.
  assert (Hidle : forall i s, replicate numWorkers Idle !! i = Some s -> s = Idle).
  { intros i s H. apply lookup_replicate in H as [-> _]. reflexivity. }
  assert (Hnone : inflight (replicate numWorkers Idle) = []).
  { unfold inflight. induction numWorkers as [|n IH]; [reflexivity | apply IH].
    intros i s H. apply (Hidle (S i) s H). }
  unfold poolInv, initPool.
  cbn [unsent jobs writerMutex workers buffered output results].
  rewrite Hnone. split; [reflexivity | split; [|split]].
  - intros i s H Hh. apply Hidle in H. subst s. discriminate.
  - intros _. split; reflexivity.
  - intros i f todo H. apply Hidle in H. discriminate.
Qed.

Ltac open_inv :=
  unfold poolInv; cbn [unsent jobs writerMutex workers buffered output results].

Ltac other_holder Hlock Hi Hj :=
  let E1 := fresh in let E2 := fresh in
  pose proof (Hlock _ _ Hi eq_refl) as E1;
  pose proof (Hlock _ _ Hj eq_refl) as E2;
  congruence.

Lemma poolStep_inv (st st' : PoolState) (done : list string) :
  poolInv writes files st done -> poolStep writes st st' ->
  exists done', poolInv writes files st' done'.
Proof.
  intros (Hperm & Hlock & Hquiet & Hscan) Hstep.
  inversion Hstep as
    [ f us js m ws b o rs
    | i f us js m ws b o rs Hi
    | i f us js ws b o rs Hi
    | i f r todo us js m ws b o rs Hi
    | i f todo us js m ws b o rs Hi
    | i f us js m ws b o rs Hi
    | i f us js m ws b o rs Hi
    | i f us js m ws b o rs Hi ]; subst st st';
    cbn [unsent jobs writerMutex workers buffered output results] in *.
  - (* send *)
    exists done. open_inv. split; [|split; [|split]]; try assumption.
    rewrite Hperm. solve_Permutation.
  - (* claim *)
    exists done. open_inv.
    destruct (inflight_insert ws i Idle (Claimed f) Hi) as (others & H1 & H2).
    split; [|split; [|split]].
    + rewrite Hperm, H1, H2. cbn [owned]. solve_Permutation.
    + intros j s Hj Hs.
      destruct (lookup_insert_worker ws i j _ _ s Hi Hj) as [[-> ->] | [_ Hj']];
        [discriminate | eauto].
    + intros Hno. apply Hquiet. intros j g todo Hj.
      apply (Hno j g todo). rewrite list_lookup_insert_ne; [exact Hj | congruence].
    + intros j g todo Hj.
      destruct (lookup_insert_worker ws i j _ _ _ Hi Hj) as [[_ ?] | [_ Hj']];
        [discriminate | eauto].
  - (* lock *)
    exists done. open_inv.
    destruct (inflight_insert ws i (Claimed f) (Scanning f (writes f)) Hi) as (others & H1 & H2).
    assert (Hfree : forall j s, ws !! j = Some s -> holdsLock s = true -> False).
    { intros j s Hj Hs. specialize (Hlock j s Hj Hs). discriminate. }
    destruct Hquiet as [Hout Hbuf].
    { intros j g todo Hj. exact (Hfree j _ Hj eq_refl). }
    split; [|split; [|split]].
    + rewrite Hperm, H1, H2. reflexivity.
    + intros j s Hj Hs.
      destruct (lookup_insert_worker ws i j _ _ s Hi Hj) as [[-> _] | [_ Hj']];
        [reflexivity | exfalso; eauto].
    + intros Hno. exfalso. apply (Hno i f (writes f)).
      apply list_lookup_insert_eq. eapply lookup_lt_Some; eauto.
    + intros j g todo Hj.
      destruct (lookup_insert_worker ws i j _ _ _ Hi Hj) as [[_ Heq] | [_ Hj']].
      * injection Heq as -> ->. exists [], []. rewrite Hout, Hbuf, app_nil_r. auto.
      * exfalso. exact (Hfree j _ Hj' eq_refl).
  - (* write *)
    exists done. open_inv.
    destruct (inflight_insert ws i (Scanning f (r :: todo)) (Scanning f todo) Hi)
      as (others & H1 & H2).
    split; [|split; [|split]].
    + rewrite Hperm, H1, H2. reflexivity.
    + intros j s Hj Hs.
      destruct (lookup_insert_worker ws i j _ _ s Hi Hj) as [[-> _] | [_ Hj']];
        [exact (Hlock i _ Hi eq_refl) | eauto].
    + intros Hno. exfalso. apply (Hno i f todo).
      apply list_lookup_insert_eq. eapply lookup_lt_Some; eauto.
    + intros j g todo' Hj.
      destruct (lookup_insert_worker ws i j _ _ _ Hi Hj) as [[_ Heq] | [Hne Hj']].
      * injection Heq as -> ->.
        destruct (Hscan i f (r :: todo) Hi) as (p1 & p2 & Hw & Ho & Hb).
        exists p1, (p2 ++ [r]). rewrite Hw, Ho, Hb, fmap_app, <- !app_assoc. auto.
      * exfalso. apply Hne. other_holder Hlock Hi Hj'.
  - (* spill *)
    exists done. open_inv. split; [exact Hperm | split; [exact Hlock | split]].
    + intros Hno. exfalso. exact (Hno i f todo Hi).
    + intros j g todo' Hj.
      destruct (Hscan j g todo' Hj) as (p1 & p2 & Hw & Ho & Hb).
      exists (p1 ++ p2), []. rewrite Hw, Ho, Hb, fmap_app, <- !app_assoc. auto.
  - (* flush *)
    exists (done ++ [f]). open_inv.
    destruct (inflight_insert ws i (Scanning f []) (Flushed f) Hi) as (others & H1 & H2).
    destruct (Hscan i f [] Hi) as (p1 & p2 & Hw & Ho & Hb).
    assert (Hall : o ++ b = blocks (fullBlocks writes (done ++ [f])) /\ @nil (string * record) = []).
    { split; [|reflexivity]. unfold fullBlocks. rewrite fmap_app, blocks_app.
      cbn [fmap list_fmap blocks flat_map fst snd].
      rewrite Ho, Hb, Hw, !fmap_app, !app_nil_r, <- !app_assoc. reflexivity. }
    split; [|split; [|split]].
    + rewrite Hperm, H1, H2. cbn [owned]. solve_Permutation.
    + intros j s Hj Hs.
      destruct (lookup_insert_worker ws i j _ _ s Hi Hj) as [[-> _] | [_ Hj']];
        [exact (Hlock i _ Hi eq_refl) | eauto].
    + intros _. exact Hall.
    + intros j g todo' Hj.
      destruct (lookup_insert_worker ws i j _ _ _ Hi Hj) as [[_ Heq] | [Hne Hj']];
        [discriminate|].
      exfalso. apply Hne. other_holder Hlock Hi Hj'.
  - (* unlock *)
    exists done. open_inv.
    destruct (inflight_insert ws i (Flushed f) (Reporting f) Hi) as (others & H1 & H2).
    assert (Halone : forall j s, ws !! j = Some s -> holdsLock s = true -> j = i).
    { intros j s Hj Hs. pose proof (Hlock _ _ Hi eq_refl). pose proof (Hlock _ _ Hj Hs).
      congruence. }
    split; [|split; [|split]].
    + rewrite Hperm, H1, H2. reflexivity.
    + intros j s Hj Hs.
      destruct (lookup_insert_worker ws i j _ _ s Hi Hj) as [[_ ->] | [Hne Hj']];
        [discriminate | exfalso; eauto].
    + intros _. apply Hquiet. intros j g todo Hj.
      pose proof (Halone j _ Hj eq_refl). subst j. congruence.
    + intros j g todo Hj.
      destruct (lookup_insert_worker ws i j _ _ _ Hi Hj) as [[_ Heq] | [Hne Hj']];
        [discriminate | exfalso; eauto].
  - (* report *)
    exists done. open_inv.
    destruct (inflight_insert ws i (Reporting f) Idle Hi) as (others & H1 & H2).
    split; [|split; [|split]].
    + rewrite Hperm, H1, H2. reflexivity.
    + intros j s Hj Hs.
      destruct (lookup_insert_worker ws i j _ _ s Hi Hj) as [[-> ->] | [_ Hj']];
        [discriminate | eauto].
    + intros Hno. apply Hquiet. intros j g todo Hj.
      apply (Hno j g todo). rewrite list_lookup_insert_ne; [exact Hj | congruence].
    + intros j g todo Hj.
      destruct (lookup_insert_worker ws i j _ _ _ Hi Hj) as [[_ ?] | [_ Hj']];
        [discriminate | eauto].
Qed.

Lemma reachable_inv (numWorkers : nat) (st : PoolState) :
  reachable writes files numWorkers st -> exists done, poolInv writes files st done.
Proof.
  unfold reachable. revert st.
  apply (rtc_ind_r (fun st => exists done, poolInv writes files st done)).
  - exists []. apply poolInv_init.
  - intros st st' _ Hstep [done IH]. eapply poolStep_inv; eauto.
Qed.

End PoolFacts.

Lemma owned_inflight (ws : list WorkerState) (i : nat) (s : WorkerState) (f : string) :
  ws !! i = Some s -> f ∈ owned s -> f ∈ inflight ws.
Proof.
  intros Hi Hf. apply list_elem_of_In, in_flat_map. exists s.
  split; apply list_elem_of_In; [eapply list_elem_of_lookup_2; eauto | exact Hf].
Qed.

Lemma inflight_idle (ws : list WorkerState) :
  Forall (fun s => s = Idle) ws -> inflight ws = [].
Proof. unfold inflight. induction 1 as [|s ws -> _ IH]; [reflexivity | exact IH]. Qed.

(** C8: in every state a scan run can reach, under any interleaving of
    the workers, the output consists of one block of records per file,
    so that no record of another file stands between two records of one
    file; at most one worker is between its [Lock] and its [Unlock]; and
    once every job is done the output is the sequence of the complete
    blocks of all files, in some order, with nothing left in the buffer. *)
Theorem pool_output_contiguous (writes : string -> list record) (files : list string)
    (numWorkers : nat) (st : PoolState) :
  NoDup files -> reachable writes files numWorkers st ->
  contiguous (output st) /\ noInterleaving (output st) /\
  (forall i j si sj,
     workers st !! i = Some si -> workers st !! j = Some sj ->
     holdsLock si = true -> holdsLock sj = true -> i = j) /\
  (unsent st = [] -> jobs st = [] -> Forall (fun s => s = Idle) (workers st) ->
   exists order, order ≡ₚ files /\ output st = blocks (fullBlocks writes order) /\
                 buffered st = []).
Proof.
  intros Hnd Hrun.
  destruct (reachable_inv writes files numWorkers st Hrun)
    as (done & Hperm & Hlock & Hquiet & Hscan).
  rewrite Hperm in Hnd.
  assert (Hcontig : contiguous (output st)).
  { destruct (scanning_dec (workers st)) as [(i & f & todo & Hi) | Hno].
    - destruct (Hscan i f todo Hi) as (p1 & p2 & _ & Ho & _).
      exists (fullBlocks writes done ++ [(f, p1)]). split.
      + rewrite fmap_app, fullBlocks_fst. cbn.
        apply NoDup_app. repeat split.
        * now apply NoDup_app in Hnd as [? _].
        * intros g Hg [->|Hnil%not_elem_of_nil]%elem_of_cons; [|exact Hnil].
          apply NoDup_app in Hnd as (_ & Hdisj & _). apply (Hdisj f Hg).
          apply elem_of_app. left. eapply owned_inflight; [exact Hi | left].
        * apply NoDup_singleton.
      + rewrite blocks_app, Ho. cbn. now rewrite app_nil_r.
    - destruct (Hquiet Hno) as [Ho _]. exists (fullBlocks writes done).
      rewrite fullBlocks_fst. split; [|exact Ho]. now apply NoDup_app in Hnd as [? _]. }
  split; [exact Hcontig|]. split; [now apply contiguous_noInterleaving|]. split.
  - intros i j si sj Hi Hj Hsi Hsj.
    pose proof (Hlock i si Hi Hsi). pose proof (Hlock j sj Hj Hsj). congruence.
  - intros Hu Hj Hidle.
    assert (Hno : forall i f todo, workers st !! i <> Some (Scanning f todo)).
    { intros i f todo Hi. rewrite Forall_lookup in Hidle.
      specialize (Hidle i _ Hi). discriminate. }
    pose proof (inflight_idle _ Hidle) as Hnone.
    destruct (Hquiet Hno) as [Ho Hb]. exists done.
    rewrite Hperm, Hu, Hj, Hnone, !app_nil_r. auto.
Qed.

Lemma pool_output_contiguous_witness :
  let hit : record := [("billing_code", JString "99283")] in
  let writes := fun _ : string => [hit] in
  noInterleaving
    (output {| unsent := ["b.json.gz"]; jobs := []; writerMutex := Some 0%nat;
               workers := [Flushed "a.json.gz"; Idle]; buffered := [];
               output := [("a.json.gz", hit)]; results := [] |}).
Proof.
  intros hit writes.
  refine (proj1 (proj2 (pool_output_contiguous writes ["a.json.gz"; "b.json.gz"] 2 _ _ _))).
  - apply (bool_decide_unpack _). vm_compute. exact I.
  - unfold reachable, initPool.
    eapply rtc_l; [apply step_send|].
    eapply rtc_l; [apply (step_claim writes 0); reflexivity|].
    eapply rtc_l; [apply (step_lock writes 0 "a.json.gz"); reflexivity|].
    eapply rtc_l; [apply (step_write writes 0 "a.json.gz" hit []); reflexivity|].
    eapply rtc_l; [apply (step_flush writes 0 "a.json.gz"); reflexivity|].
    apply rtc_refl.
Defined.

(** ** More on [downloadFile]: bounds, retries and results *)

Section DownloadMore.

Variable platform : Platform.
Variable url_Parse : string -> string + string.
Variable filepath_Join : string -> string -> string.

Lemma fileWrites_backoff (attempt : Z) (w : World) (rest : list Effect) :
  List.filter isFileWrite
    ((if 0 <? attempt
      then [Sleep (calculateBackoffDelay platform (attempt - 1) defaultRetryConfig
                                       (sample w attempt))]
      else []) ++ rest) = List.filter isFileWrite rest.
Proof. destruct (0 <? attempt); reflexivity. Qed.

Lemma httpRequests_backoff (attempt : Z) (w : World) (rest : list Effect) :
  httpRequests
    ((if 0 <? attempt
      then [Sleep (calculateBackoffDelay platform (attempt - 1) defaultRetryConfig
                                       (sample w attempt))]
      else []) ++ rest) = httpRequests rest.
Proof. destruct (0 <? attempt); reflexivity. Qed.

(** The loop makes at most one request per pass, and touches the
    destination only in its last pass. *)
Lemma attemptLoop_bounds (w : World) (urlString filePath : string) (remaining : nat) :
  forall attempt result,
    (httpRequests (snd (attemptLoop platform remaining attempt urlString filePath w result))
       <= remaining)%nat /\
    (length (List.filter isFileWrite
               (snd (attemptLoop platform remaining attempt urlString filePath w result))) <= 3)%nat.
Proof.
  induction remaining as [|rest IH]; intros attempt result.
  - cbn. lia.
  - cbn [attemptLoop].
    destruct (outcome w attempt) as [err | status createErr copyErr].
    + destruct (isRetryableError (Some err) && (attempt <? MaxRetries defaultRetryConfig)).
      * specialize (IH (attempt + 1) (withError (RequestFailed (message err)) attempt result)).
        destruct (attemptLoop platform rest (attempt + 1) urlString filePath w _) as [final later].
        cbn [snd] in *. rewrite httpRequests_backoff, fileWrites_backoff.
        unfold httpRequests in *. cbn. lia.
      * cbn [snd]. rewrite httpRequests_backoff, fileWrites_backoff. cbn. lia.
    + destruct (negb (status =? 200)).
      * destruct (isRetryableHTTPStatus status && (attempt <? MaxRetries defaultRetryConfig)).
        -- specialize (IH (attempt + 1) (withError (HTTPStatus status) attempt result)).
           destruct (attemptLoop platform rest (attempt + 1) urlString filePath w _) as [final later].
           cbn [snd] in *. rewrite httpRequests_backoff, fileWrites_backoff.
           unfold httpRequests in *. cbn. lia.
        -- cbn [snd]. rewrite httpRequests_backoff, fileWrites_backoff. cbn. lia.
      * destruct createErr as [e|]; [|destruct copyErr as [e|]];
          cbn [snd]; rewrite httpRequests_backoff, fileWrites_backoff; cbn; lia.
Qed.

(** A call of [downloadFile] makes at most [MaxRetries + 1] HTTP requests
    and at most three operations on the destination (create, copy,
    remove), whatever the network answers. *)
Theorem downloadFile_request_bound (urlString downloadDir : string)
    (existingFileMap : gmap string bool) (w : World) :
  let trace := snd (downloadFile platform url_Parse filepath_Join urlString downloadDir
                                 existingFileMap w) in
  (Z.of_nat (httpRequests trace) <= MaxRetries defaultRetryConfig + 1) /\
  (length (List.filter isFileWrite trace) <= 3)%nat.
Proof.
  unfold downloadFile. destruct (url_Parse urlString) as [err | path]; [cbn; lia|].
  destruct (mapGet existingFileMap (destinationName path)); [cbn; lia|].
  match goal with |- context [attemptLoop platform ?n ?a ?u ?p ?w ?r] =>
    destruct (attemptLoop_bounds w u p n a r) as [H1 H2] end.
  cbn zeta. split; [|exact H2].
  cbn [MaxRetries defaultRetryConfig] in *. lia.
Qed.

Ltac result_facts :=
  cbn [fst withError withSuccess URL Success Error FilePath Retries
       MaxRetries defaultRetryConfig];
  repeat split; intros; try congruence; try lia.

(** What the loop keeps true of the result it returns. *)
Lemma attemptLoop_result (w : World) (urlString filePath : string) (remaining : nat) :
  forall attempt result,
    0 <= attempt -> attempt + Z.of_nat remaining <= MaxRetries defaultRetryConfig + 1 ->
    Success result = false ->
    let final := fst (attemptLoop platform remaining attempt urlString filePath w result) in
    URL final = URL result /\
    (Success final = false -> Error final <> None /\ FilePath final = FilePath result) /\
    (Success final = true -> FilePath final = filePath) /\
    0 <= Retries final <= MaxRetries defaultRetryConfig.
Proof.
  change (MaxRetries defaultRetryConfig) with 3.
  induction remaining as [|rest IH]; intros attempt result H0 Hmax Hs.
  - cbn [attemptLoop]. result_facts.
  - cbn [attemptLoop].
    destruct (outcome w attempt) as [err | status createErr copyErr].
    + destruct (isRetryableError (Some err) && (attempt <? MaxRetries defaultRetryConfig)).
      * specialize (IH (attempt + 1) (withError (RequestFailed (message err)) attempt result)
                       ltac:(lia) ltac:(lia) Hs).
        destruct (attemptLoop platform rest (attempt + 1) urlString filePath w _) as [final later].
        exact IH.
      * result_facts.
    + destruct (negb (status =? 200)).
      * destruct (isRetryableHTTPStatus status && (attempt <? MaxRetries defaultRetryConfig)).
        -- specialize (IH (attempt + 1) (withError (HTTPStatus status) attempt result)
                          ltac:(lia) ltac:(lia) Hs).
           destruct (attemptLoop platform rest (attempt + 1) urlString filePath w _) as [final later].
           exact IH.
        -- result_facts.
      * destruct createErr as [e|]; [|destruct copyErr as [e|]];
          result_facts.
Qed.

Lemma downloadFile_result_facts (urlString downloadDir : string)
    (existingFileMap : gmap string bool) (w : World) :
  let result := fst (downloadFile platform url_Parse filepath_Join urlString downloadDir
                                  existingFileMap w) in
  URL result = urlString /\
  (Success result = false -> Error result <> None /\ FilePath result = "") /\
  (Success result = true ->
     exists path, url_Parse urlString = inr path /\
                  FilePath result = filepath_Join downloadDir (destinationName path)) /\
  0 <= Retries result <= MaxRetries defaultRetryConfig.
Proof.
  unfold downloadFile. destruct (url_Parse urlString) as [err | path].
  - cbn. repeat split; (discriminate || lia || auto).
  - destruct (mapGet existingFileMap (destinationName path)).
    + cbn. repeat split; (discriminate || lia || eauto).
    + match goal with |- context [attemptLoop platform ?n ?a ?u ?p ?w ?r] =>
        destruct (attemptLoop_result w u p n a r) as (H1 & H2 & H3 & H4);
          [lia | cbn; lia | reflexivity |] end.
      cbn zeta. repeat split; try (apply H2; assumption); try apply H4; [exact H1|].
      intros Hs. exists path. split; [reflexivity | now apply H3].
Qed.

(** Whatever the network and the disk do, the result of [downloadFile]
    names the URL it was given; a failed result carries an error and no
    path; a successful one carries the destination path; and the retry
    count lies between 0 and [MaxRetries]. *)
Theorem downloadFile_result_wellformed (urlString downloadDir : string)
    (existingFileMap : gmap string bool) (w : World) :
  let result := fst (downloadFile platform url_Parse filepath_Join urlString downloadDir
                                  existingFileMap w) in
  URL result = urlString /\
  (Success result = false -> Error result <> None /\ FilePath result = "") /\
  (Success result = true ->
     exists path, url_Parse urlString = inr path /\
                  FilePath result = filepath_Join downloadDir (destinationName path)) /\
  0 <= Retries result <= MaxRetries defaultRetryConfig.
Proof. apply downloadFile_result_facts. Qed.

(** [downloadFiles] returns one result per URL, and the result in slot
    [index] is the one for the URL in slot [index]. *)
Theorem downloadFiles_by_index (urls : list string) (downloadDir : string)
    (concurrency : Z) (existingFileMap : gmap string bool) (worlds : nat -> World) :
  let run := downloadFiles platform url_Parse filepath_Join urls downloadDir concurrency
                           existingFileMap worlds in
  length run = length urls /\
  forall index, URL <$> (fst <$> run !! index) = urls !! index.
Proof.
  cbn zeta. unfold downloadFiles. split; [apply length_imap|].
  intros index. rewrite list_lookup_imap.
  destruct (urls !! index) as [urlString|]; [|reflexivity].
  cbn. f_equal. unfold downloadTask.
  pose proof (downloadFile_result_facts urlString downloadDir existingFileMap
                                        (worlds index)) as H.
  destruct (downloadFile platform url_Parse filepath_Join urlString downloadDir existingFileMap
                         (worlds index)) as [result trace].
  apply H.
Qed.


(** [k] retried passes, with the error they leave in the result. *)
Lemma attemptLoop_retries_full (w : World) (urlString filePath : string) (k : nat) :
  forall (rest : nat) (attempt : Z) (result : DownloadResult),
    Success result = false ->
    attempt + Z.of_nat k <= MaxRetries defaultRetryConfig ->
    (forall j, attempt <= j < attempt + Z.of_nat k ->
               retryableFailure (outcome w j) = true) ->
    exists result' before,
      Success result' = false /\ URL result' = URL result /\
      FilePath result' = FilePath result /\
      Error result' =
        (if decide (k = 0%nat) then Error result
         else Some (failureError (outcome w (attempt + Z.of_nat k - 1)))) /\
      httpRequests before = k /\ List.filter isFileWrite before = [] /\
      fst (attemptLoop platform (k + rest) attempt urlString filePath w result) =
        fst (attemptLoop platform rest (attempt + Z.of_nat k) urlString filePath w result') /\
      snd (attemptLoop platform (k + rest) attempt urlString filePath w result) =
        before ++ snd (attemptLoop platform rest (attempt + Z.of_nat k) urlString filePath w result').
Proof.
  induction k as [|k IH]; intros rest attempt result Hs Hmax Hfail.
  - exists result, []. replace (attempt + Z.of_nat 0) with attempt by lia.
    repeat split; assumption.
  - assert (Hlt : (attempt <? MaxRetries defaultRetryConfig) = true)
      by (apply Z.ltb_lt; lia).
    pose proof (Hfail attempt ltac:(lia)) as Hnow.
    change (S k + rest)%nat with (S (k + rest)). cbn [attemptLoop].
    replace (attempt + Z.of_nat (S k)) with (attempt + 1 + Z.of_nat k) in * by lia.
    assert (Hstep :
      attemptLoop platform (S (k + rest)) attempt urlString filePath w result =
      (fst (attemptLoop platform (k + rest) (attempt + 1) urlString filePath w
              (withError (failureError (outcome w attempt)) attempt result)),
       (if 0 <? attempt
        then [Sleep (calculateBackoffDelay platform (attempt - 1) defaultRetryConfig
                                       (sample w attempt))]
        else []) ++ HTTPGet urlString ::
       snd (attemptLoop platform (k + rest) (attempt + 1) urlString filePath w
              (withError (failureError (outcome w attempt)) attempt result)))).
    { cbn [attemptLoop].
      destruct (outcome w attempt) as [err | status createErr copyErr];
        cbn [retryableFailure failureError] in *.
      - rewrite Hnow, Hlt. cbn [andb].
        now destruct (attemptLoop platform (k + rest) (attempt + 1) urlString filePath w _).
      - apply andb_true_iff in Hnow as [Hne Hretry]. rewrite Hne, Hretry, Hlt. cbn [andb].
        now destruct (attemptLoop platform (k + rest) (attempt + 1) urlString filePath w _). }
    cbn [attemptLoop] in Hstep. rewrite Hstep. cbn [fst snd].
    destruct (IH rest (attempt + 1)
                 (withError (failureError (outcome w attempt)) attempt result))
      as (result' & before & Hs' & Hu & Hp & He & Hreq & Hwr & Hfst & Hsnd);
      [exact Hs | lia | intros j Hj; apply Hfail; lia |].
    exists result',
      ((if 0 <? attempt
        then [Sleep (calculateBackoffDelay platform (attempt - 1) defaultRetryConfig
                                       (sample w attempt))]
        else []) ++ HTTPGet urlString :: before).
    repeat split; [exact Hs' | exact Hu | exact Hp | | | | exact Hfst |].
    + rewrite He. destruct (decide (k = 0%nat)) as [->|Hk].
      * destruct (decide (1%nat = 0%nat)); [lia|]. cbn [withError Error].
        replace (attempt + 1 + Z.of_nat 0 - 1) with attempt by lia. reflexivity.
      * destruct (decide (S k = 0%nat)); [lia | reflexivity].
    + rewrite httpRequests_backoff. unfold httpRequests in *. cbn. now rewrite Hreq.
    + rewrite fileWrites_backoff. exact Hwr.
    + rewrite Hsnd, <- app_assoc. reflexivity.
Qed.

(** A failure that is not worth a retry ends the call at once: after [k]
    retried passes, a transport error outside the retryable ones, or a
    status other than 200 outside the retryable ones, gives a failed
    result with that error and [k] retries, after [k + 1] requests and
    without touching the destination. *)
Theorem downloadFile_permanent_failure
    (urlString downloadDir : string) (existingFileMap : gmap string bool) (w : World)
    (path : string) (k : nat) :
  url_Parse urlString = inr path ->
  mapGet existingFileMap (destinationName path) = false ->
  Z.of_nat k <= MaxRetries defaultRetryConfig ->
  (forall j, 0 <= j < Z.of_nat k -> retryableFailure (outcome w j) = true) ->
  permanentFailure (outcome w (Z.of_nat k)) = true ->
  let run := downloadFile platform url_Parse filepath_Join urlString downloadDir existingFileMap w in
  Success (fst run) = false /\
  Error (fst run) = Some (failureError (outcome w (Z.of_nat k))) /\
  Retries (fst run) = Z.of_nat k /\
  httpRequests (snd run) = S k /\
  List.filter isFileWrite (snd run) = [].
Proof.
  intros Hparse Hidx Hmax Hfail Hperm run. subst run.
  unfold downloadFile. rewrite Hparse, Hidx.
  set (filePath := filepath_Join downloadDir (destinationName path)).
  set (result0 := {| URL := urlString; Success := false; Error := None;
                     FilePath := ""; Retries := 0 |}).
  assert (Hfuel : Z.to_nat (MaxRetries defaultRetryConfig + 1)
                  = (k + S (Z.to_nat (MaxRetries defaultRetryConfig) - k))%nat) by lia.
  rewrite Hfuel.
  destruct (attemptLoop_retries_full w urlString filePath k
              (S (Z.to_nat (MaxRetries defaultRetryConfig) - k)) 0 result0)
    as (result' & before & Hs' & _ & _ & _ & Hreq & Hwr & Hfst & Hsnd);
    [reflexivity | lia | intros j Hj; apply Hfail; lia |].
  rewrite Hfst, Hsnd. clear Hfst Hsnd. replace (0 + Z.of_nat k) with (Z.of_nat k) by lia.
  cbn [attemptLoop].
  destruct (outcome w (Z.of_nat k)) as [err | status createErr copyErr];
    cbn [permanentFailure failureError] in *.
  - apply negb_true_iff in Hperm. rewrite Hperm. cbn [andb fst snd].
    rewrite httpRequests_app, fileWrites_app, Hreq, Hwr,
      httpRequests_backoff, fileWrites_backoff.
    result_facts. cbn. lia.
  - apply andb_true_iff in Hperm as [Hne Hperm]. apply negb_true_iff in Hperm.
    rewrite Hne, Hperm. cbn [andb fst snd].
    rewrite httpRequests_app, fileWrites_app, Hreq, Hwr,
      httpRequests_backoff, fileWrites_backoff.
    result_facts. cbn. lia.
Qed.

(** When every pass fails in a retryable way, the call gives up after
    [MaxRetries + 1] requests: the result is a failure with the error of
    the last pass and [MaxRetries] retries, and the destination was never
    touched. *)
Theorem downloadFile_retries_exhausted
    (urlString downloadDir : string) (existingFileMap : gmap string bool) (w : World)
    (path : string) :
  url_Parse urlString = inr path ->
  mapGet existingFileMap (destinationName path) = false ->
  (forall j, 0 <= j <= MaxRetries defaultRetryConfig ->
             retryableFailure (outcome w j) = true) ->
  let run := downloadFile platform url_Parse filepath_Join urlString downloadDir existingFileMap w in
  Success (fst run) = false /\
  Error (fst run) = Some (failureError (outcome w (MaxRetries defaultRetryConfig))) /\
  Retries (fst run) = MaxRetries defaultRetryConfig /\
  Z.of_nat (httpRequests (snd run)) = MaxRetries defaultRetryConfig + 1 /\
  List.filter isFileWrite (snd run) = [].
Proof.
  intros Hparse Hidx Hfail run. subst run.
  unfold downloadFile. rewrite Hparse, Hidx.
  set (filePath := filepath_Join downloadDir (destinationName path)).
  set (result0 := {| URL := urlString; Success := false; Error := None;
                     FilePath := ""; Retries := 0 |}).
  change (Z.to_nat (MaxRetries defaultRetryConfig + 1)) with (3 + 1)%nat.
  destruct (attemptLoop_retries_full w urlString filePath 3 1 0 result0)
    as (result' & before & Hs' & _ & _ & _ & Hreq & Hwr & Hfst & Hsnd);
    [reflexivity | cbn; lia | intros j Hj; apply Hfail; cbn; lia |].
  rewrite Hfst, Hsnd. clear Hfst Hsnd.
  pose proof (Hfail 3 ltac:(cbn; lia)) as Hlast.
  change (0 + Z.of_nat 3) with 3. change (MaxRetries defaultRetryConfig) with 3.
  cbn [attemptLoop].
  assert (Hno : (3 <? MaxRetries defaultRetryConfig) = false) by reflexivity.
  destruct (outcome w 3) as [err | status createErr copyErr];
    cbn [retryableFailure failureError] in *.
  - rewrite Hno, andb_false_r. cbn [fst snd].
    rewrite httpRequests_app, fileWrites_app, Hreq, Hwr,
      httpRequests_backoff, fileWrites_backoff.
    result_facts.
  - apply andb_true_iff in Hlast as [Hne _]. rewrite Hne, Hno, andb_false_r. cbn [fst snd].
    rewrite httpRequests_app, fileWrites_app, Hreq, Hwr,
      httpRequests_backoff, fileWrites_backoff.
    result_facts.
Qed.

(** A download that succeeds at pass [k], after [k] retried failures,
    returns a successful result with the destination path and [k]
    retries, after [k + 1] requests; the destination file then exists;
    and the result still carries the error of the last failed pass: its
    [Error] field is [nil] only when the first pass succeeded. *)
Theorem downloadFile_success_after_retries
    (urlString downloadDir : string) (existingFileMap : gmap string bool) (w : World)
    (path : string) (k : nat) :
  url_Parse urlString = inr path ->
  mapGet existingFileMap (destinationName path) = false ->
  Z.of_nat k <= MaxRetries defaultRetryConfig ->
  (forall j, 0 <= j < Z.of_nat k -> retryableFailure (outcome w j) = true) ->
  outcome w (Z.of_nat k) = Responds 200 None None ->
  let filePath := filepath_Join downloadDir (destinationName path) in
  let run := downloadFile platform url_Parse filepath_Join urlString downloadDir existingFileMap w in
  Success (fst run) = true /\ FilePath (fst run) = filePath /\
  Retries (fst run) = Z.of_nat k /\
  Error (fst run) =
    (if decide (k = 0%nat) then None
     else Some (failureError (outcome w (Z.of_nat k - 1)))) /\
  httpRequests (snd run) = S k /\
  forall fs, filePath ∈ applyEffects fs (snd run).
Proof.
  intros Hparse Hidx Hmax Hfail Hok filePath run. subst run.
  unfold downloadFile. rewrite Hparse, Hidx. fold filePath.
  set (result0 := {| URL := urlString; Success := false; Error := None;
                     FilePath := ""; Retries := 0 |}).
  assert (Hfuel : Z.to_nat (MaxRetries defaultRetryConfig + 1)
                  = (k + S (Z.to_nat (MaxRetries defaultRetryConfig) - k))%nat) by lia.
  rewrite Hfuel.
  destruct (attemptLoop_retries_full w urlString filePath k
              (S (Z.to_nat (MaxRetries defaultRetryConfig) - k)) 0 result0)
    as (result' & before & Hs' & _ & _ & He & Hreq & Hwr & Hfst & Hsnd);
    [reflexivity | lia | intros j Hj; apply Hfail; lia |].
  rewrite Hfst, Hsnd. clear Hfst Hsnd. replace (0 + Z.of_nat k) with (Z.of_nat k) in * by lia.
  cbn [attemptLoop]. rewrite Hok. cbn [Z.eqb Pos.eqb negb fst snd].
  rewrite httpRequests_app, Hreq, httpRequests_backoff.
  cbn [withSuccess Success FilePath Retries Error].
  repeat split; [exact He | cbn; lia |].
  intros fs. rewrite !applyEffects_app. cbn.
  apply elem_of_union. left. now apply elem_of_singleton.
Qed.

End DownloadMore.

Lemma downloadFile_permanent_failure_witness :
  let parse := fun u : string => @inr string string u in
  let join := fun d f : string => d +:+ "/" +:+ f in
  let w := {| outcome := fun _ => Responds 404 None None; sample := fun _ => Fin 0 |} in
  let run := downloadFile amd64 parse join "https://example.com/a.json.gz" "downloads" ∅ w in
  Error (fst run) = Some (HTTPStatus 404) /\ Retries (fst run) = 0 /\
  httpRequests (snd run) = 1%nat.
Proof.
  intros parse join w run.
  assert (Hidx : mapGet ∅ (destinationName "https://example.com/a.json.gz") = false)
    by (vm_compute; reflexivity).
  destruct (downloadFile_permanent_failure amd64 parse join "https://example.com/a.json.gz"
              "downloads" ∅ w "https://example.com/a.json.gz" 0 eq_refl
              Hidx
              ltac:(vm_compute; discriminate) ltac:(intros j Hj; lia) eq_refl)
    as (_ & He & Hr & Hq & _).
  split; [exact He | split; [exact Hr | exact Hq]].
Defined.

Lemma downloadFile_retries_exhausted_witness :
  let parse := fun u : string => @inr string string u in
  let join := fun d f : string => d +:+ "/" +:+ f in
  let w := {| outcome := fun _ => Responds 503 None None; sample := fun _ => Fin 0 |} in
  let run := downloadFile amd64 parse join "https://example.com/a.json.gz" "downloads" ∅ w in
  Error (fst run) = Some (HTTPStatus 503) /\ Retries (fst run) = 3 /\
  Z.of_nat (httpRequests (snd run)) = 4.
Proof.
  intros parse join w run.
  assert (Hidx : mapGet ∅ (destinationName "https://example.com/a.json.gz") = false)
    by (vm_compute; reflexivity).
  destruct (downloadFile_retries_exhausted amd64 parse join "https://example.com/a.json.gz"
              "downloads" ∅ w "https://example.com/a.json.gz" eq_refl
              Hidx
              ltac:(intros j Hj; reflexivity))
    as (_ & He & Hr & Hq & _).
  split; [exact He | split; [exact Hr | exact Hq]].
Defined.

Lemma downloadFile_success_after_retries_witness :
  let parse := fun u : string => @inr string string u in
  let join := fun d f : string => d +:+ "/" +:+ f in
  let w := {| outcome := fun j => if j =? 0 then Responds 503 None None
                                  else Responds 200 None None;
              sample := fun _ => Fin (1 # 2) |} in
  let run := downloadFile amd64 parse join "https://example.com/a.json.gz" "downloads" ∅ w in
  Success (fst run) = true /\ Retries (fst run) = 1 /\
  Error (fst run) = Some (HTTPStatus 503).
Proof.
  intros parse join w run.
  assert (Hidx : mapGet ∅ (destinationName "https://example.com/a.json.gz") = false)
    by (vm_compute; reflexivity).
  assert (Hfail : forall j, 0 <= j < Z.of_nat 1 -> retryableFailure (outcome w j) = true).
  { intros j Hj. assert (j = 0) as -> by lia. reflexivity. }
  destruct (downloadFile_success_after_retries amd64 parse join "https://example.com/a.json.gz"
              "downloads" ∅ w "https://example.com/a.json.gz" 1 eq_refl
              Hidx
              ltac:(vm_compute; discriminate) Hfail eq_refl)
    as (Hs & _ & Hr & He & _).
  split; [exact Hs | split; [exact Hr | exact He]].
Defined.

(** ** More on the index, file names and the URL list *)

Lemma buildExistingFileMap_values (files : list DirEntry) :
  forall (m : gmap string bool),
    (forall k v, m !! k = Some v -> v = true) ->
    forall k v,
      fold_left (fun fileMap file =>
                   if negb (IsDir file) then <[ Name file := true ]> fileMap else fileMap)
                files m !! k = Some v -> v = true.
Proof.
  induction files as [|file rest IH]; intros m Hm k v; cbn [fold_left]; [apply Hm|].
  apply IH. intros k' v'. destruct (negb (IsDir file)); [|apply Hm].
  destruct (decide (Name file = k')) as [->|Hne].
  - rewrite lookup_insert_eq. congruence.
  - rewrite lookup_insert_ne by exact Hne. apply Hm.
Qed.

(** The index holds exactly the names of the entries that are not
    directories, each with the value [true]; and it is empty when the
    directory cannot be read. *)
Theorem buildExistingFileMap_lookup :
  (forall n, buildExistingFileMap None !! n = None) /\
  (forall files n,
     (buildExistingFileMap (Some files) !! n = Some true <->
      exists file, In file files /\ Name file = n /\ IsDir file = false) /\
     buildExistingFileMap (Some files) !! n <> Some false).
Proof.
  split; [intros n; apply lookup_empty|].
  intros files n.
  pose proof (buildExistingFileMap_true files n) as Htrue.
  pose proof (buildExistingFileMap_values files ∅
                ltac:(intros k v H; rewrite lookup_empty in H; discriminate) n) as Hval.
  unfold mapGet in Htrue. cbn [buildExistingFileMap] in *.
  destruct (fold_left _ files ∅ !! n) as [v|] eqn:Hlook.
  - rewrite (Hval v eq_refl) in *. cbn in Htrue.
    split; [rewrite <- Htrue; tauto | discriminate].
  - cbn in Htrue. split; [rewrite <- Htrue; split; discriminate | discriminate].
Qed.

Lemma countExistingFiles_from (files : list DirEntry) :
  forall count,
    fold_left (fun count file => if negb (IsDir file) then count + 1 else count) files count
    = count + Z.of_nat (length (List.filter (fun file => negb (IsDir file)) files)).
Proof.
  induction files as [|file rest IH]; intros count; cbn [fold_left List.filter].
  - cbn. lia.
  - rewrite IH. destruct (negb (IsDir file)); cbn [length]; lia.
Qed.

Lemma buildExistingFileMap_dom (files : list DirEntry) :
  forall (m : gmap string bool),
    dom (fold_left (fun fileMap file =>
                      if negb (IsDir file) then <[ Name file := true ]> fileMap else fileMap)
                   files m)
    = dom m ∪ list_to_set (Name <$> List.filter (fun file => negb (IsDir file)) files).
Proof.
  induction files as [|file rest IH]; intros m; cbn [fold_left List.filter].
  - cbn. now rewrite (right_id_L ∅ (∪)).
  - rewrite IH. destruct (negb (IsDir file)).
    + rewrite dom_insert_L. cbn [List.filter fmap list_fmap list_to_set].
      rewrite (comm_L (∪) {[Name file]} (dom m)), <- (assoc_L (∪)). reflexivity.
    + reflexivity.
Qed.

Lemma size_names_le (l : list string) :
  (size (list_to_set (C := gset string) l) <= length l)%nat.
Proof.
  induction l as [|x l IH]; cbn [list_to_set length].
  - rewrite size_empty. lia.
  - rewrite size_union_alt, size_singleton.
    assert (size (list_to_set (C := gset string) l ∖ {[x]})
            <= size (list_to_set (C := gset string) l))%nat
      by (apply subseteq_size, subseteq_difference_l; reflexivity).
    lia.
Qed.

(** [countExistingFiles] counts the entries that are not directories; the
    index never has more keys than that, and has exactly as many when
    the names of these entries are distinct, as they are in a directory
    listing. *)
Theorem countExistingFiles_index (files : list DirEntry) :
  let plain := List.filter (fun file => negb (IsDir file)) files in
  countExistingFiles (Some files) = Z.of_nat (length plain) /\
  Z.of_nat (size (buildExistingFileMap (Some files))) <= countExistingFiles (Some files) /\
  (NoDup (Name <$> plain) ->
   Z.of_nat (size (buildExistingFileMap (Some files))) = countExistingFiles (Some files)).
Proof.
  cbn zeta. unfold countExistingFiles. rewrite countExistingFiles_from, Z.add_0_l.
  assert (Hsize : size (buildExistingFileMap (Some files)) =
                  size (list_to_set (C := gset string)
                          (Name <$> List.filter (fun file => negb (IsDir file)) files))).
  { rewrite <- size_dom. cbn [buildExistingFileMap].
    rewrite buildExistingFileMap_dom, dom_empty_L, (left_id_L ∅ (∪)). reflexivity. }
  rewrite Hsize. split; [reflexivity | split].
  - pose proof (size_names_le
                  (Name <$> List.filter (fun file => negb (IsDir file)) files)) as H.
    rewrite length_fmap in H. lia.
  - intros Hnd. rewrite size_list_to_set by exact Hnd. now rewrite length_fmap.
Qed.

Lemma countExistingFiles_index_witness :
  let files := [ {| Name := "a.json.gz"; IsDir := false |};
                 {| Name := "old"; IsDir := true |};
                 {| Name := "b.json.gz"; IsDir := false |} ] in
  Z.of_nat (size (buildExistingFileMap (Some files))) = countExistingFiles (Some files).
Proof.
  intros files.
  refine (proj2 (proj2 (countExistingFiles_index files)) _).
  apply (bool_decide_unpack _). vm_compute. exact I.
Defined.

Lemma string_app_assoc (a b c : string) : (a +:+ b) +:+ c = a +:+ (b +:+ c).
Proof.
  induction a as [|x a IH]; [reflexivity|].
  change (String x ((a +:+ b) +:+ c) = String x (a +:+ (b +:+ c))). now rewrite IH.
Qed.

Lemma HasPrefix_slash (c : ascii) (s : string) :
  HasPrefix (String c s) "/" = Ascii.eqb c "/"%char.
Proof.
  destruct (Ascii.eqb_spec c "/"%char) as [->|Hne].
  - apply HasPrefix_app. exists s. reflexivity.
  - destruct (HasPrefix (String c s) "/") eqn:H; [|reflexivity].
    apply HasPrefix_app in H as [rest H]. injection H as H _. contradiction.
Qed.

Lemma Contains_slash_cons (c : ascii) (s : string) :
  Contains (String c s) "/" = Ascii.eqb c "/"%char || Contains s "/".
Proof. cbn [Contains]. now rewrite HasPrefix_slash. Qed.

Lemma Contains_slash_app (a b : string) :
  Contains (a +:+ b) "/" = Contains a "/" || Contains b "/".
Proof.
  induction a as [|c a IH].
  - destruct b; reflexivity.
  - change (String c a +:+ b) with (String c (a +:+ b)).
    rewrite !Contains_slash_cons, IH, orb_assoc. reflexivity.
Qed.

Lemma string_app_nil_l (s : string) : "" +:+ s = s.
Proof. reflexivity. Qed.

Lemma string_app_cons (c : ascii) (a b : string) : String c a +:+ b = String c (a +:+ b).
Proof. reflexivity. Qed.

Lemma string_app_nil_r (s : string) : s +:+ "" = s.
Proof. induction s as [|c s IH]; [reflexivity | now rewrite string_app_cons, IH]. Qed.

Lemma lastSegmentFrom_facts (s : string) :
  forall acc,
    Contains acc "/" = false ->
    Contains (lastSegmentFrom acc s) "/" = false /\
    exists before, acc +:+ s = before +:+ lastSegmentFrom acc s.
Proof.
  induction s as [|c s IH]; intros acc Hacc; cbn [lastSegmentFrom].
  - split; [exact Hacc|]. exists "". now rewrite string_app_nil_r, string_app_nil_l.
  - destruct (Ascii.eqb c "/") eqn:Hc.
    + destruct (IH "" eq_refl) as [H1 [before H2]]. split; [exact H1|].
      rewrite string_app_nil_l in H2.
      exists (acc +:+ String c "" +:+ before).
      rewrite !string_app_assoc, string_app_cons, string_app_nil_l, <- H2. reflexivity.
    + destruct (IH (acc +:+ String c "")) as [H1 [before H2]].
      * rewrite Contains_slash_app, Hacc, Contains_slash_cons, Hc. reflexivity.
      * split; [exact H1|]. exists before.
        rewrite <- H2, string_app_assoc, string_app_cons, string_app_nil_l. reflexivity.
Qed.

(** The file name derived from a URL path is never empty and never
    contains a slash; unless the path ends with a slash (or is empty),
    when the name is [unknown_file], it is the end of the path. *)
Theorem destinationName_safe (path : string) :
  destinationName path <> "" /\
  Contains (destinationName path) "/" = false /\
  (lastPathPart path <> "" -> exists before, path = before +:+ destinationName path).
Proof.
  unfold destinationName.
  destruct (lastSegmentFrom_facts path "" eq_refl) as [Hslash [before Hsuffix]].
  fold (lastPathPart path) in *. rewrite string_app_nil_l in Hsuffix.
  destruct (String.eqb_spec (lastPathPart path) "") as [Heq|Hne].
  - split; [discriminate | split; [reflexivity | congruence]].
  - split; [exact Hne | split; [exact Hslash | eauto]].
Qed.

Lemma destinationName_safe_witness :
  exists before, "/mrf/2025/in-network.json.gz" = before +:+ destinationName "/mrf/2025/in-network.json.gz".
Proof.
  refine (proj2 (proj2 (destinationName_safe "/mrf/2025/in-network.json.gz")) _).
  vm_compute. discriminate.
Defined.

(** ** More on the retry classifier, the escapes and the backoff *)

Lemma lowerByte_idem (c : ascii) : lowerByte (lowerByte c) = lowerByte c.
Proof. destruct c as [[] [] [] [] [] [] [] []]; reflexivity. Qed.

Lemma ToLower_idem (s : string) : ToLower (ToLower s) = ToLower s.
Proof.
  induction s as [|c s IH]; [reflexivity|].
  cbn [ToLower]. now rewrite lowerByte_idem, IH.
Qed.

Lemma ToLower_app (a b : string) : ToLower (a +:+ b) = ToLower a +:+ ToLower b.
Proof.
  induction a as [|c a IH]; [reflexivity|].
  rewrite string_app_cons. cbn [ToLower]. now rewrite IH, string_app_cons.
Qed.

(** Retryability survives wrapping and ignores letter case: an error
    whose message embeds the message of a retryable error, with any text
    before and after it, is retryable too, and an error is retryable
    exactly when its lower-cased message is. *)
Theorem isRetryableError_wrapped (e : GoError) :
  (forall k before after,
     isRetryableError (Some e) = true ->
     isRetryableError
       (Some {| kind := k; message := before +:+ message e +:+ after |}) = true) /\
  (forall k,
     isRetryableError (Some {| kind := k; message := ToLower (message e) |}) =
     isRetryableError (Some e)).
Proof.
  split.
  - intros k before after He. unfold isRetryableError in *. cbn [message].
    apply existsb_exists in He as (phrase & Hin & Hc). apply existsb_exists.
    exists phrase. split; [exact Hin|].
    apply Contains_app in Hc as (b & a & Hc). apply Contains_app.
    exists (ToLower before +:+ b), (a +:+ ToLower after).
    rewrite !ToLower_app, Hc, !string_app_assoc. reflexivity.
  - intros k. unfold isRetryableError. cbn [message]. now rewrite ToLower_idem.
Qed.

Lemma isRetryableError_wrapped_witness :
  isRetryableError
    (Some {| kind := OtherKind;
             message := "HTTP request failed: " +:+ "read tcp: connection reset by peer" +:+ "" |})
  = true.
Proof.
  exact (proj1 (isRetryableError_wrapped
                  {| kind := ConnectionReset; message := "read tcp: connection reset by peer" |})
               OtherKind "HTTP request failed: " "" eq_refl).
Defined.

(** [ReplaceAll] leaves a string alone when the text to replace does not
    occur in it. *)
Lemma replaceFrom_absent (s old new : string) :
  Contains s old = false -> replaceFrom O s old new = s.
Proof.
  induction s as [|c s IH]; intros H; cbn [replaceFrom]; [reflexivity|].
  cbn [Contains] in H. apply orb_false_iff in H as [Hp Hc].
  rewrite Hp, (IH Hc). reflexivity.
Qed.

Lemma Contains_longer (s first rest : string) :
  Contains s first = false -> Contains s (first +:+ rest) = false.
Proof.
  intros H. destruct (Contains s (first +:+ rest)) eqn:Hc; [|reflexivity].
  apply Contains_app in Hc as (b & a & Hc).
  assert (Contains s first = true); [|congruence].
  apply Contains_app. exists b, (rest +:+ a). now rewrite Hc, !string_app_assoc.
Qed.

(** A string without a backslash comes out of [fixUnicodeEscapes]
    unchanged, and so does any string in which none of the four escapes
    occurs. *)
Theorem fixUnicodeEscapes_unchanged (str : string) :
  (Contains str "\u0026" = false -> Contains str "\u003d" = false ->
   Contains str "\u003f" = false -> Contains str "\u007e" = false ->
   fixUnicodeEscapes str = str) /\
  (Contains str "\" = false -> fixUnicodeEscapes str = str).
Proof.
  assert (Hmain : Contains str "\u0026" = false -> Contains str "\u003d" = false ->
                  Contains str "\u003f" = false -> Contains str "\u007e" = false ->
                  fixUnicodeEscapes str = str).
  { intros H1 H2 H3 H4. unfold fixUnicodeEscapes, ReplaceAll.
    now rewrite (replaceFrom_absent _ _ _ H1), (replaceFrom_absent _ _ _ H2),
      (replaceFrom_absent _ _ _ H3), (replaceFrom_absent _ _ _ H4). }
  split; [exact Hmain|]. intros H.
  apply Hmain.
  - exact (Contains_longer str "\" "u0026" H).
  - exact (Contains_longer str "\" "u003d" H).
  - exact (Contains_longer str "\" "u003f" H).
  - exact (Contains_longer str "\" "u007e" H).
Qed.

Lemma fixUnicodeEscapes_unchanged_witness :
  fixUnicodeEscapes "https://example.com/a?x=1&y=2" = "https://example.com/a?x=1&y=2".
Proof.
  exact (proj2 (fixUnicodeEscapes_unchanged "https://example.com/a?x=1&y=2") eq_refl).
Defined.

Lemma HasPrefix_cons (c a : ascii) (s p : string) :
  HasPrefix (String c s) (String a p) = if ascii_dec a c then HasPrefix s p else false.
Proof. reflexivity. Qed.

(** One replacement of an escape that starts with a backslash by a
    single byte: a first byte other than the backslash stays in place,
    and a backslash stays or gives way to the new byte. *)
Lemma ReplaceAll_head (c n : ascii) (s old' : string) :
  (c <> "\"%char ->
   ReplaceAll (String c s) (String "\" old') (String n "") =
   String c (ReplaceAll s (String "\" old') (String n ""))) /\
  exists c' t, ReplaceAll (String c s) (String "\" old') (String n "") = String c' t /\
               (c' = c \/ c' = n).
Proof.
  unfold ReplaceAll. cbn [replaceFrom]. rewrite HasPrefix_cons.
  destruct (ascii_dec "\" c) as [<-|Hne].
  - split; [congruence|]. destruct (HasPrefix s old'); eauto.
  - split; [reflexivity | eauto].
Qed.

Lemma fixUnicodeEscapes_head (c : ascii) (s : string) :
  (c <> "\"%char -> fixUnicodeEscapes (String c s) = String c (fixUnicodeEscapes s)) /\
  exists c' t, fixUnicodeEscapes (String c s) = String c' t /\
               (c' = c \/ In c' ["&"; "="; "?"; "~"]%char).
Proof.
  unfold fixUnicodeEscapes. split.
  - intros Hc.
    rewrite (proj1 (ReplaceAll_head c "&" s "u0026") Hc).
    rewrite (proj1 (ReplaceAll_head c "=" _ "u003d") Hc).
    rewrite (proj1 (ReplaceAll_head c "?" _ "u003f") Hc).
    rewrite (proj1 (ReplaceAll_head c "~" _ "u007e") Hc). reflexivity.
  - destruct (proj2 (ReplaceAll_head c "&" s "u0026")) as (c1 & t1 & -> & H1).
    destruct (proj2 (ReplaceAll_head c1 "=" t1 "u003d")) as (c2 & t2 & -> & H2).
    destruct (proj2 (ReplaceAll_head c2 "?" t2 "u003f")) as (c3 & t3 & -> & H3).
    destruct (proj2 (ReplaceAll_head c3 "~" t3 "u007e")) as (c4 & t4 & -> & H4).
    exists c4, t4. split; [reflexivity|]. cbn [In].
    intuition congruence.
Qed.

Lemma fixUnicodeEscapes_prefix (p : string) :
  Forall (fun a => ~ In a ["\"; "&"; "="; "?"; "~"]%char) (list_ascii_of_string p) ->
  forall s, HasPrefix (fixUnicodeEscapes s) p = HasPrefix s p.
Proof.
  induction p as [|a p IH]; intros Hp s.
  - unfold HasPrefix. now destruct s, (fixUnicodeEscapes _).
  - cbn [list_ascii_of_string] in Hp. apply Forall_cons in Hp as [Ha Hp].
    destruct s as [|c s]; [reflexivity|].
    destruct (ascii_dec c "\") as [->|Hc].
    + destruct (proj2 (fixUnicodeEscapes_head "\" s)) as (c' & t & -> & Hc').
      rewrite !HasPrefix_cons.
      destruct (ascii_dec a "\") as [Heq|_]; [exfalso; apply Ha; now left|].
      destruct (ascii_dec a c') as [Heq|_]; [|reflexivity].
      exfalso. apply Ha. subst c'. destruct Hc' as [Hc'|Hc']; [now left | now right].
    + rewrite (proj1 (fixUnicodeEscapes_head c s) Hc), !HasPrefix_cons.
      destruct (ascii_dec a c); [now apply IH | reflexivity].
Qed.

(** Replacing the escapes never changes whether a line counts as a URL:
    the cleaned line starts with [http://] or [https://] exactly when the
    line itself does.  So a line is kept exactly when it is not empty,
    is not a comment and is a URL as written. *)
Theorem fixUnicodeEscapes_keeps_isURL (line : string) :
  isURL (fixUnicodeEscapes line) = isURL line /\
  acceptedLine line =
    negb (String.eqb line "") && negb (HasPrefix line "#") && isURL line.
Proof.
  assert (H : isURL (fixUnicodeEscapes line) = isURL line).
  { unfold isURL. rewrite !fixUnicodeEscapes_prefix; [reflexivity | |];
      cbn [list_ascii_of_string]; repeat constructor;
      cbn [In]; intros Hin; decompose [or] Hin; discriminate || assumption. }
  split; [exact H|]. unfold acceptedLine. now rewrite H.
Qed.

(** Every URL [loadURLsFromFile] returns starts with [http://] or
    [https://], and it returns no more URLs than the file has lines. *)
Theorem loadURLsFromFile_only_urls (file : ScannedFile) (urls : list string) :
  loadURLsFromFile (inr file) = inr urls ->
  Forall (fun u => isURL u = true) urls /\
  (length urls <= length (scannedLines file))%nat.
Proof.
  unfold loadURLsFromFile. rewrite scanLines_acc, app_nil_l.
  destruct (scannerErr file); [discriminate|]. intros H. injection H as <-.
  split.
  - apply Forall_fmap, Forall_forall. intros line Hin.
    apply list_elem_of_In, List.filter_In in Hin as [_ Hacc].
    unfold acceptedLine in Hacc. now apply andb_true_iff in Hacc as [_ ?].
  - rewrite length_fmap. apply List.filter_length_le.
Qed.

Lemma loadURLsFromFile_only_urls_witness :
  Forall (fun u => isURL u = true) ["https://example.com/a"].
Proof.
  exact (proj1 (loadURLsFromFile_only_urls
                  {| scannedLines := ["x"; "https://example.com/a"]; scannerErr := None |}
                  ["https://example.com/a"] eq_refl)).
Defined.

(** ** More on the scanners *)

(** Induction over JSON values that reaches inside arrays and objects. *)
Lemma JSON_nested_ind (P : JSON -> Prop) :
  P JNull -> (forall b, P (JBool b)) -> (forall n, P (JNumber n)) ->
  (forall s, P (JString s)) ->
  (forall items, Forall P items -> P (JArray items)) ->
  (forall members, Forall (fun kv => P (snd kv)) members -> P (JObject members)) ->
  forall d, P d.
Proof.
  intros Hnull Hbool Hnum Hstr Harr Hobj.
  fix IH 1. intros [| b | n | s | items | members].
  - exact Hnull.
  - apply Hbool.
  - apply Hnum.
  - apply Hstr.
  - apply Harr. induction items as [|x items IHitems]; constructor; [apply IH | exact IHitems].
  - apply Hobj. induction members as [|[k x] members IHm]; constructor;
      [apply IH | exact IHm].
Qed.

Lemma search_found (d : JSON) :
  forall v, In v (search d) -> isMatch v = true /\ occursIn (JObject v) d.
Proof.
  induction d as [| b | n | s | items IH | members IH] using JSON_nested_ind;
    intros v Hin; cbn [search] in Hin; try contradiction.
  - apply in_flat_map in Hin as (x & Hx & Hv).
    rewrite Forall_forall in IH.
    destruct (IH x ltac:(now apply list_elem_of_In) v Hv) as [Hm Ho].
    split; [exact Hm | eapply occurs_item; eauto].
  - apply in_app_or in Hin as [Hin | Hin].
    + destruct (isMatch members) eqn:Hm; [|contradiction].
      destruct Hin as [<- | []]. split; [exact Hm | constructor].
    + apply in_flat_map in Hin as ([k x] & Hx & Hv).
      rewrite Forall_forall in IH.
      destruct (IH (k, x) ltac:(now apply list_elem_of_In) v Hv) as [Hm Ho].
      split; [exact Hm | eapply occurs_member; eauto].
Qed.

Lemma search_finds (v : record) (d : JSON) :
  occursIn (JObject v) d -> isMatch v = true -> In v (search d).
Proof.
  intros Ho Hm. induction Ho as [| members k x Hin Ho IH | items x Hin Ho IH].
  - cbn [search]. rewrite Hm. now left.
  - cbn [search]. apply in_or_app. right. apply in_flat_map. exists (k, x). auto.
  - cbn [search]. apply in_flat_map. exists x. auto.
Qed.

(** The recursive search returns exactly the objects, at any depth of
    the value, whose [billing_code] is a string of the target set. *)
Theorem findMatchingObjectsRecursive_exact (data : JSON) (v : record) :
  In v (findMatchingObjectsRecursive data) <->
  isMatch v = true /\ occursIn (JObject v) data.
Proof.
  unfold findMatchingObjectsRecursive. split.
  - apply search_found.
  - intros [Hm Ho]. now apply search_finds.
Qed.

Lemma structuredLoop_acc (records : list JSON) :
  forall matches, structuredLoop records matches = matches ++ structuredLoop records [].
Proof.
  induction records as [|r rest IH]; intros matches; cbn [structuredLoop].
  - now rewrite app_nil_r.
  - destruct r as [| | | | |m]; try apply IH.
    destruct (isMatch m); [|apply IH].
    rewrite (IH (matches ++ [m])). cbn [app]. rewrite (IH [m]), <- app_assoc. reflexivity.
Qed.

(** The structured search looks at the top-level records of an array
    only: what it returns is, in order, part of what the recursive search
    returns, every record it returns is a matching element of the array,
    and on a value that is not an array it is the recursive search. *)
Theorem findMatchingObjectsStructured_within (data : JSON) :
  sublist (findMatchingObjectsStructured data) (findMatchingObjectsRecursive data) /\
  (forall records v, data = JArray records ->
     (In v (findMatchingObjectsStructured data) <->
      isMatch v = true /\ In (JObject v) records)) /\
  ((forall records, data <> JArray records) ->
   findMatchingObjectsStructured data = findMatchingObjectsRecursive data).
Proof.
  split; [|split].
  - destruct data as [| b | n | s | records | members]; try reflexivity.
    unfold findMatchingObjectsStructured, findMatchingObjectsRecursive. cbn [search].
    induction records as [|r rest IH]; [reflexivity|].
    cbn [structuredLoop flat_map].
    destruct r as [| | | | |m]; try (now apply sublist_inserts_l).
    cbn [search]. destruct (isMatch m).
    + rewrite structuredLoop_acc. cbn [app]. apply sublist_skip.
      now apply sublist_inserts_l.
    + cbn [app]. now apply sublist_inserts_l.
  - intros records v ->. unfold findMatchingObjectsStructured.
    induction records as [|r rest IH]; cbn [structuredLoop].
    + cbn. tauto.
    + destruct r as [| | | | |m];
        try (rewrite IH; cbn [In]; split;
             [intros [? ?]; auto | intros [? [?|?]]; [discriminate | auto]]).
      destruct (isMatch m) eqn:Hm.
      * rewrite structuredLoop_acc. cbn [app In]. rewrite IH. split.
        -- intros [<- | [? ?]]; auto.
        -- intros [? [Heq | ?]]; [injection Heq as ->; auto | auto].
      * rewrite IH. cbn [In]. split; [intros [? ?]; auto|].
        intros [? [Heq | ?]]; [injection Heq as ->; congruence | auto].
  - intros Hnot. destruct data; try reflexivity. exfalso. eapply Hnot. reflexivity.
Qed.

Lemma findMatchingObjectsStructured_within_witness :
  let hit : record := [("billing_code", JString "99285")] in
  In hit (findMatchingObjectsStructured (JArray [JNull; JObject hit])).
Proof.
  intros hit.
  refine (proj2 (proj1 (proj2 (findMatchingObjectsStructured_within
                                 (JArray [JNull; JObject hit])))
                       [JNull; JObject hit] hit eq_refl) _).
  split; [vm_compute; reflexivity | right; left; reflexivity].
Defined.

Lemma appended_nil (out : Sink) : appended out out [].
Proof.
  unfold appended. rewrite app_nil_r. split; [reflexivity|].
  destruct (room out) as [k|]; [|reflexivity]. cbn. split; [lia | f_equal; lia].
Qed.

Lemma appended_Encode (out out' out2 : Sink) (v : record) (added : list record) :
  Encode out v = inr out' -> appended out' out2 added -> appended out out2 (v :: added).
Proof.
  unfold Encode, appended. intros He [Hem Hroom].
  destruct (room out) as [[|k]|]; [discriminate | |]; injection He as <-;
    cbn [emitted room] in *.
  - rewrite Hem, <- app_assoc. split; [reflexivity|].
    destruct Hroom as [Hlen ->]. cbn [length]. split; [lia | f_equal; lia].
  - rewrite Hem, <- app_assoc. split; [reflexivity | exact Hroom].
Qed.

Lemma appended_app (out out1 out2 : Sink) (a1 a2 : list record) :
  appended out out1 a1 -> appended out1 out2 a2 -> appended out out2 (a1 ++ a2).
Proof.
  unfold appended. intros [H1 R1] [H2 R2]. rewrite H2, H1, <- app_assoc.
  split; [reflexivity|]. rewrite length_app.
  destruct (room out) as [k|].
  - destruct R1 as [L1 R1]. rewrite R1 in R2. destruct R2 as [L2 ->].
    split; [lia | f_equal; lia].
  - rewrite R1 in R2. exact R2.
Qed.

Lemma encodeAll_appended (matches : list record) :
  forall n out,
    exists added rest,
      matches = added ++ rest /\
      appended out (encodeAll matches n out).2 added /\
      (encodeAll matches n out).1.1 = n + Z.of_nat (length added) /\
      ((encodeAll matches n out).1.2 = None -> rest = []).
Proof.
  induction matches as [|m ms IH]; intros n out; cbn [encodeAll].
  - exists [], []. cbn [fst snd length app].
    split; [reflexivity | split; [apply appended_nil | split; [lia | reflexivity]]].
  - destruct (Encode out m) as [cause | out'] eqn:He.
    + exists [], (m :: ms). cbn [fst snd length app].
      split; [reflexivity | split; [apply appended_nil | split; [lia | discriminate]]].
    + destruct (IH (n + 1) out') as (added & rest & -> & Happ & Hn & Hrest).
      exists (m :: added), rest. split; [reflexivity | split; [|split]].
      * eapply appended_Encode; eauto.
      * rewrite Hn. cbn [length]. lia.
      * exact Hrest.
Qed.

Ltac stop_here :=
  exists []; cbn [count sink];
  split; [apply appended_nil | split; [cbn [length]; lia | constructor]].

Lemma arrayLoop_writes (fuel : nat) :
  forall ds defect n out warned r,
    arrayLoop fuel ds defect n out warned = Some r ->
    exists added,
      appended out (sink r) added /\
      count r = n + Z.of_nat (length added) /\
      Forall (fun v => isMatch v = true) added.
Proof.
  induction fuel as [|fuel IH]; intros ds defect n out warned r Hr; [discriminate|].
  cbn [arrayLoop] in Hr. destruct ds as [|[cause|v] rest].
  - destruct defect as [[cause more]|].
    + destruct more; [now apply IH in Hr|]. injection Hr as <-. stop_here.
    + injection Hr as <-. stop_here.
  - now apply IH in Hr.
  - destruct (isMatch v) eqn:Hm; [|now apply IH in Hr].
    destruct (Encode out v) as [cause | out'] eqn:He; [injection Hr as <-; stop_here|].
    apply IH in Hr as (added & Happ & Hn & Hall).
    exists (v :: added). split; [|split].
    + eapply appended_Encode; eauto.
    + rewrite Hn. cbn [length]. lia.
    + now constructor.
Qed.

Lemma sgpArrayLoop_writes (ds : list (string + record)) (defect : option (string * bool)) :
  forall n out,
    exists added,
      appended out (sink (sgpArrayLoop ds defect n out)) added /\
      count (sgpArrayLoop ds defect n out) = n + Z.of_nat (length added) /\
      Forall (fun v => isMatch v = true) added.
Proof.
  induction ds as [|[cause|v] rest IH]; intros n out; cbn [sgpArrayLoop].
  - destruct defect as [[cause more]|]; stop_here.
  - stop_here.
  - destruct (isMatch v) eqn:Hm; [|apply IH].
    destruct (Encode out v) as [cause | out'] eqn:He; [stop_here|].
    destruct (IH (n + 1) out') as (added & Happ & Hn & Hall).
    exists (v :: added). split; [|split].
    + eapply appended_Encode; eauto.
    + rewrite Hn. cbn [length]. lia.
    + now constructor.
Qed.

Lemma search_all_match (d : JSON) : Forall (fun v => isMatch v = true) (search d).
Proof. apply Forall_forall. intros v Hv. apply list_elem_of_In in Hv. now apply search_found in Hv. Qed.

Lemma processObjectsLoop_writes (ds : list (string + record))
    (defect : option (string * bool)) :
  forall n out,
    exists added,
      appended out (sink (processObjectsLoop ds defect n out)) added /\
      count (processObjectsLoop ds defect n out) = n + Z.of_nat (length added) /\
      Forall (fun v => isMatch v = true) added.
Proof.
  induction ds as [|[cause|v] rest IH]; intros n out; cbn [processObjectsLoop].
  - destruct defect as [[cause more]|]; stop_here.
  - stop_here.
  - destruct (isMatch v) eqn:Hm.
    + destruct (Encode out v) as [cause | out'] eqn:He; [stop_here|].
      destruct (IH (n + 1) out') as (added & Happ & Hn & Hall).
      exists (v :: added). split; [|split].
      * eapply appended_Encode; eauto.
      * rewrite Hn. cbn [length]. lia.
      * now constructor.
    + destruct (encodeAll_appended (findMatchingObjectsRecursive (JObject v)) n out)
        as (a1 & rest1 & Hsplit & Happ1 & Hn1 & _).
      assert (Hall1 : Forall (fun v => isMatch v = true) a1).
      { pose proof (search_all_match (JObject v)) as H.
        unfold findMatchingObjectsRecursive in Hsplit. rewrite Hsplit in H.
        now apply Forall_app in H as [? _]. }
      destruct (encodeAll (findMatchingObjectsRecursive (JObject v)) n out)
        as [[n' e] out'].
      cbn [fst snd] in *. destruct e as [cause|].
      * exists a1. cbn [count sink]. split; [|split]; assumption.
      * destruct (IH n' out') as (a2 & Happ2 & Hn2 & Hall2).
        exists (a1 ++ a2). split; [|split].
        -- eapply appended_app; eauto.
        -- rewrite Hn2, Hn1, length_app. lia.
        -- now apply Forall_app.
Qed.

Lemma arrayLoop_total (ds : list (string + record)) (defect : option (string * bool)) :
  (forall cause, defect <> Some (cause, true)) ->
  forall fuel n out warned,
    (length ds < fuel)%nat ->
    exists r, arrayLoop fuel ds defect n out warned = Some r.
Proof.
  intros Hdefect.
  induction ds as [|[cause|v] rest IH]; intros fuel n out warned Hfuel;
    (destruct fuel as [|fuel]; [cbn [length] in Hfuel; lia|]);
    cbn [arrayLoop]; cbn [length] in Hfuel.
  - destruct defect as [[cause [|]]|]; [now destruct (Hdefect cause) | |]; eauto.
  - apply IH. lia.
  - destruct (isMatch v); [|apply IH; lia].
    destruct (Encode out v); [eauto | apply IH; lia].
Qed.

(** Both scanners count what they write and write only matches: whatever
    the input and the sink, when a scan returns, the sink afterwards is
    the sink before with some records added at its end, the returned
    count is their number (also when the scan ends in an error), each of
    them has a [billing_code] of the target set, and no more are added
    than the sink has room for.  The gzip scanner always returns; the
    plain-JSON scanner returns, within one pass per element and one more,
    unless the input has a defect after which [decoder.More()] stays
    true. *)
Theorem scanners_count_their_writes :
  (forall fuel opened writer r,
     processFileAndWriteMatches fuel opened writer = Some r ->
     exists added,
       appended writer (sink r) added /\
       count r = Z.of_nat (length added) /\
       Forall (fun v => isMatch v = true) added) /\
  (forall fuel file writer,
     (forall cause, defect file <> Some (cause, true)) ->
     (length (decodes file) < fuel)%nat ->
     exists r, processFileAndWriteMatches fuel (inr file) writer = Some r) /\
  (forall file writer,
     exists added,
       appended writer (sink (ProcessMatches file writer)) added /\
       count (ProcessMatches file writer) = Z.of_nat (length added) /\
       Forall (fun v => isMatch v = true) added).
Proof.
  split; [|split].
  - intros fuel opened writer r. unfold processFileAndWriteMatches.
    destruct opened as [cause | file]; [intros [= <-]; stop_here|].
    destruct (leading file) as [cause | [firstChar|]];
      [intros [= <-]; stop_here | | intros [= <-]; stop_here].
    destruct (Ascii.eqb firstChar "[").
    + destruct (openToken file); [intros [= <-]; stop_here|].
      intros Hr. apply arrayLoop_writes in Hr as (added & H1 & H2 & H3).
      exists added. rewrite H2. split; [|split]; (assumption || lia).
    + destruct (Ascii.eqb firstChar "{"); [|intros [= <-]; stop_here].
      destruct (decodes file) as [|[cause | data] rest];
        [destruct (defect file) as [[cause more]|]; intros [= <-]; stop_here
        | intros [= <-]; stop_here |].
      destruct (encodeAll_appended (findMatchingObjectsRecursive (JObject data)) 0 writer)
        as (added & rest1 & Hsplit & Happ & Hn & _).
      assert (Hall : Forall (fun v => isMatch v = true) added).
      { pose proof (search_all_match (JObject data)) as H.
        unfold findMatchingObjectsRecursive in Hsplit. rewrite Hsplit in H.
        now apply Forall_app in H as [? _]. }
      destruct (encodeAll (findMatchingObjectsRecursive (JObject data)) 0 writer)
        as [[n e] out].
      intros [= <-].
      cbn [fst snd count sink] in *. exists added. split; [|split]; (assumption || lia).
  - intros fuel file writer Hdefect Hfuel. unfold processFileAndWriteMatches.
    destruct (leading file) as [cause | [firstChar|]]; [eauto | | eauto].
    destruct (Ascii.eqb firstChar "[").
    + destruct (openToken file); [eauto|]. now apply arrayLoop_total.
    + destruct (Ascii.eqb firstChar "{"); [|eauto].
      destruct (decodes file) as [|[cause | data] rest];
        [destruct (defect file) as [[cause more]|]; eauto | eauto |].
      destruct (encodeAll (findMatchingObjectsRecursive (JObject data)) 0 writer)
        as [[n e] out]. eauto.
  - intros file writer. unfold ProcessMatches.
    destruct (leading file) as [cause | [firstByte|]]; [stop_here | | stop_here].
    destruct (Ascii.eqb firstByte "[").
    + unfold processArray. destruct (openToken file); [stop_here|].
      destruct (sgpArrayLoop_writes (decodes file) (defect file) 0 writer)
        as (added & H1 & H2 & H3).
      exists added. rewrite H2. split; [|split]; (assumption || lia).
    + destruct (Ascii.eqb firstByte "{"); [|stop_here].
      unfold processObjects.
      destruct (processObjectsLoop_writes (decodes file) (defect file) 0 writer)
        as (added & H1 & H2 & H3).
      exists added. rewrite H2. split; [|split]; (assumption || lia).
Qed.

Lemma scanners_count_their_writes_witness :
  let hit : record := [("billing_code", JString "99283")] in
  let miss : record := [("billing_code", JString "00000")] in
  let out := {| emitted := []; room := Some 1%nat |} in
  exists added,
    appended out {| emitted := [hit]; room := Some 0%nat |} added /\
    1 = Z.of_nat (length added) /\
    Forall (fun v => isMatch v = true) added.
Proof.
  intros hit miss out.
  exact (proj1 scanners_count_their_writes 4%nat
           (inr (arrayStream [inr miss; inr hit; inr hit])) out
           {| count := 1; scanErr := Some (WriteMatch "write failed");
              sink := {| emitted := [hit]; room := Some 0%nat |}; warnings := [] |}
           eq_refl).
Defined.

Lemma arrayScan_clean (records : list record) :
  forall n out,
    arrayScan (inr <$> records) n out [] = sgpArrayLoop (inr <$> records) None n out.
Proof.
  induction records as [|v rest IH]; intros n out; cbn [fmap list_fmap arrayScan sgpArrayLoop].
  - reflexivity.
  - destruct (isMatch v); [|apply IH].
    destruct (Encode out v); [reflexivity | apply IH].
Qed.

(** On an array whose elements all decode, the two scanners do the same
    thing: the plain-JSON scanner returns, after one pass per element and
    one more, what the gzip scanner returns; and when the sink accepts
    every write, they add, in order, exactly the elements whose
    [billing_code] is in the target set and return their number without
    error. *)
Theorem scanners_agree_on_clean_arrays (records : list record) (writer : Sink) :
  (forall fuel, (length records < fuel)%nat ->
     processFileAndWriteMatches fuel (inr (arrayStream (inr <$> records))) writer =
       Some (ProcessMatches (arrayStream (inr <$> records)) writer)) /\
  (room writer = None ->
   ProcessMatches (arrayStream (inr <$> records)) writer =
     {| count := Z.of_nat (length (List.filter isMatch records));
        scanErr := None;
        sink := {| emitted := emitted writer ++ List.filter isMatch records;
                   room := None |};
        warnings := [] |}).
Proof.
  split.
  - intros fuel Hfuel. cbn.
    rewrite arrayLoop_returns by (rewrite length_fmap; exact Hfuel).
    f_equal. apply arrayScan_clean.
  - intros Hroom. destruct writer as [written r]. cbn in Hroom. subst r.
    cbn. apply sgpArrayLoop_unbounded.
Qed.

Lemma scanners_agree_on_clean_arrays_witness :
  let hit : record := [("billing_code", JString "99283"); ("x", JNumber "1")] in
  let miss : record := [("billing_code", JString "00000"); ("x", JNumber "2")] in
  let out := {| emitted := []; room := None |} in
  let scanned := {| count := 1; scanErr := None; sink := {| emitted := [hit]; room := None |};
                    warnings := [] |} in
  ProcessMatches (arrayStream (inr <$> [hit; miss])) out = scanned /\
  processFileAndWriteMatches 3 (inr (arrayStream (inr <$> [hit; miss]))) out = Some scanned.
Proof.
  intros hit miss out scanned.
  destruct (scanners_agree_on_clean_arrays [hit; miss] out) as [Hplain Hgzip].
  split.
  - exact (Hgzip eq_refl).
  - rewrite (Hplain 3%nat) by (cbn [length]; lia). reflexivity.
Defined.

(** Objects at the top level, with a sink that accepts every write.  The
    gzip scanner goes through all the objects of the stream, and for each
    writes the object itself when it matches, without looking inside it,
    and otherwise the matches nested in it.  The plain-JSON scanner
    decodes the first object only and writes every match in it, the
    object itself included, whatever follows in the file. *)
Theorem object_mode_output (v : record) (more : list (string + record))
    (objects : list record) (written : list record) (fuel : nat) :
  let out := {| emitted := written; room := None |} in
  ProcessMatches (objectStream (inr <$> objects)) out =
    {| count := Z.of_nat (length (flat_map objectMatches objects));
       scanErr := None;
       sink := {| emitted := written ++ flat_map objectMatches objects; room := None |};
       warnings := [] |} /\
  processFileAndWriteMatches fuel (inr (objectStream (inr v :: more))) out =
    Some {| count := Z.of_nat (length (findMatchingObjectsRecursive (JObject v)));
            scanErr := None;
            sink := {| emitted := written ++ findMatchingObjectsRecursive (JObject v);
                       room := None |};
            warnings := [] |}.
Proof.
  cbn zeta. split.
  - cbn. apply processObjectsLoop_unbounded.
  - unfold processFileAndWriteMatches. cbn [objectStream leading decodes openToken].
    cbn [Ascii.eqb Bool.eqb]. cbn iota. rewrite encodeAll_unbounded. reflexivity.
Qed.

(** A defect of the input after which [decoder.More()] stays true holds
    the plain-JSON scanner for ever: [Decode] returns the same error at
    every pass and the loop warns and goes on, so that, when the writes
    succeed, the scan has not returned after any number of passes.  The
    gzip scanner returns an error on the same input.  When
    [decoder.More()] turns false after the defect, the plain-JSON scanner
    returns without error, with one more warning. *)
Theorem plain_scanner_hangs_on_defect (ds : list (string + record)) (cause : string)
    (writer : Sink) :
  room writer = None ->
  (forall fuel,
     processFileAndWriteMatches fuel (inr (withDefect (arrayStream ds) cause true)) writer
       = None) /\
  (Forall (fun d => decoded d = true) ds ->
   scanErr (ProcessMatches (withDefect (arrayStream ds) cause true) writer)
     = Some (DecodeRecord cause)) /\
  (forall fuel, (length ds < fuel)%nat ->
     exists r,
       processFileAndWriteMatches fuel (inr (withDefect (arrayStream ds) cause false)) writer
         = Some r /\
       scanErr r = None /\ warnings r = failures ds ++ [cause]).
Proof.
  intros Hroom. split; [|split].
  - intros fuel. cbn. generalize (@nil string) as warned. generalize 0 as n.
    revert ds writer Hroom.
    induction fuel as [|fuel IH]; intros ds writer Hroom n warned; [reflexivity|].
    cbn [arrayLoop]. destruct ds as [|[c|v] rest].
    + apply (IH [] writer Hroom).
    + apply (IH rest writer Hroom).
    + destruct (isMatch v); [|apply (IH rest writer Hroom)].
      rewrite Encode_room_None by exact Hroom. now apply IH.
  - intros Hds. cbn.
    assert (Hrec : ds = inr <$> delivered ds).
    { clear Hroom. induction Hds as [|[c|v] rest Hd _ IH]; [reflexivity | discriminate |].
      cbn [delivered flat_map app fmap list_fmap]. f_equal. exact IH. }
    rewrite Hrec. destruct writer as [written room0]. cbn in Hroom. subst room0.
    rewrite sgpArrayLoop_unbounded. reflexivity.
  - intros fuel Hfuel. cbn. generalize 0 as n.
    assert (Hgen : forall warned n, exists r,
              arrayLoop fuel ds (Some (cause, false)) n writer warned = Some r /\
              scanErr r = None /\ warnings r = warned ++ failures ds ++ [cause]);
      [|intros n; exact (Hgen [] n)].
    revert ds writer Hroom Hfuel.
    induction fuel as [|fuel IH]; intros ds writer Hroom Hfuel warned n; [lia|].
    cbn [arrayLoop]. destruct ds as [|[c|v] rest]; cbn [length] in Hfuel.
    + eexists. split; [reflexivity | split; reflexivity].
    + destruct (IH rest writer Hroom ltac:(lia) (warned ++ [c]) n) as (r & Hr & He & Hw).
      exists r. split; [exact Hr | split; [exact He|]].
      rewrite Hw. cbn [failures flat_map app]. now rewrite <- app_assoc.
    + cbn [failures flat_map app]. destruct (isMatch v); [|apply (IH rest writer Hroom); lia].
      rewrite Encode_room_None by exact Hroom. apply IH; [reflexivity | lia].
Qed.

Lemma plain_scanner_hangs_on_defect_witness :
  let hit : record := [("billing_code", JString "99283")] in
  let out := {| emitted := []; room := None |} in
  let file := withDefect (arrayStream [inr hit]) "unexpected EOF" true in
  processFileAndWriteMatches 1000 (inr file) out = None /\
  scanErr (ProcessMatches file out) = Some (DecodeRecord "unexpected EOF").
Proof.
  intros hit out file.
  destruct (plain_scanner_hangs_on_defect [inr hit] "unexpected EOF" out eq_refl)
    as (Hhang & Hgzip & _).
  split; [apply Hhang | apply Hgzip].
  constructor; [reflexivity | constructor].
Defined.

(** ** More on the ledger *)

Lemma collectResults_counters (received : list result) :
  forall m total done,
    (collectResults received m total done).2 = done + Z.of_nat (length received) /\
    (collectResults received m total done).1.2 =
      total + fold_right Z.add 0 (newRecords <$> received).
Proof.
  induction received as [|res rest IH]; intros m total done;
    cbn [collectResults fmap list_fmap fold_right length].
  - cbn. lia.
  - unfold newRecords at 1. destruct (err res).
    + destruct (IH m total (done + 1)) as [-> ->]. lia.
    + destruct (IH (<[fileName res := true]> m)
                   (if 0 <? recordsFound res then total + recordsFound res else total)
                   (done + 1)) as [-> ->].
      destruct (0 <? recordsFound res); lia.
Qed.

(** The counters of the collecting loop: [filesProcessed] grows by one
    for every result received, failed or not, and [totalNewRecords] by
    the records of the results without error; the records a failed scan
    reports are not counted. *)
Theorem collectResults_totals (received : list result) (m : gmap string bool) :
  let '(files, total, done) := collectResults received m 0 0 in
  done = Z.of_nat (length received) /\
  total = fold_right Z.add 0 (newRecords <$> received) /\
  0 <= total.
Proof.
  destruct (collectResults_counters received m 0 0) as [Hd Ht].
  destruct (collectResults received m 0 0) as [[files total] done].
  cbn [fst snd] in *. subst. repeat split; try lia.
  induction received as [|res rest IH]; cbn; [lia|].
  unfold newRecords at 1. destruct (err res); [lia|].
  destruct (0 <? recordsFound res) eqn:H; [apply Z.ltb_lt in H|]; lia.
Qed.

Lemma filter_fmap_Name (P : string -> bool) (Q : DirEntry -> bool) (entries : list DirEntry) :
  List.filter P (Name <$> List.filter Q entries) =
  Name <$> List.filter (fun file => Q file && P (Name file)) entries.
Proof.
  induction entries as [|file rest IH]; cbn [List.filter]; [reflexivity|].
  destruct (Q file); cbn [andb fmap list_fmap List.filter]; [|exact IH].
  destruct (P (Name file)); cbn [fmap list_fmap]; now rewrite IH.
Qed.

(** What is read back from a ledger that was written: the names of the
    saved map, as JSON encodes them. *)
Lemma reload_lookup (files : gmap string bool) (stored : LedgerFile) (f : string) :
  exists reloaded,
    loadProcessedFiles (saveProcessedFiles files None None stored).2 = inr reloaded /\
    (mapGet reloaded f = true <-> exists g, is_Some (files !! g) /\ jsonString g = f).
Proof.
  cbn [saveProcessedFiles snd loadProcessedFiles]. eexists. split; [reflexivity|].
  rewrite <- (ledgerNames_saved files stored f). cbn [saveProcessedFiles snd ledgerNames].
  unfold mapGet. rewrite loaded_from, lookup_empty.
  destruct (bool_decide (f ∈ jsonString <$> (map_to_list files).*1)) eqn:Hd.
  - apply bool_decide_eq_true in Hd. cbn. tauto.
  - apply bool_decide_eq_false in Hd. cbn. split; [discriminate | contradiction].
Qed.

(** The next run takes up exactly what failed: after a run that could
    write its ledger, over names that JSON encodes as they are (valid
    UTF-8), a second run over the same directory has as candidates the
    candidates of the first run whose scan returned an error, in the
    same order, and none at all when every scan succeeded. *)
Theorem second_run_candidates (scanOf : string -> Z * option ScanError) (suffix : string)
    (stored : LedgerFile) (loaded : gmap string bool) (entries : list DirEntry)
    (pool : list string -> list result) :
  loadProcessedFiles stored = inr loaded ->
  Forall (fun f => jsonString f = f) (ledgerNames stored) ->
  Forall (fun file => jsonString (Name file) = Name file) entries ->
  let filesToProcess := candidates suffix entries loaded in
  pool filesToProcess ≡ₚ (workerResult scanOf <$> filesToProcess) ->
  let final := runScan suffix stored loaded entries pool None None in
  exists reloaded,
    loadProcessedFiles (ledger final) = inr reloaded /\
    candidates suffix entries reloaded = List.filter (scanFailed scanOf) filesToProcess /\
    ((forall f, f ∈ filesToProcess -> snd (scanOf f) = None) ->
     candidates suffix entries reloaded = []).
Proof.
  intros Hload Hnames Hentries filesToProcess Hpool final.
  rewrite Forall_forall in Hnames. rewrite Forall_forall in Hentries.
  assert (Hall : forall f v, loaded !! f = Some v -> v = true).
  { intros f v Hf. rewrite (loadProcessedFiles_lookup stored loaded f Hload) in Hf.
    destruct (bool_decide _); congruence. }
  assert (Hstored : forall f v, loaded !! f = Some v -> f ∈ ledgerNames stored).
  { intros f v Hf. rewrite (loadProcessedFiles_lookup stored loaded f Hload) in Hf.
    destruct (bool_decide (f ∈ ledgerNames stored)) eqn:Hd; [|discriminate].
    now apply bool_decide_eq_true in Hd. }
  assert (Hgoal : exists reloaded,
            loadProcessedFiles (ledger final) = inr reloaded /\
            candidates suffix entries reloaded = List.filter (scanFailed scanOf) filesToProcess).
  { subst final. unfold runScan. fold filesToProcess.
    destruct filesToProcess as [|f0 rest] eqn:Hcands.
    - cbn [ledger]. exists loaded. split; [exact Hload|]. exact Hcands.
    - rewrite <- Hcands in *. clear Hcands f0 rest.
      pose proof (collectResults_lookup (pool filesToProcess) loaded 0 0) as Hlook.
      destruct (collectResults (pool filesToProcess) loaded 0 0) as [[files total] done].
      cbn [fst snd] in Hlook. cbn [ledger].
      assert (Hvalid : forall g, is_Some (files !! g) -> jsonString g = g).
      { intros g [v Hv]. rewrite Hlook in Hv.
        destruct (succeeded (pool filesToProcess) g) eqn:Hs.
        - apply succeeded_iff in Hs as (res & Hres & Hn & _).
          rewrite Hpool in Hres. apply list_elem_of_fmap in Hres as (c & -> & Hc).
          cbn in Hn. subst c. unfold filesToProcess, candidates in Hc.
          apply list_elem_of_fmap in Hc as (file & -> & Hin).
          apply list_elem_of_In, List.filter_In in Hin as [Hin _].
          apply Hentries. now apply list_elem_of_In.
        - apply Hnames. eapply Hstored. exact Hv. }
      assert (Hkeys : exists reloaded,
                loadProcessedFiles (saveProcessedFiles files None None stored).2
                  = inr reloaded /\
                forall f, mapGet reloaded f = true <-> is_Some (files !! f)).
      { cbn [saveProcessedFiles snd loadProcessedFiles]. eexists. split; [reflexivity|].
        intros f. destruct (reload_lookup files stored f) as (reloaded & Hre & Hf).
        cbn [saveProcessedFiles snd loadProcessedFiles] in Hre. injection Hre as <-.
        rewrite Hf. split.
        - intros (g & Hg & <-). now rewrite (Hvalid g Hg).
        - intros Hg. exists f. split; [exact Hg | now apply Hvalid]. }
      destruct Hkeys as (reloaded & Hre & Hkeys).
      exists reloaded. split; [exact Hre|].
      subst filesToProcess. unfold candidates. rewrite filter_fmap_Name. f_equal.
      apply List.filter_ext_in. intros file Hin.
      destruct (negb (IsDir file) && HasSuffix (ToLower (Name file)) suffix) eqn:Hbase;
        [|reflexivity].
      cbn [andb].
      destruct (mapGet loaded (Name file)) eqn:Hold; cbn [negb andb].
      + apply negb_false_iff. apply Hkeys. rewrite Hlook.
        destruct (succeeded _ _); [eauto|]. unfold mapGet in Hold.
        destruct (loaded !! Name file); [eauto | discriminate].
      + assert (Hcand : Name file ∈ candidates suffix entries loaded).
        { unfold candidates. apply list_elem_of_fmap. exists file. split; [reflexivity|].
          apply list_elem_of_In, List.filter_In. split; [exact Hin|].
          now rewrite Hbase, Hold. }
        assert (Hnone : loaded !! Name file = None).
        { unfold mapGet in Hold. destruct (loaded !! Name file) as [v|] eqn:Hv;
            [|reflexivity]. rewrite (Hall _ _ Hv) in Hold. discriminate. }
        unfold scanFailed. destruct (snd (scanOf (Name file))) as [e|] eqn:He.
        * apply negb_true_iff. destruct (mapGet reloaded (Name file)) eqn:Hm;
            [|reflexivity].
          apply Hkeys in Hm. rewrite Hlook, Hnone in Hm.
          destruct (succeeded (pool (candidates suffix entries loaded)) (Name file)) eqn:Hs;
            [|destruct Hm; discriminate].
          apply succeeded_iff in Hs as (res & Hres & Hn & Herr).
          rewrite Hpool in Hres. apply list_elem_of_fmap in Hres as (g & -> & _).
          cbn in Hn, Herr. subst g. congruence.
        * apply negb_false_iff, Hkeys. rewrite Hlook.
          assert (Hs : succeeded (pool (candidates suffix entries loaded)) (Name file) = true).
          { apply succeeded_iff. exists (workerResult scanOf (Name file)).
            rewrite Hpool. split; [apply list_elem_of_fmap; eauto|].
            split; [reflexivity | exact He]. }
          rewrite Hs. eauto. }
  destruct Hgoal as (reloaded & Hre & Hc). exists reloaded.
  split; [exact Hre | split; [exact Hc|]].
  intros Hok. rewrite Hc. clear Hc Hre final Hpool.
  induction filesToProcess as [|f rest IH]; [reflexivity|].
  cbn [List.filter]. unfold scanFailed at 1. rewrite (Hok f) by left.
  apply IH. intros g Hg. apply Hok. now right.
Qed.

Lemma second_run_candidates_witness :
  let scanOf := fun f : string =>
    if String.eqb f "b.json.gz" then (0, Some (PeekFailed "unexpected EOF"))
    else (2, @None ScanError) in
  let entries := [ {| Name := "a.json.gz"; IsDir := false |};
                   {| Name := "b.json.gz"; IsDir := false |};
                   {| Name := "c.json.gz"; IsDir := false |} ] in
  let pool := fun fs : list string => workerResult scanOf <$> fs in
  exists reloaded,
    loadProcessedFiles (ledger (runScan ".gz" (Listed ["c.json.gz"]) {[ "c.json.gz" := true ]}
                                        entries pool None None)) = inr reloaded /\
    candidates ".gz" entries reloaded = ["b.json.gz"].
Proof.
  intros scanOf entries pool.
  destruct (second_run_candidates scanOf ".gz" (Listed ["c.json.gz"]) {[ "c.json.gz" := true ]}
              entries pool eq_refl
              ltac:(repeat constructor) ltac:(repeat constructor) ltac:(reflexivity))
    as (reloaded & H1 & H2 & _).
  exists reloaded. split; [exact H1 | exact H2].
Defined.

Lemma downloadFile_result_wellformed_witness :
  let parse := fun u : string => @inr string string u in
  let join := fun d f : string => d +:+ "/" +:+ f in
  let w := {| outcome := fun _ => Responds 404 None None; sample := fun _ => Fin 0 |} in
  Error (fst (downloadFile amd64 parse join "https://example.com/a.json.gz" "downloads" ∅ w))
  <> None.
Proof.
  intros parse join w.
  refine (proj1 (proj1 (proj2 (downloadFile_result_wellformed amd64 parse join
            "https://example.com/a.json.gz" "downloads" ∅ w)) _)).
  vm_compute. reflexivity.
Defined.

(** ** More on the repair tool *)

(** A stream that is read to its end without trouble is decompressed
    whole: when every pass reads without error and its bytes are written,
    up to the pass that reports end-of-file, [robustDecompress] returns
    [nil] and the output file holds all the bytes delivered, those that
    came with the end-of-file included. *)
Theorem robustDecompress_complete (input : GzipInput) (before after : list ReadStep)
    (c : list Byte.byte) (we : error) :
  openErr input = None -> headerErr input = None ->
  mkdirErr input = None -> createOutErr input = None ->
  Forall cleanStep before -> (c = [] \/ we = None) ->
  reads input = before \/
  reads input = before ++ {| chunk := c; readStatus := ReadEOF; writeErr := we |} :: after ->
  exists data,
    robustDecompress input = {| returned := None; outputFile := Some data |} /\
    (reads input = before -> data = concat (chunk <$> before)) /\
    (reads input <> before -> data = concat (chunk <$> before) ++ c).
Proof.
  intros Ho Hh Hm Hc Hclean Hwrite Hreads.
  unfold robustDecompress. rewrite Ho, Hh, Hm, Hc.
  destruct Hreads as [Hr | Hr]; rewrite Hr.
  - exists (concat (chunk <$> before)).
    rewrite <- (app_nil_r before) at 1. rewrite (readLoop_clean before [] Hclean).
    cbn [readLoop app]. split; [reflexivity | split; [reflexivity | congruence]].
  - exists (concat (chunk <$> before) ++ c).
    rewrite (readLoop_clean before _ Hclean). cbn [readLoop chunk readStatus writeErr app].
    split; [|split; [|reflexivity]].
    + destruct c as [|b c].
      * change (0 <? Z.of_nat (length [])) with false. cbn iota.
        now rewrite app_nil_r.
      * destruct Hwrite as [? | ->]; [discriminate|].
        replace (0 <? Z.of_nat (length (b :: c))) with true
          by (symmetry; apply Z.ltb_lt; cbn [length]; lia).
        reflexivity.
    + intros Heq. exfalso. apply (f_equal length) in Heq.
      rewrite length_app in Heq. cbn [length] in Heq. lia.
Qed.

Lemma robustDecompress_complete_witness :
  let step := {| chunk := [Byte.x7b; Byte.x7d]; readStatus := ReadOk; writeErr := None |} in
  let input := {| openErr := None; headerErr := None; mkdirErr := None;
                  createOutErr := None; reads := [step] |} in
  exists data,
    robustDecompress input = {| returned := None; outputFile := Some data |} /\
    (reads input = [step] -> data = concat (chunk <$> [step])).
Proof.
  intros step input.
  destruct (robustDecompress_complete input [step] [] [] None eq_refl eq_refl eq_refl eq_refl)
    as (data & H1 & H2 & _).
  - constructor; [split; [reflexivity | right; reflexivity] | constructor].
  - left. reflexivity.
  - left. reflexivity.
  - exists data. split; [exact H1 | exact H2].
Defined.

(** A failed write ends the repair with that error, whatever the reader
    reported in the same pass, read error or end-of-file included; the
    output file keeps the bytes written before. *)
Theorem robustDecompress_write_failure (input : GzipInput) (before after : list ReadStep)
    (c : list Byte.byte) (status : ReadStatus) (cause : string) :
  openErr input = None -> headerErr input = None ->
  mkdirErr input = None -> createOutErr input = None ->
  Forall cleanStep before -> c <> [] ->
  reads input =
    before ++ {| chunk := c; readStatus := status; writeErr := Some cause |} :: after ->
  robustDecompress input =
    {| returned := Some (WriteOutputFailed cause);
       outputFile := Some (concat (chunk <$> before)) |}.
Proof.
  intros Ho Hh Hm Hc Hclean Hne Hreads.
  unfold robustDecompress. rewrite Ho, Hh, Hm, Hc, Hreads.
  rewrite (readLoop_clean before _ Hclean). cbn [readLoop chunk readStatus writeErr app].
  destruct c as [|b c]; [congruence|].
  replace (0 <? Z.of_nat (length (b :: c))) with true
    by (symmetry; apply Z.ltb_lt; cbn [length]; lia).
  reflexivity.
Qed.

Lemma robustDecompress_write_failure_witness :
  let input := {| openErr := None; headerErr := None; mkdirErr := None;
                  createOutErr := None;
                  reads := [ {| chunk := [Byte.x7b]; readStatus := ReadEOF;
                                writeErr := Some "no space left on device" |} ] |} in
  robustDecompress input =
  {| returned := Some (WriteOutputFailed "no space left on device");
     outputFile := Some [] |}.
Proof.
  intros input.
  exact (robustDecompress_write_failure input [] [] [Byte.x7b] ReadEOF
           "no space left on device" eq_refl eq_refl eq_refl eq_refl
           (List.Forall_nil _) ltac:(discriminate) eq_refl).
Defined.

Lemma readLoop_prefix (steps : list ReadStep) :
  forall written totalBytes,
    exists more,
      outputFile (readLoop steps written totalBytes) = Some (written ++ more) /\
      more `prefix_of` concat (chunk <$> steps).
Proof.
  induction steps as [|step rest IH]; intros written totalBytes;
    cbn [readLoop fmap list_fmap concat].
  - exists []. rewrite app_nil_r. split; [reflexivity | apply prefix_nil].
  - destruct (chunk step) as [|b bs] eqn:Hchunk.
    + change (0 <? Z.of_nat (length [])) with false. cbn iota.
      destruct (readStatus step).
      * apply IH.
      * exists []. rewrite app_nil_r. split; [reflexivity | apply prefix_nil].
      * exists []. rewrite app_nil_r.
        destruct (0 <? totalBytes); (split; [reflexivity | apply prefix_nil]).
    + replace (0 <? Z.of_nat (length (b :: bs))) with true
        by (symmetry; apply Z.ltb_lt; cbn [length]; lia).
      destruct (writeErr step).
      * exists []. rewrite app_nil_r. split; [reflexivity | apply prefix_nil].
      * assert (Hhere : (b :: bs) `prefix_of` (b :: bs) ++ concat (chunk <$> rest))
          by (apply prefix_app_r; reflexivity).
        destruct (readStatus step).
        -- destruct (IH (written ++ b :: bs) (totalBytes + Z.of_nat (length (b :: bs))))
             as (more & Hout & Hpre).
           exists ((b :: bs) ++ more). rewrite Hout, <- app_assoc.
           split; [reflexivity | now apply prefix_app].
        -- exists (b :: bs). split; [reflexivity | exact Hhere].
        -- exists (b :: bs).
           destruct (0 <? totalBytes + Z.of_nat (length (b :: bs)));
             (split; [reflexivity | exact Hhere]).
Qed.

(** Whatever happens, the output file of [robustDecompress] holds a
    prefix of the decompressed stream: bytes are written in the order in
    which they were read and nothing else is written. *)
Theorem robustDecompress_output_prefix (input : GzipInput) (data : list Byte.byte) :
  outputFile (robustDecompress input) = Some data ->
  data `prefix_of` concat (chunk <$> reads input).
Proof.
  unfold robustDecompress.
  destruct (openErr input); [discriminate|].
  destruct (headerErr input); [discriminate|].
  destruct (mkdirErr input); [discriminate|].
  destruct (createOutErr input); [discriminate|].
  destruct (readLoop_prefix (reads input) [] 0) as (more & Hout & Hpre).
  rewrite Hout. cbn [app]. intros H. injection H as <-. exact Hpre.
Qed.

Lemma robustDecompress_output_prefix_witness :
  let input := {| openErr := None; headerErr := None; mkdirErr := None;
                  createOutErr := None;
                  reads := [ {| chunk := [Byte.x7b]; readStatus := ReadFails "flate: corrupt input";
                                writeErr := None |};
                             {| chunk := [Byte.x7d]; readStatus := ReadEOF;
                                writeErr := None |} ] |} in
  [Byte.x7b] `prefix_of` concat (chunk <$> reads input).
Proof.
  intros input.
  exact (robustDecompress_output_prefix input [Byte.x7b] eq_refl).
Defined.

Lemma repairLoop_from (files : list FileOutcome) :
  forall s0 e0 p0, 0 <= s0 ->
    let '(s, e, p) := fold_left repairStep files (s0, e0, p0) in
    e = e0 + Z.of_nat (length (List.filter bothFailed files)) /\
    0 <= s <= s0 + Z.of_nat (length (List.filter completeAndValid files)) /\
    s0 + e0 + p0 + Z.of_nat (length files) <= s + e + p /\
    (List.filter salvagedInvalid files = [] ->
     s = s0 + Z.of_nat (length (List.filter completeAndValid files)) /\
     s + e + p = s0 + e0 + p0 + Z.of_nat (length files)).
Proof.
  induction files as [|file rest IH]; intros s0 e0 p0 Hs0; cbn [fold_left].
  - cbn. lia.
  - pose proof (eq_refl : bothFailed file = negb (simpleOk file) && negb (robustOk file))
      as Hbf.
    pose proof (eq_refl : completeAndValid file = simpleOk file && validJSON file) as Hcv.
    pose proof (eq_refl : salvagedInvalid file =
                          negb (simpleOk file) && robustOk file && negb (validJSON file))
      as Hsi.
    assert (Hstep : repairStep (s0, e0, p0) file =
      if simpleOk file then
        if validJSON file then (s0 + 1, e0, p0)
        else ((if 0 <? s0 + 1 then s0 + 1 - 1 else s0 + 1), e0, p0 + 1)
      else if robustOk file then
        if validJSON file then (s0, e0, p0 + 1)
        else ((if 0 <? s0 then s0 - 1 else s0), e0, p0 + 1 + 1)
      else (s0, e0 + 1, p0)) by reflexivity.
    rewrite Hstep. clear Hstep. cbn [List.filter]. rewrite Hbf, Hcv, Hsi. clear Hbf Hcv Hsi.
    destruct (simpleOk file), (robustOk file), (validJSON file); cbn [negb andb length];
      repeat match goal with
             | |- context [0 <? ?x] =>
                 let H := fresh in destruct (0 <? x) eqn:H;
                 [apply Z.ltb_lt in H | apply Z.ltb_ge in H]
             end;
      match goal with
      | |- context [fold_left repairStep rest (?a, ?b, ?c)] =>
          specialize (IH a b c ltac:(lia));
          destruct (fold_left repairStep rest (a, b, c)) as [[s e] p]
      end;
      destruct IH as (He & Hs & Hsum & Hex);
      (split; [lia | split; [lia | split; [lia|]]]);
      intros Hnil; first [discriminate | specialize (Hex Hnil); lia].
Qed.

(** The summary of the repair tool: [errorCount] is exactly the number
    of archives for which both methods failed; [successCount] is never
    negative and never exceeds the number of archives that decompressed
    at the first try and validated; the three counters add up to at
    least the number of archives, and to exactly that number, with
    [successCount] exact, when no salvaged archive failed validation. *)
Theorem repairLoop_summary (files : list FileOutcome) :
  let '(successCount, errorCount, partialCount) := repairLoop files in
  errorCount = Z.of_nat (length (List.filter bothFailed files)) /\
  0 <= successCount <= Z.of_nat (length (List.filter completeAndValid files)) /\
  Z.of_nat (length files) <= successCount + errorCount + partialCount /\
  (List.filter salvagedInvalid files = [] ->
   successCount = Z.of_nat (length (List.filter completeAndValid files)) /\
   successCount + errorCount + partialCount = Z.of_nat (length files)).
Proof.
  unfold repairLoop. pose proof (repairLoop_from files 0 0 0 ltac:(lia)) as H.
  destruct (fold_left repairStep files (0, 0, 0)) as [[s e] p].
  destruct H as (He & Hs & Hsum & Hex).
  split; [lia | split; [lia | split; [lia|]]].
  intros Hnil. specialize (Hex Hnil). lia.
Qed.

Lemma repairLoop_summary_witness :
  let files := [ {| simpleOk := true; robustOk := false; validJSON := true |};
                 {| simpleOk := false; robustOk := true; validJSON := true |};
                 {| simpleOk := false; robustOk := false; validJSON := false |} ] in
  let '(successCount, errorCount, partialCount) := repairLoop files in
  successCount + errorCount + partialCount = Z.of_nat (length files).
Proof.
  intros files. pose proof (repairLoop_summary files) as H.
  destruct (repairLoop files) as [[s e] p].
  exact (proj2 (proj2 (proj2 (proj2 H)) eq_refl)).
Defined.

(** ** More on the worker pool: results and progress *)

Lemma flat_map_insert {A B : Type} (g : A -> list B) (l : list A) (i : nat) (x x' : A) :
  l !! i = Some x ->
  exists others, flat_map g l ≡ₚ g x ++ others /\
                 flat_map g (<[ i := x' ]> l) ≡ₚ g x' ++ others.
Proof.
  intros Hi. exists (flat_map g (take i l) ++ flat_map g (drop (S i) l)).
  rewrite insert_take_drop by (eapply lookup_lt_Some; eauto).
  rewrite <- (take_drop_middle l i x Hi) at 1.
  rewrite !flat_map_app. cbn [flat_map].
  split; solve_Permutation.
Qed.

Section PoolProgress.

Variable writes : string -> list record.
Variable files : list string.
Variable numWorkers : nat.

Lemma accounted_step (st st' : PoolState) :
  accounted files st -> poolStep writes st st' -> accounted files st'.
Proof.
  unfold accounted. intros Hacc Hstep.
  inversion Hstep as
    [ f us js m ws b o rs
    | i f us js m ws b o rs Hi
    | i f us js ws b o rs Hi
    | i f r todo us js m ws b o rs Hi
    | i f todo us js m ws b o rs Hi
    | i f us js m ws b o rs Hi
    | i f us js m ws b o rs Hi
    | i f us js m ws b o rs Hi ]; subst st st';
    cbn [unsent jobs writerMutex workers buffered output results] in *;
    try exact Hacc;
    try (match goal with
         | |- context [<[ i := ?s' ]> ws] =>
             destruct (flat_map_insert holding ws i _ s' Hi) as (others & H1 & H2);
             rewrite Hacc, H1, H2; cbn [holding]; solve_Permutation
         end).
  rewrite Hacc. solve_Permutation.
Qed.

Lemma holder_update (ws : list WorkerState) (i : nat) (s s' : WorkerState)
    (m : option nat) :
  ws !! i = Some s -> (holdsLock s = true -> holdsLock s' = true) ->
  (forall j, m = Some j -> exists t, ws !! j = Some t /\ holdsLock t = true) ->
  forall j, m = Some j -> exists t, <[ i := s' ]> ws !! j = Some t /\ holdsLock t = true.
Proof.
  intros Hi Himp Hown j Hj. destruct (Hown j Hj) as (t & Ht & Hh).
  destruct (decide (j = i)) as [->|Hne].
  - exists s'. split; [apply list_lookup_insert_eq; eapply lookup_lt_Some; eauto|].
    apply Himp. congruence.
  - exists t. split; [rewrite list_lookup_insert_ne by congruence; exact Ht | exact Hh].
Qed.

Lemma lockOwned_step (st st' : PoolState) :
  lockOwned numWorkers st -> poolStep writes st st' -> lockOwned numWorkers st'.
Proof.
  unfold lockOwned. intros [Hlen Hown] Hstep.
  inversion Hstep as
    [ f us js m ws b o rs
    | i f us js m ws b o rs Hi
    | i f us js ws b o rs Hi
    | i f r todo us js m ws b o rs Hi
    | i f todo us js m ws b o rs Hi
    | i f us js m ws b o rs Hi
    | i f us js m ws b o rs Hi
    | i f us js m ws b o rs Hi ]; subst st st';
    cbn [unsent jobs writerMutex workers buffered output results] in *;
    rewrite ?length_insert; (split; [exact Hlen|]).
  - exact Hown.
  - eapply holder_update; eauto; discriminate.
  - intros j Hj. injection Hj as <-. exists (Scanning f (writes f)).
    split; [|reflexivity].
    apply list_lookup_insert_eq. eapply lookup_lt_Some; eauto.
  - eapply holder_update; eauto.
  - exact Hown.
  - eapply holder_update; eauto.
  - discriminate.
  - eapply holder_update; eauto; discriminate.
Qed.

Lemma reachable_accounted (st : PoolState) :
  reachable writes files numWorkers st ->
  accounted files st /\ lockOwned numWorkers st.
Proof.
  unfold reachable. revert st.
  apply (rtc_ind_r (fun st => accounted files st /\ lockOwned numWorkers st)).
  - split.
    + unfold accounted, initPool. cbn [unsent jobs workers results].
      replace (flat_map holding (replicate numWorkers Idle)) with (@nil string);
        [reflexivity|].
      induction numWorkers as [|n IH]; [reflexivity | exact IH].
    + unfold lockOwned, initPool. cbn [writerMutex workers].
      split; [apply length_replicate | discriminate].
  - intros st st' _ Hstep [Hacc Hown].
    split; [eapply accounted_step | eapply lockOwned_step]; eauto.
Qed.

End PoolProgress.

Lemma holding_idle (ws : list WorkerState) :
  Forall (fun s => s = Idle) ws -> flat_map holding ws = [].
Proof. induction 1 as [|s ws -> _ IH]; [reflexivity | exact IH]. Qed.

(** Every job gives exactly one result: in any state a run can reach no
    file is reported twice, only files of the run are reported, and when
    the run has nothing left to do the results are the files of the run,
    in some order. *)
Theorem pool_one_result_per_file (writes : string -> list record) (files : list string)
    (numWorkers : nat) (st : PoolState) :
  NoDup files -> reachable writes files numWorkers st ->
  NoDup (results st) /\
  (forall f, f ∈ results st -> f ∈ files) /\
  (finished st -> results st ≡ₚ files).
Proof.
  intros Hnd Hrun.
  destruct (reachable_accounted writes files numWorkers st Hrun) as [Hacc _].
  unfold accounted in Hacc. split; [|split].
  - rewrite Hacc in Hnd. now apply NoDup_app in Hnd as [? _].
  - intros f Hf. rewrite Hacc. apply elem_of_app. now left.
  - intros (Hu & Hj & Hidle). rewrite Hacc, Hu, Hj, (holding_idle _ Hidle), !app_nil_r.
    reflexivity.
Qed.

Lemma pool_one_result_per_file_witness :
  let hit : record := [("billing_code", JString "99283")] in
  let writes := fun _ : string => [hit] in
  NoDup (results {| unsent := []; jobs := []; writerMutex := None;
                    workers := [Idle]; buffered := [];
                    output := [("a.json.gz", hit)]; results := ["a.json.gz"] |}).
Proof.
  intros hit writes.
  refine (proj1 (pool_one_result_per_file writes ["a.json.gz"] 1 _ _ _)).
  - apply (bool_decide_unpack _). vm_compute. exact I.
  - unfold reachable, initPool.
    eapply rtc_l; [apply step_send|].
    eapply rtc_l; [apply (step_claim writes 0); reflexivity|].
    eapply rtc_l; [apply (step_lock writes 0 "a.json.gz"); reflexivity|].
    eapply rtc_l; [apply (step_write writes 0 "a.json.gz" hit []); reflexivity|].
    eapply rtc_l; [apply (step_flush writes 0 "a.json.gz"); reflexivity|].
    eapply rtc_l; [apply (step_unlock writes 0 "a.json.gz"); reflexivity|].
    eapply rtc_l; [apply (step_report writes 0 "a.json.gz"); reflexivity|].
    apply rtc_refl.
Defined.

Lemma busy_dec (ws : list WorkerState) :
  (exists i s, ws !! i = Some s /\ s <> Idle) \/ Forall (fun s => s = Idle) ws.
Proof.
  induction ws as [|s ws [(i & t & Hi & Ht) | IH]].
  - right. constructor.
  - left. exists (S i), t. auto.
  - destruct s; try (left; exists 0%nat; eexists; split; [reflexivity | discriminate]).
    right. now constructor.
Qed.

(** A worker that holds the lock can always take its next step. *)
Lemma holder_can_step (writes : string -> list record) (us js : list string)
    (m : option nat) (ws : list WorkerState) (b o : list (string * record))
    (rs : list string) (i : nat) (s : WorkerState) :
  ws !! i = Some s -> holdsLock s = true ->
  exists st', poolStep writes
                {| unsent := us; jobs := js; writerMutex := m; workers := ws;
                   buffered := b; output := o; results := rs |} st'.
Proof.
  intros Hi Hh. destruct s as [| f | f [|r todo] | f | f]; try discriminate.
  - eexists. eapply step_flush. exact Hi.
  - eexists. eapply step_write. exact Hi.
  - eexists. eapply step_unlock. exact Hi.
Qed.

(** The pool has no deadlock: with at least one worker, a state that a
    run can reach is either one in which everything is done, or one in
    which some goroutine can take a step.  In particular, whenever a
    worker waits for the lock, the worker that holds it can go on.  (The
    scans of the model return; this is about the states of the pool, not
    about the length of a run.) *)
Theorem pool_never_stuck (writes : string -> list record) (files : list string)
    (numWorkers : nat) (st : PoolState) :
  (0 < numWorkers)%nat -> reachable writes files numWorkers st ->
  finished st \/ exists st', poolStep writes st st'.
Proof.
  intros Hpos Hrun.
  destruct (reachable_accounted writes files numWorkers st Hrun) as [_ [Hlen Hown]].
  destruct st as [us js m ws b o rs].
  cbn [unsent jobs writerMutex workers buffered output results] in *.
  destruct us as [|f us]; [|right; eexists; apply step_send].
  destruct (busy_dec ws) as [(i & s & Hi & Hs) | Hidle].
  - right. destruct s as [| f | f todo | f | f]; [congruence | | | |].
    + destruct m as [j|].
      * destruct (Hown j eq_refl) as (t & Ht & Hh). eapply holder_can_step; eauto.
      * eexists. eapply step_lock. exact Hi.
    + eapply holder_can_step; eauto.
    + eapply holder_can_step; eauto.
    + eexists. eapply step_report. exact Hi.
  - destruct js as [|f js].
    + left. repeat split; assumption.
    + right. destruct ws as [|s ws]; [cbn in Hlen; lia|].
      apply Forall_cons in Hidle as [-> _].
      eexists. eapply (step_claim writes 0). reflexivity.
Qed.

Lemma pool_never_stuck_witness :
  let writes := fun _ : string => @nil record in
  let waiting := {| unsent := []; jobs := []; writerMutex := Some 0%nat;
                    workers := [Scanning "a.json.gz" []; Claimed "b.json.gz"];
                    buffered := []; output := []; results := [] |} in
  finished waiting \/ exists st', poolStep writes waiting st'.
Proof.
  intros writes waiting.
  refine (pool_never_stuck writes ["a.json.gz"; "b.json.gz"] 2 waiting ltac:(lia) _).
  unfold reachable, initPool.
  eapply rtc_l; [apply step_send|].
  eapply rtc_l; [apply step_send|].
  eapply rtc_l; [apply (step_claim writes 0); reflexivity|].
  eapply rtc_l; [apply (step_claim writes 1); reflexivity|].
  eapply rtc_l; [apply (step_lock writes 0 "a.json.gz"); reflexivity|].
  apply rtc_refl.
Defined.

(** ** The JSON URL scraper *)

Module JSONScraperFacts.

Import JSONScraper.

Lemma extract_found (d : JSON) :
  forall planID planName info,
    In info (extractURLsRecursive d planID planName) ->
    isURL (URL info) = true /\
    exists v, occursIn (JObject v) d /\ stringMember v "location" = Some (URL info).
Proof.
  induction d as [| b | n | s | items IH | members IH] using JSON_nested_ind;
    intros planID planName info Hin; cbn [extractURLsRecursive] in Hin; try contradiction.
  - apply in_flat_map in Hin as (x & Hx & Hv). rewrite Forall_forall in IH.
    destruct (IH x ltac:(now apply list_elem_of_In) _ _ info Hv) as [Hu (v & Ho & Hl)].
    split; [exact Hu|]. exists v. split; [eapply occurs_item; eauto | exact Hl].
  - apply in_app_or in Hin as [Hin | Hin].
    + destruct (stringMember members "location") as [location|] eqn:Hloc; [|contradiction].
      destruct (isURL location) eqn:Hu; [|contradiction].
      destruct Hin as [<- | []]. cbn [URL]. split; [exact Hu|].
      exists members. split; [constructor | exact Hloc].
    + apply in_flat_map in Hin as ([k x] & Hx & Hv). rewrite Forall_forall in IH.
      destruct (IH (k, x) ltac:(now apply list_elem_of_In) _ _ info Hv)
        as [Hu (v & Ho & Hl)].
      split; [exact Hu|]. exists v. split; [eapply occurs_member; eauto | exact Hl].
Qed.

Lemma extract_finds (v : record) (d : JSON) (location : string) :
  occursIn (JObject v) d -> stringMember v "location" = Some location ->
  isURL location = true ->
  forall planID planName,
    exists info, In info (extractURLsRecursive d planID planName) /\ URL info = location.
Proof.
  intros Ho Hloc Hu. induction Ho as [| members k x Hin Ho IH | items x Hin Ho IH];
    intros planID planName; cbn [extractURLsRecursive].
  - rewrite Hloc, Hu. eexists. split; [left; reflexivity | reflexivity].
  - match goal with |- context [flat_map (fun kv => extractURLsRecursive (snd kv) ?p ?q)] =>
      destruct (IH p q) as (info & Hi & Hurl) end.
    exists info. split; [|exact Hurl]. apply in_or_app. right.
    apply in_flat_map. exists (k, x). auto.
  - destruct (IH planID planName) as (info & Hi & Hurl).
    exists info. split; [|exact Hurl]. apply in_flat_map. exists x. auto.
Qed.

(** [extractURLs] finds exactly the locations that are URLs: a string is
    the URL of an extracted entry exactly when it starts with [http://]
    or [https://] and is the string value of the [location] key of some
    object, at any depth of the document. *)
Theorem extractURLs_exact (data : JSON) (location : string) :
  In location (URL <$> extractURLs data) <->
  isURL location = true /\
  exists v, occursIn (JObject v) data /\ stringMember v "location" = Some location.
Proof.
  unfold extractURLs. split.
  - intros Hin. apply list_elem_of_In, list_elem_of_fmap in Hin as (info & -> & Hin).
    apply list_elem_of_In in Hin. eapply extract_found; eauto.
  - intros [Hu (v & Ho & Hloc)].
    destruct (extract_finds v data location Ho Hloc Hu "" "") as (info & Hin & <-).
    apply list_elem_of_In, list_elem_of_fmap. exists info.
    split; [reflexivity | now apply list_elem_of_In].
Qed.

Lemma extract_plan (d : JSON) :
  forall planID planName info,
    In info (extractURLsRecursive d planID planName) ->
    (planID <> "" -> PlanID info = planID) /\
    (planName <> "" -> PlanName info = planName).
Proof.
  induction d as [| b | n | s | items IH | members IH] using JSON_nested_ind;
    intros planID planName info Hin; cbn [extractURLsRecursive] in Hin; try contradiction.
  - apply in_flat_map in Hin as (x & Hx & Hv). rewrite Forall_forall in IH.
    exact (IH x ltac:(now apply list_elem_of_In) _ _ info Hv).
  - apply in_app_or in Hin as [Hin | Hin].
    + destruct (stringMember members "location") as [location|]; [|contradiction].
      destruct (isURL location); [|contradiction].
      destruct Hin as [<- | []]. cbn. auto.
    + apply in_flat_map in Hin as ([k x] & Hx & Hv). rewrite Forall_forall in IH.
      destruct (IH (k, x) ltac:(now apply list_elem_of_In) _ _ info Hv) as [H1 H2].
      cbn [snd] in *. split.
      * intros Hne. destruct (String.eqb_spec planID ""); [contradiction|]. now apply H1.
      * intros Hne. destruct (String.eqb_spec planName ""); [contradiction|]. now apply H2.
Qed.

(** A plan, once known, is not replaced further down: every entry
    extracted below a point where the plan id (or the plan name) is
    already set carries that id (or name), whatever [plan_id] and
    [plan_name] keys the objects below have. *)
Theorem extractURLs_plan_inherited (data : JSON) (planID planName : string)
    (info : URLInfo) :
  In info (extractURLsRecursive data planID planName) ->
  (planID <> "" -> PlanID info = planID) /\
  (planName <> "" -> PlanName info = planName).
Proof. apply extract_plan. Qed.

Lemma extractURLs_plan_inherited_witness :
  let inner := JObject [("plan_id", JString "B"); ("location", JString "https://example.com/f")] in
  let info := {| URL := "https://example.com/f"; Description := "";
                 PlanID := "A"; PlanName := "" |} in
  PlanID info = "A".
Proof.
  intros inner info.
  refine (proj1 (extractURLs_plan_inherited (JArray [inner]) "A" "" info _) _).
  - vm_compute. left. reflexivity.
  - discriminate.
Defined.

(** [ReplaceAll] of one byte by another replaces every occurrence. *)
Lemma ReplaceAll_byte (s : string) (c n : ascii) :
  ReplaceAll s (String c "") (String n "") =
  string_of_list_ascii
    ((fun x => if Ascii.eqb x c then n else x) <$> list_ascii_of_string s).
Proof.
  unfold ReplaceAll. induction s as [|x s IH]; [reflexivity|].
  cbn [replaceFrom list_ascii_of_string fmap list_fmap string_of_list_ascii].
  rewrite HasPrefix_cons.
  destruct (ascii_dec c x) as [<-|Hne].
  - rewrite Ascii.eqb_refl.
    replace (HasPrefix s "") with true by (unfold HasPrefix; now destruct s).
    cbn [String.length Nat.pred]. rewrite string_app_cons, string_app_nil_l.
    f_equal. exact IH.
  - replace (Ascii.eqb x c) with false by (symmetry; apply Ascii.eqb_neq; congruence).
    f_equal. exact IH.
Qed.

Lemma Contains_slash_list (l : list ascii) :
  Contains (string_of_list_ascii l) "/" = false <-> Forall (fun x => x <> "/"%char) l.
Proof.
  induction l as [|x l IH]; cbn [string_of_list_ascii].
  - split; [constructor | reflexivity].
  - rewrite Contains_slash_cons, orb_false_iff, IH, Forall_cons, Ascii.eqb_neq. tauto.
Qed.

(** When the entry has a plan name, the name under which the file is
    stored contains no slash, so that the file stays in the download
    directory. *)
Theorem descriptiveName_no_slash (urlInfo : URLInfo) (path : string) :
  PlanName urlInfo <> "" ->
  Contains (descriptiveName urlInfo (destinationName path)) "/" = false.
Proof.
  intros Hname. unfold descriptiveName.
  destruct (String.eqb_spec (PlanName urlInfo) ""); [contradiction|]. cbn [negb].
  assert (Hdest : Contains (destinationName path) "/" = false).
  { unfold destinationName, lastPathPart.
    destruct (String.eqb _ ""); [reflexivity|].
    exact (proj1 (lastSegmentFrom_facts path "" eq_refl)). }
  rewrite !Contains_slash_app, !ReplaceAll_byte, Hdest.
  replace (Contains "_" "/") with false by reflexivity. rewrite !orb_false_r.
  apply Contains_slash_list. rewrite !list_ascii_of_string_of_list_ascii.
  rewrite <- !list_fmap_compose. apply Forall_fmap, Forall_forall. intros x _.
  unfold compose.
  set (a := if Ascii.eqb x " " then "_"%char else x).
  destruct (Ascii.eqb_spec a "/") as [Ha|Ha].
  - cbn. discriminate.
  - destruct (Ascii.eqb_spec a "\"); [discriminate | exact Ha].
Qed.

Lemma descriptiveName_no_slash_witness :
  Contains (descriptiveName {| URL := "https://example.com/x/in-network.json.gz";
                               Description := ""; PlanID := "12/34";
                               PlanName := "Gold / Silver PPO" |}
                            (destinationName "/x/in-network.json.gz")) "/" = false.
Proof.
  apply descriptiveName_no_slash. discriminate.
Defined.

End JSONScraperFacts.
